(** * LiteX SoC integration: regions, locations and interconnect selection

    A shallow embedding of the bookkeeping part of
    [litex/soc/integration/soc.py]: [SoCRegion], [SoCBusHandler]
    (regions, masters, slaves, [do_finalize]), [SoCLocHandler] and its two
    specialisations [SoCCSRHandler] and [SoCIRQHandler].

    Python integers are [Z]; a [dict] is an association list in insertion
    order; a method that mutates [self] and may raise is a function from the
    object to an outcome paired with the object as the call leaves it, so
    that what was written before an exception is raised stays written. *)

From Stdlib Require Import ZArith List String Bool Lia DecimalString.
From Stdlib Require Import Permutation.
Import ListNotations.

#[local] Open Scope string_scope.
#[local] Open Scope list_scope.
#[local] Open Scope Z_scope.

(** ** Exceptions and outcomes *)

(** [SoCError] carries no data in the source: what went wrong is only in the
    line logged with [logger.error] just before the [raise].  The embedding
    keeps that line as the payload of the exception. *)
Inductive log_error : Type :=
  | UnsupportedBusStandard
  | UnsupportedDataWidth
  | UnsupportedAddressWidth
  | UnsupportedAlignment
  | AlignmentBelowDataWidth
  | UnsupportedPaging
  | UnsupportedOrdering
  | UnsupportedIRQsNumber
  | AlreadyDeclaredAsRegion (name : string)
  | IORegionOverlap (n0 n1 : string)
  | RegionInIOCantBeCached (name : string)
  | RegionNotInIOMustBeCached (name : string)
  | RegionOverlap (n0 n1 : string)
  | NotASupportedRegion (name : string)
  | NotEnoughAddressSpace
  | OriginNotAligned
  | AlreadyDeclaredAsMaster (name : string)
  | AlreadyDeclaredAsSlave (name : string)
  | SpecifyNameOrRegion
  | RegionNotFound (name : string)
  | OnlyOneRegionWhenDisablingDecoder
  | LocNameAlreadyUsed (name : string)
  | LocAlreadyUsed (n : option Z)
  | LocShouldBePositive (n : Z)
  | LocHigherThanMaximum (n : Z)
  | NotEnoughLocations
  | IRQsNotSupported (name : string).

Inductive exn : Type :=
  | SoCError (logged : log_error)
  | TypeError
  | KeyError
  | ValueError
  | StopIteration
  | ZeroDivisionError.

(** [OutOfFuel] is not a Python outcome: it marks a run of the placement
    loop of [alloc_region] that was cut before the loop ended. *)
Inductive result (A : Type) : Type :=
  | Ok (a : A)
  | Raise (e : exn)
  | OutOfFuel.

Arguments Ok {A} a.
Arguments Raise {A} e.
Arguments OutOfFuel {A}.

(** A method of an object of type [St]: the outcome and the object after
    the call, whether the call returned or raised. *)
Definition M (St A : Type) : Type := St -> result A * St.

Definition ret {St A} (a : A) : M St A := fun s => (Ok a, s).

Definition raise {St A} (e : exn) : M St A := fun s => (Raise e, s).

Definition bind {St A B} (c : M St A) (k : A -> M St B) : M St B :=
  fun s =>
    match c s with
    | (Ok a, s') => k a s'
    | (Raise e, s') => (Raise e, s')
    | (OutOfFuel, s') => (OutOfFuel, s')
    end.

Definition get_self {St} : M St St := fun s => (Ok s, s).

Definition modify {St} (f : St -> St) : M St unit := fun s => (Ok tt, f s).

Definition lift {St A} (r : result A) : M St A := fun s => (r, s).

Declare Scope method_scope.
Delimit Scope method_scope with method.
Notation "x <- c ;; k" := (bind c (fun x => k))
  (at level 61, c at next level, right associativity) : method_scope.
Notation "c ;; k" := (bind c (fun _ => k))
  (at level 61, right associativity) : method_scope.

(** Sequencing of pure outcomes. *)
Definition rbind {A B} (r : result A) (k : A -> result B) : result B :=
  match r with
  | Ok a => k a
  | Raise e => Raise e
  | OutOfFuel => OutOfFuel
  end.

(** ** Python dictionaries *)

Module PyDict.
Section Dict.
Context {V : Type}.

Definition dict : Type := list (string * V).

Definition keys (d : dict) : list string := map fst d.

Definition values (d : dict) : list V := map snd d.

Definition len (d : dict) : Z := Z.of_nat (List.length d).

(** [k in d.keys()] *)
Definition mem (k : string) (d : dict) : bool :=
  existsb (String.eqb k) (keys d).

(** [d.get(k, None)] *)
Fixpoint get (d : dict) (k : string) : option V :=
  match d with
  | [] => None
  | (k', v) :: d' => if String.eqb k k' then Some v else get d' k
  end.

(** [d[k]] *)
Definition getitem (d : dict) (k : string) : result V :=
  match get d k with
  | Some v => Ok v
  | None => Raise KeyError
  end.

(** [d[k] = v]: an existing key keeps its place, a new one goes last. *)
Fixpoint setitem (d : dict) (k : string) (v : V) : dict :=
  match d with
  | [] => [(k, v)]
  | (k', v') :: d' =>
      if String.eqb k k' then (k', v) :: d' else (k', v') :: setitem d' k v
  end.

(** [next(iter(d.values()))] *)
Definition first_value (d : dict) : result V :=
  match d with
  | [] => Raise StopIteration
  | (_, v) :: _ => Ok v
  end.
End Dict.
Arguments dict V : clear implicits.
End PyDict.

Import PyDict.

(** ** Integer helpers *)

(** [int.bit_length] *)
Definition bit_length (n : Z) : Z :=
  if Z.abs n =? 0 then 0 else Z.log2 (Z.abs n) + 1.

(** [log2_int(n, False)] of migen: the least [r] with [n <= 2**r], and [0]
    at [0]; with [need_pow2=False] it never raises. *)
Definition log2_int (n : Z) : Z :=
  if n =? 0 then 0 else bit_length (n - 1).

(** ** SoCRegion *)

Record SoCRegion : Type := mkSoCRegion {
  origin    : option Z;
  decode    : bool;
  size      : Z;
  size_pow2 : Z;
  mode      : string;
  cached    : bool;
  linker    : bool
}.

(** [SoCRegion.__init__] *)
Definition SoCRegion_init (origin : option Z) (size : Z) (mode : string)
    (cached linker decode : bool) : SoCRegion :=
  {| origin    := origin;
     decode    := decode;
     size      := size;
     size_pow2 := 2 ^ log2_int size;
     mode      := mode;
     cached    := cached;
     linker    := linker |}.

(** The argument of [add_region], by its class: [SoCIORegion] is tested
    first, being a subclass of [SoCRegion]; anything else is refused. *)
Inductive region_arg : Type :=
  | IsSoCIORegion (r : SoCRegion)
  | IsSoCRegion (r : SoCRegion)
  | NotARegion.

(** An address predicate returned by [SoCRegion.decoder]: the two lambdas
    of the source, with the values they close over. *)
Inductive decoder_fn : Type :=
  | DecodeAlways
  | DecodeField (origin_words size_words : Z).

(** Python's [x + y] and [x >= y] with a possibly-[None] left operand. *)
Definition py_add (x : option Z) (y : Z) : result Z :=
  match x with
  | Some x => Ok (x + y)
  | None => Raise TypeError
  end.

Definition py_ge (x : option Z) (y : Z) : result bool :=
  match x with
  | Some x => Ok (y <=? x)
  | None => Raise TypeError
  end.

(** [int(math.log2(x))] *)
Definition int_math_log2 (x : Z) : result Z :=
  if x <=? 0 then Raise ValueError else Ok (Z.log2 x).

(** [SoCRegion.decoder(bus)], reading the two widths of the bus. *)
Definition decoder (r : SoCRegion) (bus_address_width bus_data_width : Z)
    : result decoder_fn :=
  match origin r with
  | None => Raise TypeError
  | Some o =>
      let sz := size_pow2 r in
      if negb (Z.land o (sz - 1) =? 0) then
        Raise (SoCError OriginNotAligned)
      else if negb (decode r) || ((o =? 0) && (sz =? 2 ^ bus_address_width))
      then Ok DecodeAlways
      else
        rbind (int_math_log2 (bus_data_width / 8)) (fun sh =>
        Ok (DecodeField (Z.shiftr o sh) (Z.shiftr sz sh)))
  end.

(** ** Overlap and containment tests on regions *)

(** The body of the inner loop of [check_regions_overlap] for one pair:
    [Ok true] when the pair is reported. *)
Definition pair_overlaps (check_linker : bool) (r0 r1 : SoCRegion)
    : result bool :=
  if (linker r0 || linker r1) && negb check_linker then Ok false
  else
    rbind (py_add (origin r1) (size_pow2 r1)) (fun end1 =>
    rbind (py_ge (origin r0) end1) (fun apart0 =>
    if apart0 then Ok false
    else
      rbind (py_add (origin r0) (size_pow2 r0)) (fun end0 =>
      rbind (py_ge (origin r1) end0) (fun apart1 =>
      if apart1 then Ok false else Ok true)))).

(** The inner [for n1 in list(regions.keys())[i+1:]]. *)
Fixpoint overlap_with (check_linker : bool) (n0 : string) (r0 : SoCRegion)
    (rest : dict SoCRegion) : result (option (string * string)) :=
  match rest with
  | [] => Ok None
  | (n1, r1) :: rest' =>
      rbind (pair_overlaps check_linker r0 r1) (fun hit =>
      if hit then Ok (Some (n0, n1))
      else overlap_with check_linker n0 r0 rest')
  end.

(** [check_regions_overlap(regions, check_linker)]: the first overlapping
    pair in insertion order, or [None]. *)
Fixpoint check_regions_overlap (regions : dict SoCRegion)
    (check_linker : bool) : result (option (string * string)) :=
  match regions with
  | [] => Ok None
  | (n0, r0) :: rest =>
      rbind (overlap_with check_linker n0 r0 rest) (fun found =>
      match found with
      | Some p => Ok (Some p)
      | None => check_regions_overlap rest check_linker
      end)
  end.

(** [check_region_is_in(region, container)] *)
Definition check_region_is_in (region container : SoCRegion) : result bool :=
  match origin region, origin container with
  | Some ro, Some co =>
      let is_in := true in
      let is_in := if negb (co <=? ro) then false else is_in in
      let is_in :=
        if negb (ro + size region <=? co + size container) then false
        else is_in in
      Ok is_in
  | _, _ => Raise TypeError
  end.

(** The loop of [check_region_is_io]: every I/O region is visited. *)
Fixpoint check_region_is_io_loop (region : SoCRegion)
    (ios : dict SoCRegion) (is_io : bool) : result bool :=
  match ios with
  | [] => Ok is_io
  | (_, io_region) :: rest =>
      rbind (check_region_is_in region io_region) (fun inside =>
      check_region_is_io_loop region rest (if inside then true else is_io))
  end.

(** ** Region placement *)

(** The [for _, allocated in self.regions.items()] of [alloc_region]:
    [Ok true] as soon as one allocated region overlaps the candidate. *)
Fixpoint candidate_overlaps (allocated : dict SoCRegion)
    (candidate : SoCRegion) : result bool :=
  match allocated with
  | [] => Ok false
  | (_, a) :: rest =>
      rbind (check_regions_overlap [("0", a); ("1", candidate)] false)
        (fun found =>
      match found with
      | Some _ => Ok true
      | None => candidate_overlaps rest candidate
      end)
  end.

(** What one search region yields. *)
Inductive scan : Type :=
  | Found (candidate : SoCRegion)
  | Exhausted
  | ScanRaise (e : exn)
  | ScanOutOfFuel.

(** The [while] loop of [alloc_region] over one search region ending at
    [limit = search_region.origin + search_region.size_pow2]. *)
Fixpoint alloc_scan (fuel : nat) (allocated : dict SoCRegion)
    (sz sz_pow2 : Z) (cached : bool) (limit origin : Z) : scan :=
  match fuel with
  | O => ScanOutOfFuel
  | S fuel' =>
      if origin + sz <? limit then
        if negb (origin mod sz_pow2 =? 0) then
          alloc_scan fuel' allocated sz sz_pow2 cached limit
            (origin + (sz_pow2 - origin mod sz_pow2))
        else
          let candidate :=
            SoCRegion_init (Some origin) sz "rw" cached false true in
          match candidate_overlaps allocated candidate with
          | Ok true =>
              alloc_scan fuel' allocated sz sz_pow2 cached limit
                (origin + sz)
          | Ok false => Found candidate
          | Raise e => ScanRaise e
          | OutOfFuel => ScanOutOfFuel
          end
      else Exhausted
  end.

(** The [for _, search_region in search_regions.items()]. *)
Fixpoint alloc_search (fuel : nat) (allocated : dict SoCRegion)
    (sz sz_pow2 : Z) (cached : bool) (search_regions : dict SoCRegion)
    : result SoCRegion :=
  match search_regions with
  | [] => Raise (SoCError NotEnoughAddressSpace)
  | (_, search_region) :: rest =>
      match origin search_region with
      | None => Raise TypeError
      | Some o =>
          match alloc_scan fuel allocated sz sz_pow2 cached
                  (o + size_pow2 search_region) o with
          | Found candidate => Ok candidate
          | Exhausted =>
              alloc_search fuel allocated sz sz_pow2 cached rest
          | ScanRaise e => Raise e
          | ScanOutOfFuel => OutOfFuel
          end
      end
  end.

(** ** SoCBusHandler *)

(** The object built by the interconnect classes; the bus logic they
    generate is outside this development, only their arguments are kept. *)
Inductive interconnect_obj (Interface : Type) : Type :=
  | InterconnectPointToPoint (master slave : Interface)
  | InterconnectShared (masters : list Interface)
      (slaves : list (decoder_fn * Interface))
      (register : bool) (timeout_cycles : option Z)
  | Crossbar (masters : list Interface)
      (slaves : list (decoder_fn * Interface))
      (register : bool) (timeout_cycles : option Z).

Arguments InterconnectPointToPoint {Interface} master slave.
Arguments InterconnectShared {Interface} masters slaves register
  timeout_cycles.
Arguments Crossbar {Interface} masters slaves register timeout_cycles.

Record SoCBusHandler (Interface : Type) : Type := mkSoCBusHandler {
  standard              : string;
  data_width            : Z;
  address_width         : Z;
  addressing            : string;
  bursting              : bool;
  interconnect          : string;
  interconnect_register : bool;
  masters               : dict Interface;
  slaves                : dict Interface;
  regions               : dict SoCRegion;
  io_regions            : dict SoCRegion;
  io_regions_check      : bool;
  timeout               : option Z;
  finalized             : bool;
  _interconnect         : option (interconnect_obj Interface)
}.

Arguments mkSoCBusHandler {Interface}.
Arguments standard {Interface} s.
Arguments data_width {Interface} s.
Arguments address_width {Interface} s.
Arguments addressing {Interface} s.
Arguments bursting {Interface} s.
Arguments interconnect {Interface} s.
Arguments interconnect_register {Interface} s.
Arguments masters {Interface} s.
Arguments slaves {Interface} s.
Arguments regions {Interface} s.
Arguments io_regions {Interface} s.
Arguments io_regions_check {Interface} s.
Arguments timeout {Interface} s.
Arguments finalized {Interface} s.
Arguments _interconnect {Interface} s.

Section BusHandler.
Variable Interface : Type.

#[local] Abbreviation Bus := (SoCBusHandler Interface).

(** Attribute assignments. *)
Definition set_regions (rs : dict SoCRegion) (b : Bus) : Bus :=
  mkSoCBusHandler (standard b) (data_width b) (address_width b)
    (addressing b) (bursting b) (interconnect b) (interconnect_register b)
    (masters b) (slaves b) rs (io_regions b) (io_regions_check b)
    (timeout b) (finalized b) (_interconnect b).

Definition set_io_regions (rs : dict SoCRegion) (b : Bus) : Bus :=
  mkSoCBusHandler (standard b) (data_width b) (address_width b)
    (addressing b) (bursting b) (interconnect b) (interconnect_register b)
    (masters b) (slaves b) (regions b) rs (io_regions_check b)
    (timeout b) (finalized b) (_interconnect b).

Definition set_masters (ms : dict Interface) (b : Bus) : Bus :=
  mkSoCBusHandler (standard b) (data_width b) (address_width b)
    (addressing b) (bursting b) (interconnect b) (interconnect_register b)
    ms (slaves b) (regions b) (io_regions b) (io_regions_check b)
    (timeout b) (finalized b) (_interconnect b).

Definition set_slaves (ss : dict Interface) (b : Bus) : Bus :=
  mkSoCBusHandler (standard b) (data_width b) (address_width b)
    (addressing b) (bursting b) (interconnect b) (interconnect_register b)
    (masters b) ss (regions b) (io_regions b) (io_regions_check b)
    (timeout b) (finalized b) (_interconnect b).

Definition set_io_regions_check (c : bool) (b : Bus) : Bus :=
  mkSoCBusHandler (standard b) (data_width b) (address_width b)
    (addressing b) (bursting b) (interconnect b) (interconnect_register b)
    (masters b) (slaves b) (regions b) (io_regions b) c
    (timeout b) (finalized b) (_interconnect b).

Definition set_finalized (f : bool) (b : Bus) : Bus :=
  mkSoCBusHandler (standard b) (data_width b) (address_width b)
    (addressing b) (bursting b) (interconnect b) (interconnect_register b)
    (masters b) (slaves b) (regions b) (io_regions b) (io_regions_check b)
    (timeout b) f (_interconnect b).

Definition set__interconnect (i : option (interconnect_obj Interface))
    (b : Bus) : Bus :=
  mkSoCBusHandler (standard b) (data_width b) (address_width b)
    (addressing b) (bursting b) (interconnect b) (interconnect_register b)
    (masters b) (slaves b) (regions b) (io_regions b) (io_regions_check b)
    (timeout b) (finalized b) i.

(** [alloc_region(name, size, cached)]; it reads the bus and leaves it
    as it is. *)
Definition alloc_region (fuel : nat) (self : Bus) (name : string)
    (sz : Z) (cached : bool) : result SoCRegion :=
  let search_regions :=
    if negb cached then io_regions self
    else [("main",
           SoCRegion_init (Some 0) (2 ^ address_width self - 1) "rw"
             true false true)] in
  let sz_pow2 := 2 ^ log2_int sz in
  alloc_search fuel (regions self) sz sz_pow2 cached search_regions.

(** [check_region_is_io(region)] *)
Definition check_region_is_io (self : Bus) (region : SoCRegion)
    : result bool :=
  check_region_is_io_loop region (io_regions self) false.

(** The cached-against-I/O rule of [add_region], run when
    [io_regions_check] is set. *)
Definition check_io_rule (self : Bus) (name : string) (region : SoCRegion)
    : result unit :=
  rbind (check_region_is_io self region) (fun is_io =>
  if is_io then
    if cached region then Raise (SoCError (RegionInIOCantBeCached name))
    else Ok tt
  else
    if negb (cached region) then
      Raise (SoCError (RegionNotInIOMustBeCached name))
    else Ok tt).

#[local] Open Scope method_scope.

(** [add_region(name, region)] *)
Definition add_region (fuel : nat) (name : string) (region : region_arg)
    : M Bus unit :=
  self <- get_self ;;
  if mem name (regions self) || mem name (io_regions self) then
    raise (SoCError (AlreadyDeclaredAsRegion name))
  else
    match region with
    | IsSoCIORegion region =>
        modify (fun s => set_io_regions (setitem (io_regions s) name region) s) ;;
        self <- get_self ;;
        overlap <- lift (check_regions_overlap (io_regions self) false) ;;
        match overlap with
        | Some (n0, n1) => raise (SoCError (IORegionOverlap n0 n1))
        | None => ret tt
        end
    | IsSoCRegion region =>
        match origin region with
        | None =>
            region <- lift (alloc_region fuel self name (size region)
                              (cached region)) ;;
            modify (fun s => set_regions (setitem (regions s) name region) s)
        | Some _ =>
            (if io_regions_check self
             then lift (check_io_rule self name region)
             else ret tt) ;;
            modify (fun s => set_regions (setitem (regions s) name region) s) ;;
            self <- get_self ;;
            overlap <- lift (check_regions_overlap (regions self) false) ;;
            match overlap with
            | Some (n0, n1) => raise (SoCError (RegionOverlap n0 n1))
            | None => ret tt
            end
        end
    | NotARegion => raise (SoCError (NotASupportedRegion name))
    end.

(** ** Masters, slaves and the interconnect *)

(** The converters, bridges, remappers and offsets that [add_adapter],
    [add_remapper] and [add_offset] instantiate belong to the bus
    libraries; here they are functions from the interface handed in to
    the interface registered, or to the exception raised.  Of the bus,
    [add_adapter] reads the standard, the two widths and the addressing. *)
Variable add_remapper :
  string -> Interface -> option Z -> Z -> result Interface.
Variable add_offset :
  string -> Interface -> option Z -> result Interface.
Variable add_adapter :
  string -> Z -> Z -> string -> string -> Interface -> string ->
  result Interface.

Definition adapt (self : Bus) (name : string) (interface : Interface)
    (direction : string) : result Interface :=
  add_adapter (standard self) (data_width self) (address_width self)
    (addressing self) name interface direction.

(** ["master{:d}".format(n)] and ["slave{:d}".format(n)] *)
Definition format_d (prefix : string) (n : nat) : string :=
  String.append prefix (NilEmpty.string_of_uint (Nat.to_uint n)).

(** [add_master(name, master, region)] *)
Definition add_master (name : option string) (master : Interface)
    (region : option SoCRegion) : M Bus unit :=
  self <- get_self ;;
  let name :=
    match name with
    | None => format_d "master" (List.length (masters self))
    | Some name => name
    end in
  if mem name (masters self) then
    raise (SoCError (AlreadyDeclaredAsMaster name))
  else
    master <- lift (match region with
                    | Some region =>
                        add_remapper name master (origin region)
                          (size region)
                    | None => Ok master
                    end) ;;
    master <- lift (adapt self name master "m2s") ;;
    modify (fun s => set_masters (setitem (masters s) name master) s).

(** The first half of [add_slave]: the region is looked up under the
    name of the slave, or added under it. *)
Definition slave_region (fuel : nat) (name : string)
    (region : option region_arg) : M Bus unit :=
  match region with
  | None =>
      self <- get_self ;;
      match get (regions self) name with
      | None => raise (SoCError (RegionNotFound name))
      | Some _ => ret tt
      end
  | Some region => add_region fuel name region
  end.

(** The second half of [add_slave]: the interface is offset, adapted and
    stored. *)
Definition register_slave (name : string) (slave : Interface)
    (strip_origin : bool) : M Bus unit :=
  self <- get_self ;;
  if mem name (slaves self) then
    raise (SoCError (AlreadyDeclaredAsSlave name))
  else
    slave <- lift (if strip_origin then
                     rbind (getitem (regions self) name) (fun r =>
                     add_offset name slave (origin r))
                   else Ok slave) ;;
    slave <- lift (adapt self name slave "s2m") ;;
    modify (fun s => set_slaves (setitem (slaves s) name slave) s).

(** [add_slave(name, slave, region, strip_origin)] *)
Definition add_slave (fuel : nat) (name : option string)
    (slave : Interface) (region : option region_arg) (strip_origin : bool)
    : M Bus unit :=
  self <- get_self ;;
  match name, region with
  | None, None => raise (SoCError SpecifyNameOrRegion)
  | _, _ =>
      let name :=
        match name with
        | None => format_d "slave" (List.length (slaves self))
        | Some name => name
        end in
      slave_region fuel name region ;;
      register_slave name slave strip_origin
  end.

(** The class tables at the head of [do_finalize] are indexed by
    [self.standard]. *)
Definition supported_standard : list string :=
  ["wishbone"; "axi-lite"; "axi"].

Definition supported_data_width : list Z := [32; 64; 128; 256; 512].

Definition supported_address_width : list Z := [32; 64].

Definition in_strings (s : string) (l : list string) : bool :=
  existsb (String.eqb s) l.

Definition in_ints (n : Z) (l : list Z) : bool := existsb (Z.eqb n) l.

(** The list comprehension
    [[(self.regions[n].decoder(self), s) for n, s in self.slaves.items()]]. *)
Fixpoint slave_decoders (self : Bus) (ss : dict Interface)
    : result (list (decoder_fn * Interface)) :=
  match ss with
  | [] => Ok []
  | (n, s) :: rest =>
      rbind (getitem (regions self) n) (fun r =>
      rbind (decoder r (address_width self) (data_width self)) (fun d =>
      rbind (slave_decoders self rest) (fun ds =>
      Ok ((d, s) :: ds))))
  end.

(** The test guarding the point-to-point branch; the third conjunct is
    only evaluated after the first two hold. *)
Definition point_to_point_test (self : Bus) : result bool :=
  if (len (masters self) =? 1) && (len (slaves self) =? 1) then
    rbind (first_value (regions self)) (fun r =>
    Ok (match origin r with
        | Some o => o =? 0
        | None => false
        end))
  else Ok false.

(** The loop under [# Check Region decoder use.] *)
Definition check_region_decoder_use (self : Bus) : result unit :=
  if 1 <? len (regions self) then
    if existsb (fun r => negb (decode r)) (values (regions self)) then
      Raise (SoCError OnlyOneRegionWhenDisablingDecoder)
    else Ok tt
  else Ok tt.

(** [do_finalize()] *)
Definition do_finalize : M Bus unit :=
  self <- get_self ;;
  if negb (in_strings (standard self) supported_standard) then
    raise KeyError
  else
    modify (set__interconnect None) ;;
    if negb (len (masters self) =? 0) && negb (len (slaves self) =? 0) then
      p2p <- lift (point_to_point_test self) ;;
      if p2p then
        master <- lift (first_value (masters self)) ;;
        slave <- lift (first_value (slaves self)) ;;
        modify (set__interconnect
                  (Some (InterconnectPointToPoint master slave)))
      else
        lift (check_region_decoder_use self) ;;
        if String.eqb (interconnect self) "shared" then
          ds <- lift (slave_decoders self (slaves self)) ;;
          modify (set__interconnect
                    (Some (InterconnectShared (values (masters self)) ds
                             (interconnect_register self) (timeout self))))
        else if String.eqb (interconnect self) "crossbar" then
          ds <- lift (slave_decoders self (slaves self)) ;;
          modify (set__interconnect
                    (Some (Crossbar (values (masters self)) ds
                             (interconnect_register self) (timeout self))))
        else raise KeyError
    else ret tt.

(** Modelled from the spec: [finalize()] is inherited from the module
    base class, which is not part of the sources at hand.  It is
    idempotent: the first call raises the [finalized] flag and runs
    [do_finalize]; a later call does nothing. *)
Definition finalize : M Bus unit :=
  self <- get_self ;;
  if finalized self then ret tt
  else modify (set_finalized true) ;; do_finalize.

(** A reserved region given as a bare integer is an origin. *)
Definition reserved_region (v : Z + region_arg) : region_arg :=
  match v with
  | inl o => IsSoCRegion (SoCRegion_init (Some o) 0x1000000 "rw" true false true)
  | inr r => r
  end.

Fixpoint add_reserved_regions (fuel : nat)
    (reserved : list (string * (Z + region_arg))) : M Bus unit :=
  match reserved with
  | [] => ret tt
  | (name, v) :: rest =>
      add_region fuel name (reserved_region v) ;;
      add_reserved_regions fuel rest
  end.

(** [SoCBusHandler.__init__]: the three checks, the attributes, then the
    reserved regions.  An exception leaves no object behind. *)
Definition SoCBusHandler_init (fuel : nat) (standard : string)
    (data_width address_width : Z) (timeout : option Z) (bursting : bool)
    (interconnect : string) (interconnect_register : bool)
    (reserved_regions : list (string * (Z + region_arg)))
    : result Bus :=
  if negb (in_strings standard supported_standard) then
    Raise (SoCError UnsupportedBusStandard)
  else if negb (in_ints data_width supported_data_width) then
    Raise (SoCError UnsupportedDataWidth)
  else if negb (in_ints address_width supported_address_width) then
    Raise (SoCError UnsupportedAddressWidth)
  else
    let self :=
      mkSoCBusHandler standard data_width address_width
        (if String.eqb standard "wishbone" then "word" else "byte")
        bursting interconnect interconnect_register
        [] [] [] [] true timeout false None in
    match add_reserved_regions fuel reserved_regions self with
    | (Ok _, self) => Ok self
    | (Raise e, _) => Raise e
    | (OutOfFuel, _) => OutOfFuel
    end.
End BusHandler.

(** ** SoCLocHandler *)

Record SoCLocHandler : Type := mkSoCLocHandler {
  loc_name : string;
  locs     : dict Z;
  n_locs   : Z
}.

Definition set_locs (l : dict Z) (h : SoCLocHandler) : SoCLocHandler :=
  mkSoCLocHandler (loc_name h) l (n_locs h).

(** [SoCLocHandler.__init__(name, n_locs)] *)
Definition SoCLocHandler_init (name : string) (n_locs : Z) : SoCLocHandler :=
  mkSoCLocHandler name [] n_locs.

(** [range(n)] *)
Definition range (n : Z) : list Z := map Z.of_nat (seq 0 (Z.to_nat n)).

(** [n in self.locs.values()] for an integer [n] *)
Definition loc_used (n : Z) (used : list Z) : bool := existsb (Z.eqb n) used.

(** The [for n in range(self.n_locs)] of [alloc]. *)
Fixpoint first_unused (candidates used : list Z) : option Z :=
  match candidates with
  | [] => None
  | n :: rest => if negb (loc_used n used) then Some n
                 else first_unused rest used
  end.

(** [alloc(name)] *)
Definition alloc (self : SoCLocHandler) (name : string) : result Z :=
  match first_unused (range (n_locs self)) (values (locs self)) with
  | Some n => Ok n
  | None => Raise (SoCError NotEnoughLocations)
  end.

#[local] Open Scope method_scope.

(** [add(name, n, use_loc_if_exists)]; [None in self.locs.values()] is
    false, the values being integers. *)
Definition add (name : string) (n : option Z) (use_loc_if_exists : bool)
    : M SoCLocHandler unit :=
  self <- get_self ;;
  if negb (use_loc_if_exists && mem name (locs self)) then
    if mem name (locs self) then
      raise (SoCError (LocNameAlreadyUsed name))
    else if match n with
            | Some n => loc_used n (values (locs self))
            | None => false
            end then
      raise (SoCError (LocAlreadyUsed n))
    else
      n <- match n with
           | None => lift (alloc self name)
           | Some n =>
               if n <? 0 then raise (SoCError (LocShouldBePositive n))
               else if n_locs self <? n then
                 raise (SoCError (LocHigherThanMaximum n))
               else ret n
           end ;;
      modify (fun s => set_locs (setitem (locs s) name n) s)
  else
    _ <- lift (getitem (locs self) name) ;;
    ret tt.

(** Adding the entries of a [reserved_*] dictionary in order. *)
Fixpoint add_all {St} (add1 : string -> option Z -> M St unit)
    (reserved : list (string * option Z)) : M St unit :=
  match reserved with
  | [] => ret tt
  | (name, n) :: rest => add1 name n ;; add_all add1 rest
  end.

(** ** SoCCSRHandler *)

Record SoCCSRHandler : Type := mkSoCCSRHandler {
  csr_locs          : SoCLocHandler;
  csr_data_width    : Z;
  csr_address_width : Z;
  csr_alignment     : Z;
  csr_paging        : Z;
  csr_ordering      : string
}.

Definition csr_supported_data_width : list Z := [8; 32].
Definition csr_supported_address_width : list Z := [14; 15; 16; 17; 18].
Definition csr_supported_alignment : list Z := [32].
Definition csr_supported_paging : list Z :=
  [0x400; 0x800; 0x1000; 0x2000; 0x4000].
Definition csr_supported_ordering : list string := ["big"; "little"].

(** [alignment//8*(2**address_width)//paging], on integers with
    [address_width >= 0]. *)
Definition csr_n_locs (alignment address_width paging : Z) : Z :=
  alignment / 8 * 2 ^ address_width / paging.

(** The inherited [add] acting on the location part of the handler. *)
Definition csr_add (name : string) (n : option Z) (use_loc_if_exists : bool)
    : M SoCCSRHandler unit :=
  fun self =>
    let (r, l) := add name n use_loc_if_exists (csr_locs self) in
    (r, mkSoCCSRHandler l (csr_data_width self) (csr_address_width self)
          (csr_alignment self) (csr_paging self) (csr_ordering self)).

(** [SoCCSRHandler.__init__]: [n_locs] is computed first, so a zero
    [paging] divides by zero before any check is made. *)
Definition SoCCSRHandler_init (data_width address_width alignment paging : Z)
    (ordering : string) (reserved_csrs : list (string * option Z))
    : result SoCCSRHandler :=
  if paging =? 0 then Raise ZeroDivisionError
  else
    let base :=
      SoCLocHandler_init "CSR" (csr_n_locs alignment address_width paging) in
    if negb (existsb (Z.eqb data_width) csr_supported_data_width) then
      Raise (SoCError UnsupportedDataWidth)
    else if negb (existsb (Z.eqb address_width) csr_supported_address_width)
    then Raise (SoCError UnsupportedAddressWidth)
    else if negb (existsb (Z.eqb alignment) csr_supported_alignment) then
      Raise (SoCError UnsupportedAlignment)
    else if alignment <? data_width then
      Raise (SoCError AlignmentBelowDataWidth)
    else if negb (existsb (Z.eqb paging) csr_supported_paging) then
      Raise (SoCError UnsupportedPaging)
    else if negb (existsb (String.eqb ordering) csr_supported_ordering) then
      Raise (SoCError UnsupportedOrdering)
    else
      let self :=
        mkSoCCSRHandler base data_width address_width alignment paging
          ordering in
      match add_all (fun name n => csr_add name n false) reserved_csrs self
      with
      | (Ok _, self) => Ok self
      | (Raise e, _) => Raise e
      | (OutOfFuel, _) => OutOfFuel
      end.

(** ** SoCIRQHandler *)

Record SoCIRQHandler : Type := mkSoCIRQHandler {
  irq_locs : SoCLocHandler;
  enabled  : bool
}.

(** [enable()] *)
Definition enable (self : SoCIRQHandler) : SoCIRQHandler :=
  mkSoCIRQHandler (irq_locs self) true.

(** [SoCIRQHandler.add(name, *args, **kwargs)] *)
Definition irq_add (name : string) (n : option Z) (use_loc_if_exists : bool)
    : M SoCIRQHandler unit :=
  fun self =>
    if enabled self then
      let (r, l) := add name n use_loc_if_exists (irq_locs self) in
      (r, mkSoCIRQHandler l (enabled self))
    else (Raise (SoCError (IRQsNotSupported name)), self).

(** [SoCIRQHandler.__init__(n_irqs, reserved_irqs)] *)
Definition SoCIRQHandler_init (n_irqs : Z)
    (reserved_irqs : list (string * option Z)) : result SoCIRQHandler :=
  let self := mkSoCIRQHandler (SoCLocHandler_init "IRQ" n_irqs) false in
  if 32 <? n_irqs then Raise (SoCError UnsupportedIRQsNumber)
  else
    match add_all (fun name n => irq_add name n false) reserved_irqs self with
    | (Ok _, self) => Ok self
    | (Raise e, _) => Raise e
    | (OutOfFuel, _) => OutOfFuel
    end.

(** ** The handlers as modules *)

(** Both handlers are modules: [class SoCBusHandler(LiteXModule)] and
    [class SoCLocHandler(LiteXModule)].  The bus record above carries the
    [finalized] flag of its module; for a location handler the flag is
    put beside the attributes here. *)
Module LocModule.
(** Modelled from the spec: the [finalized] flag of the module base
    class, which is not part of the sources at hand, beside the
    attributes that [SoCLocHandler] itself defines. *)
Record t : Type := mk {
  handler   : SoCLocHandler;
  finalized : bool
}.

(** Modelled from the spec: [finalize()] of the module base class.
    [SoCLocHandler] defines no [do_finalize], so the first call does no
    more than raise the flag; a later call does nothing. *)
Definition finalize : M t unit :=
  self <- get_self ;;
  if finalized self then ret tt
  else modify (fun s => mk (handler s) true).

(** [SoCLocHandler.add] called on the module.  Of [self] its body names
    [self.locs], [self.n_locs], [self.name] and [self.logger], and it
    assigns to an entry of [self.locs] only. *)
Definition add (name : string) (n : option Z) (use_loc_if_exists : bool)
    : M t unit :=
  fun self =>
    let (r, h) := add name n use_loc_if_exists (handler self) in
    (r, mk h (finalized self)).
End LocModule.

(** [add_remapper], [add_offset] and [add_adapter] are methods of the
    bus handler.  Each attaches what it instantiates to the handler with
    [self.submodules += ...] (and [self.comb += ...]), operations of the
    module base class; what they hand back is therefore given for each
    value of the [finalized] flag of the handler they are called on. *)
Module BusModule.
Section Adapters.
Variable Interface : Type.
Variable add_remapper :
  bool -> string -> Interface -> option Z -> Z -> result Interface.
Variable add_offset :
  bool -> string -> Interface -> option Z -> result Interface.
Variable add_adapter :
  bool -> string -> Z -> Z -> string -> string -> Interface -> string ->
  result Interface.

(** [add_master] with the adapters of the handler it is called on. *)
Definition add_master (name : option string) (master : Interface)
    (region : option SoCRegion) : M (SoCBusHandler Interface) unit :=
  fun self =>
    add_master Interface (add_remapper (finalized self))
      (add_adapter (finalized self)) name master region self.

(** [add_slave] with the adapters of the handler it is called on. *)
Definition add_slave (fuel : nat) (name : option string)
    (slave : Interface) (region : option region_arg) (strip_origin : bool)
    : M (SoCBusHandler Interface) unit :=
  fun self =>
    add_slave Interface (add_offset (finalized self))
      (add_adapter (finalized self)) fuel name slave region strip_origin
      self.

(** The adapters hand back the same interface, or raise the same
    exception, on a finalized handler as on one that is not. *)
Definition adapters_ignore_finalized : Prop :=
  (forall name i o sz,
     add_remapper true name i o sz = add_remapper false name i o sz) /\
  (forall name i o,
     add_offset true name i o = add_offset false name i o) /\
  (forall std dw aw addressing name i direction,
     add_adapter true std dw aw addressing name i direction =
     add_adapter false std dw aw addressing name i direction).
End Adapters.
End BusModule.

(** ** Notions used in the statements *)

(** The footprints [[origin, origin + size_pow2)] of two placed regions
    share no address. *)
Definition disjoint_footprints (r0 r1 : SoCRegion) : Prop :=
  exists o0 o1,
    origin r0 = Some o0 /\ origin r1 = Some o1 /\
    forall a, ~ (o0 <= a < o0 + size_pow2 r0 /\ o1 <= a < o1 + size_pow2 r1).

(** A placed region whose origin is a multiple of its rounded size. *)
Definition aligned (r : SoCRegion) : Prop :=
  exists o, origin r = Some o /\ o mod size_pow2 r = 0.

(** [n] is the least integer of [[0, n_locs)] that no name holds. *)
Definition least_unused (n_locs : Z) (used : list Z) (n : Z) : Prop :=
  0 <= n < n_locs /\ ~ In n used /\
  forall m, 0 <= m < n -> In m used.

Definition same_numbers (used used' : list Z) : Prop :=
  forall k, In k used <-> In k used'.

(** Applying a change of object to what a method leaves. *)
Definition after {St A} (f : St -> St) (x : result A * St) : result A * St :=
  (fst x, f (snd x)).

Section BusHistory.
Variable Interface : Type.

#[local] Abbreviation Bus := (SoCBusHandler Interface).

(** One successful call of [add_region] or of [alloc_region]. *)
Inductive region_call (b : Bus) : Bus -> Prop :=
  | call_add_region (fuel : nat) (name : string) (region : region_arg)
      (b' : Bus) :
      add_region Interface fuel name region b = (Ok tt, b') ->
      region_call b b'
  | call_alloc_region (fuel : nat) (name : string) (sz : Z)
      (cached : bool) (r : SoCRegion) :
      alloc_region Interface fuel b name sz cached = Ok r ->
      region_call b b.

(** The handlers reached from a fresh one, whose two region
    dictionaries are empty, by successful calls only. *)
Inductive reachable : Bus -> Prop :=
  | reach_fresh (b : Bus) :
      regions b = [] -> io_regions b = [] -> reachable b
  | reach_call (b b' : Bus) :
      reachable b -> region_call b b' -> reachable b'.

(** What [finalize] writes: the flag and the interconnect. *)
Definition finalize_marks (f : bool)
    (i : option (interconnect_obj Interface)) (b : Bus) : Bus :=
  set_finalized Interface f (set__interconnect Interface i b).

(** Two handlers holding the same four collections. *)
Definition same_collections (b b' : Bus) : Prop :=
  regions b = regions b' /\ io_regions b = io_regions b' /\
  masters b = masters b' /\ slaves b = slaves b'.
End BusHistory.

Arguments region_call {Interface} b _.
Arguments reachable {Interface} _.
Arguments finalize_marks {Interface} f i b.
Arguments same_collections {Interface} b b'.

(** ** Concrete handlers *)

Module Examples.
(** Interfaces named by strings, registered as they are handed in. *)
Definition plain_remapper (name : string) (i : string) (o : option Z)
    (sz : Z) : result string := Ok i.
Definition plain_offset (name : string) (i : string) (o : option Z)
    : result string := Ok i.
Definition plain_adapter (std : string) (dw aw : Z) (addressing : string)
    (name : string) (i : string) (direction : string) : result string :=
  Ok i.

Definition add_master_s := add_master string plain_remapper plain_adapter.
Definition add_slave_s := add_slave string plain_offset plain_adapter.
Definition finalize_s := finalize string.
Definition do_finalize_s := do_finalize string.

Definition region_at (o : Z) (sz : Z) : SoCRegion :=
  SoCRegion_init (Some o) sz "rw" true false true.

Definition region_of_size (sz : Z) : SoCRegion :=
  SoCRegion_init None sz "rw" true false true.

(** A sequence of calls, stopping at the first that does not return. *)
Fixpoint run_all {St} (calls : list (M St unit)) : M St unit :=
  match calls with
  | [] => ret tt
  | c :: rest => bind c (fun _ => run_all rest)
  end.

(** A fresh 32-bit Wishbone bus with a shared interconnect. *)
Definition fresh_bus : SoCBusHandler string :=
  mkSoCBusHandler "wishbone" 32 32 "word" false "shared" true
    [] [] [] [] true None false None.

(** [rom] placed at [0x0000_0000], size [0x2000]. *)
Definition bus_rom : SoCBusHandler string :=
  snd (add_region string 4 "rom" (IsSoCRegion (region_at 0 0x2000))
         fresh_bus).

(** Then [ram], size [0x1_0000], left to the allocator. *)
Definition bus_rom_ram : SoCBusHandler string :=
  snd (add_region string 4 "ram" (IsSoCRegion (region_of_size 0x10000))
         bus_rom).

(** A region [rom] at [0] with no slave behind it, then one slave [ram]
    at [0x1000_0000] and one master. *)
Definition calls_rom_then_ram_slave
    : list (M (SoCBusHandler string) unit) :=
  [ add_region string 4 "rom" (IsSoCRegion (region_at 0 0x2000));
    add_slave_s 4 (Some "ram") "ram_port"
      (Some (IsSoCRegion (region_at 0x10000000 0x1000))) false;
    add_master_s (Some "cpu") "cpu_port" None ].

Definition bus_rom_then_ram_slave : SoCBusHandler string :=
  snd (run_all calls_rom_then_ram_slave fresh_bus).

(** A region [io] at [0x8000_0000] with no slave behind it, then one
    slave [rom] at [0] and one master. *)
Definition calls_io_then_rom_slave
    : list (M (SoCBusHandler string) unit) :=
  [ add_region string 4 "io" (IsSoCRegion (region_at 0x80000000 0x1000));
    add_slave_s 4 (Some "rom") "rom_port"
      (Some (IsSoCRegion (region_at 0 0x2000))) false;
    add_master_s (Some "cpu") "cpu_port" None ].

Definition bus_io_then_rom_slave : SoCBusHandler string :=
  snd (run_all calls_io_then_rom_slave fresh_bus).

(** One master and two slaves, the first region answering every
    address. *)
Definition calls_one_undecoded : list (M (SoCBusHandler string) unit) :=
  [ add_slave_s 4 (Some "sram") "sram_port"
      (Some (IsSoCRegion
               (SoCRegion_init (Some 0) 0x1000 "rw" true false false)))
      false;
    add_slave_s 4 (Some "main_ram") "main_ram_port"
      (Some (IsSoCRegion (region_at 0x40000000 0x1000))) false;
    add_master_s (Some "cpu") "cpu_port" None ].

Definition bus_one_undecoded : SoCBusHandler string :=
  snd (run_all calls_one_undecoded fresh_bus).

(** Two slaves, [rom] at [0] and [ram] at [0x1000_0000], and one
    master; then the same bus after [finalize]. *)
Definition calls_two_slaves : list (M (SoCBusHandler string) unit) :=
  [ add_slave_s 4 (Some "rom") "rom_port"
      (Some (IsSoCRegion (region_at 0 0x2000))) false;
    add_slave_s 4 (Some "ram") "ram_port"
      (Some (IsSoCRegion (region_at 0x10000000 0x1000))) false;
    add_master_s (Some "cpu") "cpu_port" None ].

Definition bus_two_slaves : SoCBusHandler string :=
  snd (run_all calls_two_slaves fresh_bus).

Definition bus_two_slaves_finalized : SoCBusHandler string :=
  snd (finalize_s bus_two_slaves).

Definition loc_handler (l : dict Z) (n : Z) : SoCLocHandler :=
  mkSoCLocHandler "LOC" l n.

(** A handler of four locations holding [uart] at [0], as a module; then
    the same module after [finalize]. *)
Definition loc_module : LocModule.t :=
  LocModule.mk (loc_handler [("uart", 0)] 4) false.

Definition loc_module_finalized : LocModule.t :=
  snd (LocModule.finalize loc_module).

(** Thirty-two names, [csr0] to [csr31]. *)
Definition csr_names : list string := map (format_d "csr") (seq 0 32).
End Examples.

(** ** Further operations of the source *)

(** [log2_int(n)] of migen with its default [need_pow2=True]. *)
Definition log2_int_pow2 (n : Z) : result Z :=
  if n =? 0 then Ok 0
  else
    let r := bit_length (n - 1) in
    if negb (Z.shiftl 1 r =? n) then Raise ValueError else Ok r.

(** The predicate a decoder stands for, applied to a word address [a]:
    [lambda a: True], or
    [lambda a: a[log2_int(size):] == (origin >> log2_int(size))], the slice
    [a[k:]] being [a] without its [k] low bits. *)
Definition decoder_matches (d : decoder_fn) (a : Z) : result bool :=
  match d with
  | DecodeAlways => Ok true
  | DecodeField origin_words size_words =>
      rbind (log2_int_pow2 size_words) (fun k =>
      Ok (Z.shiftr a k =? Z.shiftr origin_words k))
  end.

(** A region whose rounded size is the one [SoCRegion.__init__] computes. *)
Definition constructed (r : SoCRegion) : Prop :=
  size_pow2 r = 2 ^ log2_int (size r).

(** The candidate that [alloc_region] builds at an origin. *)
Definition candidate_at (o sz : Z) (cached : bool) : SoCRegion :=
  SoCRegion_init (Some o) sz "rw" cached false true.

(** [region] lies in [container], as [check_region_is_in] tests it: on the
    requested sizes, both ends included. *)
Definition lies_in (region container : SoCRegion) : Prop :=
  exists ro co,
    origin region = Some ro /\ origin container = Some co /\
    co <= ro /\ ro + size region <= co + size container.

(** The property that [check_regions_overlap] decides: every entry with
    every later one. *)
Definition pairwise_clear (l : dict SoCRegion) : Prop :=
  ForallOrdPairs
    (fun x y =>
       linker (snd x) = false -> linker (snd y) = false ->
       disjoint_footprints (snd x) (snd y)) l.

Section BusCalls.
Variable Interface : Type.
Variable add_remapper :
  string -> Interface -> option Z -> Z -> result Interface.
Variable add_offset :
  string -> Interface -> option Z -> result Interface.
Variable add_adapter :
  string -> Z -> Z -> string -> string -> Interface -> string ->
  result Interface.

#[local] Abbreviation Bus := (SoCBusHandler Interface).


(** A call of one of the three adding methods. *)
Inductive bus_op : Type :=
  | OpAddRegion (fuel : nat) (name : string) (region : region_arg)
  | OpAddMaster (name : option string) (master : Interface)
      (region : option SoCRegion)
  | OpAddSlave (fuel : nat) (name : option string) (slave : Interface)
      (region : option region_arg) (strip_origin : bool).

Definition run_op (op : bus_op) : M Bus unit :=
  match op with
  | OpAddRegion fuel name region => add_region Interface fuel name region
  | OpAddMaster name master region =>
      add_master Interface add_remapper add_adapter name master region
  | OpAddSlave fuel name slave region strip_origin =>
      add_slave Interface add_offset add_adapter fuel name slave region
        strip_origin
  end.

(** The handlers that calls of the adding methods lead to from a fresh
    one, whether the calls return or raise. *)
Inductive built : Bus -> Prop :=
  | built_fresh (b : Bus) :
      masters b = [] -> slaves b = [] -> regions b = [] ->
      io_regions b = [] -> built b
  | built_op (b : Bus) (op : bus_op) :
      built b -> built (snd (run_op op b)).
End BusCalls.

Arguments OpAddRegion {Interface} fuel name region.
Arguments OpAddMaster {Interface} name master region.
Arguments OpAddSlave {Interface} fuel name slave region strip_origin.

(** The location handlers that calls of [add] lead to from a new one,
    whether the calls return or raise. *)
Inductive loc_built : SoCLocHandler -> Prop :=
  | loc_built_init (name : string) (n_locs : Z) :
      loc_built (SoCLocHandler_init name n_locs)
  | loc_built_add (self : SoCLocHandler) (name : string) (n : option Z)
      (use_loc_if_exists : bool) :
      loc_built self ->
      loc_built (snd (add name n use_loc_if_exists self)).

(** [SoCCSRHandler.address_map(name, memory)]; of [memory] only
    [name_override] is read. *)
Definition address_map (name : string) (memory : option string)
    : M SoCCSRHandler Z :=
  (let name :=
     match memory with
     | Some name_override =>
         String.append name (String.append "_" name_override)
     | None => name
     end in
   self <- get_self ;;
   match get (locs (csr_locs self)) name with
   | None => csr_add name None true
   | Some _ => ret tt
   end ;;
   self <- get_self ;;
   lift (getitem (locs (csr_locs self)) name))%method.

(** The name under which [address_map] looks a location up. *)
Definition address_map_name (name : string) (memory : option string)
    : string :=
  match memory with
  | Some name_override =>
      String.append name (String.append "_" name_override)
  | None => name
  end.

(** The bytes that [add_mac_address_constants] hands to [add_constant],
    in the order of the loop: [(mac_address >> ((5 - n) * 8)) & 0xff]. *)
Definition mac_address_byte (mac_address : Z) (n : Z) : Z :=
  Z.land (Z.shiftr mac_address ((5 - n) * 8)) 0xff.

Section MacConstants.
Variable Soc : Type.
(** [soc.add_constant(name, value, check_duplicate=...)] of the object
    handed in. *)
Variable add_constant : string -> Z -> bool -> M Soc unit.

(** The [for n in range(6)] of [add_mac_address_constants]. *)
Fixpoint add_mac_bytes (name : string) (mac_address : Z)
    (check_duplicate : bool) (ns : list Z) : M Soc unit :=
  match ns with
  | [] => ret tt
  | n :: rest =>
      (add_constant (format_d name (Z.to_nat (n + 1)))
         (mac_address_byte mac_address n) check_duplicate ;;
       add_mac_bytes name mac_address check_duplicate rest)%method
  end.

(** [add_mac_address_constants(soc, name, mac_address, check_duplicate)];
    [None] stands for the [AssertionError] of its first line. *)
Definition add_mac_address_constants (name : string) (mac_address : Z)
    (check_duplicate : bool) : option (M Soc unit) :=
  if mac_address <? 2 ^ 48 then
    Some (add_mac_bytes name mac_address check_duplicate (range 6))
  else None.
End MacConstants.

(** Big-endian value of a list of bytes. *)
Definition of_bytes (bytes : list Z) : Z :=
  fold_left (fun acc b => acc * 256 + b) bytes 0.

Module MoreExamples.
Import Examples.

(** An I/O window at [0x8000_0000], [0x1000_0000] bytes long, on a fresh
    bus. *)
Definition bus_io : SoCBusHandler string :=
  snd (add_region string 4 "io"
         (IsSoCIORegion (region_at 0x80000000 0x10000000)) fresh_bus).

(** Then a second window at [0xf000_0000]. *)
Definition bus_io2 : SoCBusHandler string :=
  snd (add_region string 4 "io2"
         (IsSoCIORegion (region_at 0xf0000000 0x10000)) bus_io).

Definition uncached_at (o sz : Z) : SoCRegion :=
  SoCRegion_init (Some o) sz "rw" false false true.

(** An adapter that refuses every interface. *)
Definition failing_adapter (std : string) (dw aw : Z) (addressing : string)
    (name : string) (i : string) (direction : string) : result string :=
  Raise KeyError.

Definition run_op_s := run_op string plain_remapper plain_offset plain_adapter.


Definition csr_handler : SoCCSRHandler :=
  mkSoCCSRHandler (mkSoCLocHandler "CSR" [("ctrl", 0); ("uart", 2)] 32)
    32 14 32 0x800 "big".


(** An I/O window, a slave with its region, the same slave once more
    (which fails), and a master. *)
Definition bus_after_ops : SoCBusHandler string :=
  let b := snd (run_op_s (OpAddRegion 4 "io"
                  (IsSoCIORegion (region_at 0x80000000 0x10000000)))
                  fresh_bus) in
  let b := snd (run_op_s (OpAddSlave 4 (Some "rom") "rom_port"
                  (Some (IsSoCRegion (region_at 0 0x2000))) false) b) in
  let b := snd (run_op_s (OpAddSlave 4 (Some "rom") "rom_port"
                  (Some (IsSoCRegion (region_at 0x4000 0x2000))) false) b) in
  snd (run_op_s (OpAddMaster (Some "cpu") "cpu_port" None) b).

(** The bus after [add_slave("rom", rom_port, SoCRegion(0, 0x2000))]. *)
Definition bus_rom_slave : SoCBusHandler string :=
  snd (add_slave_s 4 (Some "rom") "rom_port"
         (Some (IsSoCRegion (region_at 0 0x2000))) false fresh_bus).

(** A bus as the constructor returns it, with one reserved origin. *)
Definition bus_constructed : SoCBusHandler string :=
  match SoCBusHandler_init string 4 "wishbone" 32 32 None false "shared"
          true [("reserved", inl 0xe0000000)] with
  | Ok b => b
  | _ => fresh_bus
  end.
End MoreExamples.

(** * Properties *)

(** Unfolding the sequencing of methods. *)
Ltac run_method :=
  unfold bind, get_self, raise, ret, modify, lift, after in *; simpl in *.

(** A change of object that a method and its continuation both commute
    with commutes with their sequence. *)
Lemma bind_commutes {St A B} (g : St -> St) (c : M St A) (k : A -> M St B)
    (s : St) :
  (forall s, c (g s) = after g (c s)) ->
  (forall a s, k a (g s) = after g (k a s)) ->
  bind c k (g s) = after g (bind c k s).
Proof.
  intros Hc Hk. unfold bind. rewrite Hc. unfold after at 1.
  destruct (c s) as [[a|e|] s']; simpl; [apply Hk | reflexivity..].
Qed.

Lemma bind_get_self {St B} (k : St -> M St B) (s : St) :
  bind get_self k s = k s s.
Proof. reflexivity. Qed.

(** ** Dictionaries *)

Section DictFacts.
Context {V : Type}.
Implicit Types (d : dict V) (k : string) (v : V).

Lemma mem_false_not_in d k : mem k d = false <-> ~ In k (keys d).
Proof.
  unfold mem. rewrite <- not_true_iff_false, existsb_exists.
  split; intros H.
  - intros Hin. apply H. exists k. split; [exact Hin | apply String.eqb_refl].
  - intros [x [Hin Heq]]. apply String.eqb_eq in Heq. subst x. exact (H Hin).
Qed.

Lemma setitem_fresh d k v :
  mem k d = false -> setitem d k v = d ++ [(k, v)].
Proof.
  induction d as [|[k' v'] d IH]; simpl; intros H; [reflexivity|].
  unfold mem in H. simpl in H. apply orb_false_iff in H as [Hk Hd].
  rewrite Hk. f_equal. apply IH. exact Hd.
Qed.

Lemma get_in d k v : get d k = Some v -> In (k, v) d.
Proof.
  induction d as [|[k' v'] d IH]; simpl; [discriminate|].
  destruct (String.eqb k k') eqn:E.
  - apply String.eqb_eq in E. subst k'. intros [= ->]. now left.
  - intros H. right. apply IH, H.
Qed.

Lemma get_app_fresh d k v : mem k d = false -> get (d ++ [(k, v)]) k = Some v.
Proof.
  induction d as [|[k' v'] d IH]; simpl; intros H.
  - now rewrite String.eqb_refl.
  - unfold mem in H. simpl in H. apply orb_false_iff in H as [Hk Hd].
    rewrite Hk. apply IH, Hd.
Qed.

Lemma values_app d d' : values (d ++ d') = values d ++ values d'.
Proof. apply map_app. Qed.

Lemma keys_app d d' : keys (d ++ d') = keys d ++ keys d'.
Proof. apply map_app. Qed.
End DictFacts.

(** ** Location numbers *)

Lemma loc_used_In n used : loc_used n used = true <-> In n used.
Proof.
  unfold loc_used. rewrite existsb_exists. split.
  - intros [x [Hin Heq]]. apply Z.eqb_eq in Heq. now subst.
  - intros Hin. exists n. split; [exact Hin | apply Z.eqb_refl].
Qed.

Lemma loc_used_false n used : loc_used n used = false <-> ~ In n used.
Proof. rewrite <- loc_used_In. symmetry. apply not_true_iff_false. Qed.

Lemma In_range m n : In m (range n) <-> 0 <= m < n.
Proof.
  unfold range. rewrite in_map_iff. split.
  - intros [x [Hx Hin]]. apply in_seq in Hin. lia.
  - intros H. exists (Z.to_nat m). split; [lia | apply in_seq; lia].
Qed.

Lemma range_succ k : range (Z.of_nat (S k)) = range (Z.of_nat k) ++ [Z.of_nat k].
Proof.
  unfold range. rewrite !Nat2Z.id, seq_S, map_app. reflexivity.
Qed.

(** The scan over consecutive candidates stops at the least unused one. *)
Lemma first_unused_seq used len : forall start,
  match first_unused (map Z.of_nat (seq start len)) used with
  | Some n =>
      Z.of_nat start <= n < Z.of_nat (start + len) /\ ~ In n used /\
      forall m, Z.of_nat start <= m < n -> In m used
  | None =>
      forall m, Z.of_nat start <= m < Z.of_nat (start + len) -> In m used
  end.
Proof.
  induction len as [|len IH]; intros start; simpl.
  - intros m Hm. lia.
  - destruct (loc_used (Z.of_nat start) used) eqn:E; simpl.
    + apply loc_used_In in E. specialize (IH (S start)).
      destruct (first_unused (map Z.of_nat (seq (S start) len)) used) as [n|].
      * destruct IH as [Hr [Hn Hlow]]. repeat split; try lia; try exact Hn.
        intros m Hm. destruct (Z.eq_dec m (Z.of_nat start)) as [->|Hne];
          [exact E | apply Hlow; lia].
      * intros m Hm. destruct (Z.eq_dec m (Z.of_nat start)) as [->|Hne];
          [exact E | apply IH; lia].
    + apply loc_used_false in E. repeat split; try lia; exact E.
Qed.

Lemma least_unused_unique n_locs used n n' :
  least_unused n_locs used n -> least_unused n_locs used n' -> n = n'.
Proof.
  intros [Hr [Hn Hlow]] [Hr' [Hn' Hlow']].
  destruct (Z.lt_trichotomy n n') as [Hlt|[Heq|Hgt]]; [|exact Heq|].
  - exfalso. apply Hn, Hlow'. lia.
  - exfalso. apply Hn', Hlow. lia.
Qed.

Lemma alloc_cases self name :
  match alloc self name with
  | Ok n => least_unused (n_locs self) (values (locs self)) n
  | Raise e =>
      e = SoCError NotEnoughLocations /\
      forall m, 0 <= m < n_locs self -> In m (values (locs self))
  | OutOfFuel => False
  end.
Proof.
  unfold alloc, range.
  pose proof (first_unused_seq (values (locs self))
                (Z.to_nat (n_locs self)) 0) as H.
  destruct (first_unused _ _) as [n|].
  - destruct H as [Hr [Hn Hlow]]. repeat split; try lia; try exact Hn.
    intros m Hm. apply Hlow. lia.
  - split; [reflexivity|]. intros m Hm. apply H. lia.
Qed.

Lemma alloc_ok_iff self name n :
  alloc self name = Ok n <->
  least_unused (n_locs self) (values (locs self)) n.
Proof.
  pose proof (alloc_cases self name) as H. split.
  - intros E. now rewrite E in H.
  - intros Hn. destruct (alloc self name) as [n'|e|].
    + f_equal. eapply least_unused_unique; eassumption.
    + destruct H as [_ Hall]. destruct Hn as [Hr [Hnot _]].
      exfalso. apply Hnot, Hall, Hr.
    + contradiction.
Qed.

Lemma alloc_full_iff self name :
  alloc self name = Raise (SoCError NotEnoughLocations) <->
  forall m, 0 <= m < n_locs self -> In m (values (locs self)).
Proof.
  pose proof (alloc_cases self name) as H. split.
  - intros E. rewrite E in H. apply H.
  - intros Hall. destruct (alloc self name) as [n|e|].
    + destruct H as [Hr [Hnot _]]. exfalso. apply Hnot, Hall, Hr.
    + destruct H as [-> _]. reflexivity.
    + contradiction.
Qed.

(** [C7] [alloc] returns the smallest integer of [[0, n_locs)] that is not
    assigned, and two handlers with the same bound and the same set of
    assigned numbers get the same answer, whatever the names and the order
    of insertion. *)
Theorem alloc_least_unused_order_independent (self : SoCLocHandler)
    (name : string) :
  (forall n, alloc self name = Ok n <->
             least_unused (n_locs self) (values (locs self)) n) /\
  (forall (self' : SoCLocHandler) (name' : string),
     n_locs self' = n_locs self ->
     same_numbers (values (locs self)) (values (locs self')) ->
     alloc self' name' = alloc self name).
Proof.
  split; [intros n; apply alloc_ok_iff|].
  intros self' name' Hn Hsame.
  pose proof (alloc_cases self name) as H.
  destruct (alloc self name) as [n|e|]; [| |contradiction].
  - apply alloc_ok_iff. rewrite Hn.
    destruct H as [Hr [Hnot Hlow]]. repeat split; try lia.
    + intros Hin. apply Hnot, Hsame, Hin.
    + intros m Hm. apply Hsame, Hlow, Hm.
  - destruct H as [-> Hall]. apply alloc_full_iff.
    intros m Hm. apply Hsame, Hall. lia.
Qed.

Lemma alloc_least_unused_order_independent_witness :
  alloc (Examples.loc_handler [("uart", 0); ("timer0", 2)] 4) "spi"
  = alloc (Examples.loc_handler [("ethmac", 2); ("sdcard", 0)] 4) "i2c".
Proof.
  symmetry.
  apply (proj2 (alloc_least_unused_order_independent
                  (Examples.loc_handler [("ethmac", 2); ("sdcard", 0)] 4)
                  "i2c")).
  - reflexivity.
  - intros k. simpl. tauto.
Defined.

(** ** Adding a location *)

(** A name not yet known, without a number: [add] stores what [alloc]
    returns, or raises what [alloc] raises and leaves the handler alone. *)
Lemma add_unpinned self name u :
  mem name (locs self) = false ->
  add name None u self =
  match alloc self name with
  | Ok n => (Ok tt, set_locs (locs self ++ [(name, n)]) self)
  | Raise e => (Raise e, self)
  | OutOfFuel => (OutOfFuel, self)
  end.
Proof.
  intros Hfresh. unfold add. run_method. rewrite Hfresh, andb_false_r. simpl.
  destruct (alloc self name); try reflexivity.
  now rewrite setitem_fresh.
Qed.

(** A name not yet known, with a number that no name holds. *)
Lemma add_pinned self name n u :
  mem name (locs self) = false ->
  loc_used n (values (locs self)) = false ->
  add name (Some n) u self =
  if n <? 0 then (Raise (SoCError (LocShouldBePositive n)), self)
  else if n_locs self <? n then
    (Raise (SoCError (LocHigherThanMaximum n)), self)
  else (Ok tt, set_locs (locs self ++ [(name, n)]) self).
Proof.
  intros Hfresh Hfree. unfold add. run_method.
  rewrite Hfresh, andb_false_r, Hfree. simpl.
  destruct (n <? 0); [reflexivity|].
  destruct (n_locs self <? n); [reflexivity|]. simpl.
  now rewrite setitem_fresh.
Qed.

(** [C6] For a fresh name and a number that is not assigned yet, [add]
    with an explicit number [n] succeeds exactly when
    [0 <= n <= n_locs], binding the name to [n]; below [0] and above
    [n_locs] it raises the bounds error and changes nothing. *)
Theorem add_explicit_number_bounds (self : SoCLocHandler) (name : string)
    (n : Z) (use_loc_if_exists : bool) :
  mem name (locs self) = false ->
  loc_used n (values (locs self)) = false ->
  (fst (add name (Some n) use_loc_if_exists self) = Ok tt <->
   0 <= n <= n_locs self) /\
  (0 <= n <= n_locs self ->
   add name (Some n) use_loc_if_exists self =
   (Ok tt, set_locs (locs self ++ [(name, n)]) self)) /\
  (n < 0 ->
   add name (Some n) use_loc_if_exists self =
   (Raise (SoCError (LocShouldBePositive n)), self)) /\
  (0 <= n -> n_locs self < n ->
   add name (Some n) use_loc_if_exists self =
   (Raise (SoCError (LocHigherThanMaximum n)), self)).
Proof.
  intros Hfresh Hfree. rewrite (add_pinned _ _ _ _ Hfresh Hfree).
  destruct (n <? 0) eqn:Eneg; [apply Z.ltb_lt in Eneg | apply Z.ltb_ge in Eneg].
  - repeat split; simpl; try lia; try discriminate; reflexivity.
  - destruct (n_locs self <? n) eqn:Ehigh;
      [apply Z.ltb_lt in Ehigh | apply Z.ltb_ge in Ehigh];
      repeat split; simpl; try lia; try discriminate; reflexivity.
Qed.

Lemma add_explicit_number_bounds_witness :
  add "uart" (Some 4) false (Examples.loc_handler [("timer0", 1)] 4)
  = (Ok tt, Examples.loc_handler [("timer0", 1); ("uart", 4)] 4).
Proof.
  apply (proj1 (proj2 (add_explicit_number_bounds
                         (Examples.loc_handler [("timer0", 1)] 4)
                         "uart" 4 false eq_refl eq_refl))).
  simpl. lia.
Defined.

(** ** The interrupt space *)

(** [C10] While the IRQ handler is not enabled, [add] raises whatever its
    other arguments are and leaves the handler, hence its locations, as
    they were; once [enable] has been called, [add] is the [add] of the
    generic location handler applied to the locations. *)
Theorem irq_add_needs_enable (self : SoCIRQHandler) (name : string)
    (n : option Z) (use_loc_if_exists : bool) :
  (enabled self = false ->
   irq_add name n use_loc_if_exists self =
   (Raise (SoCError (IRQsNotSupported name)), self)) /\
  irq_add name n use_loc_if_exists (enable self) =
  (fst (add name n use_loc_if_exists (irq_locs self)),
   mkSoCIRQHandler (snd (add name n use_loc_if_exists (irq_locs self))) true).
Proof.
  split.
  - intros Hoff. unfold irq_add. now rewrite Hoff.
  - unfold irq_add, enable. simpl.
    now destruct (add name n use_loc_if_exists (irq_locs self)).
Qed.

Lemma irq_add_needs_enable_witness :
  irq_add "uart" (Some 3) true
    (mkSoCIRQHandler (SoCLocHandler_init "IRQ" 32) false)
  = (Raise (SoCError (IRQsNotSupported "uart")),
     mkSoCIRQHandler (SoCLocHandler_init "IRQ" 32) false).
Proof.
  apply (proj1 (irq_add_needs_enable
                  (mkSoCIRQHandler (SoCLocHandler_init "IRQ" 32) false)
                  "uart" (Some 3) true)).
  reflexivity.
Defined.

(** ** The control-register space *)

Lemma set_locs_twice l l' self : set_locs l' (set_locs l self) = set_locs l' self.
Proof. reflexivity. Qed.

(** Adding names one after the other without a number, to a handler whose
    assigned numbers are [0 .. k-1] and which has room for all of them,
    numbers them [k, k+1, ...] in order. *)
Lemma add_all_unpinned names : forall (k : nat) (self : SoCLocHandler),
  values (locs self) = range (Z.of_nat k) ->
  (forall x, In x names -> ~ In x (keys (locs self))) ->
  NoDup names ->
  Z.of_nat k + Z.of_nat (List.length names) <= n_locs self ->
  exists l',
    add_all (fun name n => add name n false)
      (map (fun x => (x, None)) names) self = (Ok tt, set_locs l' self) /\
    values l' = range (Z.of_nat (k + List.length names)) /\
    keys l' = keys (locs self) ++ names.
Proof.
  induction names as [|name names IH]; intros k self Hvals Hfresh Hnodup Hroom.
  - exists (locs self). simpl. unfold ret.
    rewrite Nat.add_0_r, app_nil_r. destruct self; auto.
  - inversion Hnodup as [|? ? Hnotin Hnodup']; subst.
    assert (Hmem : mem name (locs self) = false).
    { apply mem_false_not_in, Hfresh. now left. }
    assert (Halloc : alloc self name = Ok (Z.of_nat k)).
    { apply alloc_ok_iff. rewrite Hvals. simpl List.length in Hroom.
      repeat split; try lia.
      - rewrite In_range. lia.
      - intros m Hm. apply In_range. lia. }
    simpl. unfold bind at 1. rewrite (add_unpinned _ _ _ Hmem), Halloc.
    set (self1 := set_locs (locs self ++ [(name, Z.of_nat k)]) self).
    destruct (IH (S k) self1) as [l' [Hrun [Hv Hk]]].
    + rewrite range_succ. unfold self1, set_locs. cbn [locs].
      now rewrite values_app, Hvals.
    + intros x Hx. unfold self1. simpl. rewrite keys_app, in_app_iff. simpl.
      intros [Hin|[Heq|[]]].
      * exact (Hfresh x (or_intror Hx) Hin).
      * subst x. exact (Hnotin Hx).
    + exact Hnodup'.
    + unfold self1, set_locs. cbn [n_locs].
      change (List.length (name :: names)) with (S (List.length names)) in Hroom.
      lia.
    + exists l'. rewrite Hrun. unfold self1. rewrite set_locs_twice.
      repeat split.
      * rewrite Hv. f_equal.
        change (List.length (name :: names)) with (S (List.length names)).
        lia.
      * rewrite Hk. simpl. rewrite keys_app, <- app_assoc. reflexivity.
Qed.

(** The [add] of the control-register space is the generic [add] on its
    locations. *)
Lemma csr_add_all reserved : forall self,
  add_all (fun name n => csr_add name n false) reserved self =
  (fst (add_all (fun name n => add name n false) reserved (csr_locs self)),
   mkSoCCSRHandler
     (snd (add_all (fun name n => add name n false) reserved (csr_locs self)))
     (csr_data_width self) (csr_address_width self) (csr_alignment self)
     (csr_paging self) (csr_ordering self)).
Proof.
  induction reserved as [|[name n] rest IH]; intros self; simpl.
  - unfold ret. simpl. now destruct self.
  - unfold bind, csr_add.
    destruct (add name n false (csr_locs self)) as [[[]|e|] l]; simpl;
      try reflexivity.
    rewrite IH. reflexivity.
Qed.

(** [C8] With address width 14, paging [0x800] and alignment 32 the
    control-register space is built with [n_locs = 32]; any 32 distinct
    names reserved without a number are all accepted, and one more name
    reserved without a number is refused for lack of locations. *)
Theorem csr_thirty_two_locations (data_width : Z) (ordering : string)
    (names : list string) :
  In data_width csr_supported_data_width ->
  In ordering csr_supported_ordering ->
  NoDup names ->
  List.length names = 32%nat ->
  exists csr csr',
    SoCCSRHandler_init data_width 14 32 0x800 ordering [] = Ok csr /\
    n_locs (csr_locs csr) = 32 /\
    add_all (fun name n => csr_add name n false)
      (map (fun x => (x, None)) names) csr = (Ok tt, csr') /\
    forall (name : string) (use_loc_if_exists : bool),
      ~ In name names ->
      csr_add name None use_loc_if_exists csr' =
      (Raise (SoCError NotEnoughLocations), csr').
Proof.
  intros Hdw Hord Hnodup Hlen.
  set (csr := mkSoCCSRHandler (SoCLocHandler_init "CSR" 32) data_width 14 32
                0x800 ordering).
  destruct (add_all_unpinned names 0 (csr_locs csr)) as [l' [Hrun [Hv Hk]]];
    try (simpl; rewrite ?Hlen; try reflexivity; try lia; auto; fail).
  exists csr, (mkSoCCSRHandler (set_locs l' (csr_locs csr)) data_width 14 32
                 0x800 ordering).
  repeat split.
  - unfold SoCCSRHandler_init.
    assert (Hd : existsb (Z.eqb data_width) csr_supported_data_width = true).
    { apply existsb_exists. exists data_width. split; [exact Hdw|apply Z.eqb_refl]. }
    assert (Ho : existsb (String.eqb ordering) csr_supported_ordering = true).
    { apply existsb_exists. exists ordering.
      split; [exact Hord|apply String.eqb_refl]. }
    assert (Ha : (32 <? data_width) = false).
    { apply Z.ltb_ge. simpl in Hdw. intuition lia. }
    rewrite Hd, Ho. simpl. rewrite Ha. reflexivity.
  - rewrite csr_add_all, Hrun. reflexivity.
  - intros name u Hname. unfold csr_add. simpl.
    rewrite add_unpinned.
    + assert (Hfull : alloc (set_locs l' (SoCLocHandler_init "CSR" 32)) name
                      = Raise (SoCError NotEnoughLocations)).
      { apply alloc_full_iff. simpl. intros m Hm. rewrite Hv, Hlen.
        apply In_range. simpl. lia. }
      rewrite Hfull. reflexivity.
    + apply mem_false_not_in. simpl. rewrite Hk. simpl. exact Hname.
Qed.

Lemma csr_thirty_two_locations_witness :
  exists csr csr',
    SoCCSRHandler_init 32 14 32 0x800 "big" [] = Ok csr /\
    n_locs (csr_locs csr) = 32 /\
    add_all (fun name n => csr_add name n false)
      (map (fun x => (x, None)) Examples.csr_names) csr = (Ok tt, csr') /\
    forall (name : string) (use_loc_if_exists : bool),
      ~ In name Examples.csr_names ->
      csr_add name None use_loc_if_exists csr' =
      (Raise (SoCError NotEnoughLocations), csr').
Proof.
  apply (csr_thirty_two_locations 32 "big" Examples.csr_names).
  - simpl. auto.
  - simpl. auto.
  - vm_compute. repeat (constructor; [simpl; intuition discriminate|]).
    constructor.
  - reflexivity.
Defined.

(** ** Overlap checking *)

(** A pair of non-linker regions that the check lets through has disjoint
    footprints. *)
Lemma pair_overlaps_false_disjoint r0 r1 :
  pair_overlaps false r0 r1 = Ok false ->
  linker r0 = false -> linker r1 = false ->
  disjoint_footprints r0 r1.
Proof.
  unfold pair_overlaps, disjoint_footprints, py_add, py_ge, rbind.
  intros H L0 L1. rewrite L0, L1 in H. simpl in H.
  destruct (origin r1) as [o1|]; [|discriminate].
  destruct (origin r0) as [o0|]; [|discriminate].
  exists o0, o1. repeat split.
  destruct (o1 + size_pow2 r1 <=? o0) eqn:E0.
  - apply Z.leb_le in E0. lia.
  - destruct (o0 + size_pow2 r0 <=? o1) eqn:E1; [|discriminate].
    apply Z.leb_le in E1. lia.
Qed.

Lemma disjoint_footprints_sym r0 r1 :
  disjoint_footprints r0 r1 -> disjoint_footprints r1 r0.
Proof.
  intros [o0 [o1 [H0 [H1 H]]]]. exists o1, o0. repeat split; auto.
  intros a [Ha Hb]. apply (H a). split; assumption.
Qed.

Lemma overlap_with_none cl n0 r0 rest :
  overlap_with cl n0 r0 rest = Ok None <->
  forall n1 r1, In (n1, r1) rest -> pair_overlaps cl r0 r1 = Ok false.
Proof.
  induction rest as [|[n r] rest IH]; simpl.
  - split; [intros _ ? ? [] | reflexivity].
  - unfold rbind. destruct (pair_overlaps cl r0 r) as [[|]|e|] eqn:E.
    + split; [discriminate|]. intros H.
      specialize (H n r (or_introl eq_refl)). congruence.
    + rewrite IH. split.
      * intros H n1 r1 [[= <- <-]|Hin]; [exact E | apply (H _ _ Hin)].
      * intros H n1 r1 Hin. apply (H n1 r1). now right.
    + split; [discriminate|]. intros H.
      specialize (H n r (or_introl eq_refl)). congruence.
    + split; [discriminate|]. intros H.
      specialize (H n r (or_introl eq_refl)). congruence.
Qed.

Lemma check_none_cons cl n0 r0 rest :
  check_regions_overlap ((n0, r0) :: rest) cl = Ok None <->
  overlap_with cl n0 r0 rest = Ok None /\
  check_regions_overlap rest cl = Ok None.
Proof.
  simpl. unfold rbind.
  destruct (overlap_with cl n0 r0 rest) as [[p|]|e|];
    (split; [intros H; try discriminate; now split
            |intros [H1 H2]; try discriminate; assumption]).
Qed.

(** Appending a region that the check lets through against every region
    already there keeps the whole dictionary free of reported pairs. *)
Lemma check_none_app cl l k c :
  check_regions_overlap l cl = Ok None ->
  (forall n a, In (n, a) l -> pair_overlaps cl a c = Ok false) ->
  check_regions_overlap (l ++ [(k, c)]) cl = Ok None.
Proof.
  induction l as [|[n0 r0] l IH]; intros Hl Hc.
  - reflexivity.
  - apply check_none_cons in Hl as [Hfirst Hrest].
    change (((n0, r0) :: l) ++ [(k, c)]) with ((n0, r0) :: (l ++ [(k, c)])).
    apply check_none_cons. split.
    + apply overlap_with_none. intros n1 r1 Hin.
      apply in_app_or in Hin as [Hin|[[= <- <-]|[]]].
      * rewrite overlap_with_none in Hfirst. apply (Hfirst _ _ Hin).
      * apply (Hc n0 r0). now left.
    + apply IH; [exact Hrest|]. intros n a Hin. apply (Hc n a). now right.
Qed.

(** With no pair reported, any two entries under different names pass the
    pair test one way round or the other. *)
Lemma check_none_pairs cl l : check_regions_overlap l cl = Ok None ->
  forall n0 r0 n1 r1,
    get l n0 = Some r0 -> get l n1 = Some r1 -> n0 <> n1 ->
    pair_overlaps cl r0 r1 = Ok false \/ pair_overlaps cl r1 r0 = Ok false.
Proof.
  induction l as [|[k v] l IH]; intros Hl n0 r0 n1 r1; simpl.
  - discriminate.
  - apply check_none_cons in Hl as [Hfirst Hrest].
    rewrite overlap_with_none in Hfirst.
    destruct (String.eqb n0 k) eqn:E0; destruct (String.eqb n1 k) eqn:E1.
    + apply String.eqb_eq in E0, E1. intros _ _ Hne. congruence.
    + intros [= <-] H1 _. left. apply (Hfirst n1 r1), get_in, H1.
    + intros H0 [= <-] _. right. apply (Hfirst n0 r0), get_in, H0.
    + apply IH, Hrest.
Qed.

Lemma candidate_overlaps_false l c :
  candidate_overlaps l c = Ok false ->
  forall n a, In (n, a) l -> pair_overlaps false a c = Ok false.
Proof.
  induction l as [|[k v] l IH]; simpl; intros H n a.
  - intros [].
  - unfold rbind in H.
    destruct (pair_overlaps false v c) as [[|]|e|] eqn:E; simpl in H;
      try discriminate.
    intros [[= <- <-]|Hin]; [exact E | apply (IH H _ _ Hin)].
Qed.

(** ** Placement *)

(** What the placement loop returns is a fresh region at an origin that is
    a multiple of the rounded size and that clears every allocated
    region. *)
Lemma alloc_scan_found fuel l sz sz_pow2 cached limit : forall o c,
  alloc_scan fuel l sz sz_pow2 cached limit o = Found c ->
  exists o',
    c = SoCRegion_init (Some o') sz "rw" cached false true /\
    o' mod sz_pow2 = 0 /\ o' + sz < limit /\
    candidate_overlaps l c = Ok false.
Proof.
  induction fuel as [|fuel IH]; intros o c; simpl; [discriminate|].
  destruct (o + sz <? limit) eqn:Elim; [|discriminate].
  destruct (o mod sz_pow2 =? 0) eqn:Emod; simpl.
  - destruct (candidate_overlaps l _) as [[|]|e|] eqn:Eov; try discriminate.
    + apply IH.
    + intros [= <-]. exists o. repeat split.
      * apply Z.eqb_eq, Emod.
      * apply Z.ltb_lt, Elim.
      * exact Eov.
  - apply IH.
Qed.

Lemma alloc_search_ok fuel l sz sz_pow2 cached search c :
  alloc_search fuel l sz sz_pow2 cached search = Ok c ->
  exists o',
    c = SoCRegion_init (Some o') sz "rw" cached false true /\
    o' mod sz_pow2 = 0 /\
    candidate_overlaps l c = Ok false.
Proof.
  induction search as [|[k s] search IH]; simpl; [discriminate|].
  destruct (origin s) as [o|]; [|discriminate].
  destruct (alloc_scan fuel l sz sz_pow2 cached (o + size_pow2 s) o)
    as [c'| |e|] eqn:E; try discriminate.
  - intros [= <-]. apply alloc_scan_found in E as [o' [Hc [Hmod [_ Hov]]]].
    exists o'. auto.
  - exact IH.
Qed.

(** The loop ends: with a positive size, a search region of [n] addresses
    left is scanned in at most [n + 1] steps. *)
Lemma alloc_scan_terminates l sz cached limit : 0 < sz ->
  forall fuel o,
    (Z.to_nat (limit - o) < fuel)%nat ->
    alloc_scan fuel l sz (2 ^ log2_int sz) cached limit o <> ScanOutOfFuel.
Proof.
  intros Hsz.
  assert (Hpow : 0 < 2 ^ log2_int sz).
  { apply Z.pow_pos_nonneg; [lia|]. unfold log2_int, bit_length.
    destruct (sz =? 0); [lia|]. destruct (Z.abs (sz - 1) =? 0); [lia|].
    pose proof (Z.log2_nonneg (Z.abs (sz - 1))). lia. }
  induction fuel as [|fuel IH]; intros o Hfuel; [lia|]. simpl.
  destruct (o + sz <? limit) eqn:Elim; [|discriminate].
  apply Z.ltb_lt in Elim.
  pose proof (Z.mod_pos_bound o _ Hpow) as Hmod.
  destruct (o mod 2 ^ log2_int sz =? 0); simpl.
  - destruct (candidate_overlaps l _) as [[|]|e|] eqn:Eov; try discriminate.
    + apply IH. lia.
    + clear - Eov. exfalso. revert Eov.
      generalize (SoCRegion_init (Some o) sz "rw" cached false true).
      intros c. induction l as [|[k v] l IHl]; simpl; [discriminate|].
      unfold rbind, pair_overlaps, py_add, py_ge.
      destruct (_ && _); simpl; [exact IHl|].
      destruct (origin c); simpl; try discriminate.
      destruct (origin v); simpl; try discriminate.
      destruct (_ <=? _); simpl; [exact IHl|].
      destruct (_ <=? _); simpl; [exact IHl|discriminate].
  - apply IH. lia.
Qed.

(** ** Regions of a bus handler *)

Section BusFacts.
Variable Interface : Type.

#[local] Abbreviation Bus := (SoCBusHandler Interface).

Implicit Types (self b : Bus) (name : string) (r c : SoCRegion).

Lemma alloc_region_ok fuel self name sz cached c :
  alloc_region Interface fuel self name sz cached = Ok c ->
  exists o,
    c = SoCRegion_init (Some o) sz "rw" cached false true /\
    o mod size_pow2 c = 0 /\
    candidate_overlaps (regions self) c = Ok false.
Proof.
  unfold alloc_region. intros H.
  apply alloc_search_ok in H as [o [-> [Hmod Hov]]].
  exists o. auto.
Qed.

(** On a cached request with a positive size the placement loop needs no
    more steps than the address space has addresses. *)
Lemma alloc_region_terminates fuel self name sz :
  0 < sz ->
  (Z.to_nat (2 ^ log2_int (2 ^ address_width self - 1)) < fuel)%nat ->
  alloc_region Interface fuel self name sz true <> OutOfFuel.
Proof.
  intros Hsz Hfuel. unfold alloc_region. simpl.
  pose proof (alloc_scan_terminates (regions self) sz true
                (0 + 2 ^ log2_int (2 ^ address_width self - 1)) Hsz fuel 0)
    as H.
  destruct (alloc_scan _ _ _ _ _ _ _); try discriminate.
  exfalso. apply H; [|reflexivity].
  rewrite Z.sub_0_r, Z.add_0_l. exact Hfuel.
Qed.

(** The I/O rule raises one of its two errors, or the [TypeError] of a
    comparison with a missing origin. *)
Lemma check_region_is_io_loop_raises r ios acc e :
  check_region_is_io_loop r ios acc = Raise e -> e = TypeError.
Proof.
  revert acc. induction ios as [|[k io] ios IH]; simpl; intros acc.
  - discriminate.
  - unfold rbind, check_region_is_in.
    destruct (origin r); [|now intros [= <-]].
    destruct (origin io); [|now intros [= <-]].
    apply IH.
Qed.

Lemma check_io_rule_raises self name r e :
  check_io_rule Interface self name r = Raise e ->
  e = SoCError (RegionInIOCantBeCached name) \/
  e = SoCError (RegionNotInIOMustBeCached name) \/
  e = TypeError.
Proof.
  unfold check_io_rule, check_region_is_io, rbind.
  destruct (check_region_is_io_loop _ _ _) as [[|]|e'|] eqn:E.
  - destruct (cached r); [intros [= <-]; auto | discriminate].
  - destruct (cached r); simpl; [discriminate | intros [= <-]; auto].
  - intros [= <-]. apply check_region_is_io_loop_raises in E. auto.
  - discriminate.
Qed.

(** [add_region] on a region without origin. *)
Lemma add_region_allocated fuel name r self :
  origin r = None ->
  add_region Interface fuel name (IsSoCRegion r) self =
  if mem name (regions self) || mem name (io_regions self) then
    (Raise (SoCError (AlreadyDeclaredAsRegion name)), self)
  else
    match alloc_region Interface fuel self name (size r) (cached r) with
    | Ok c =>
        (Ok tt, set_regions Interface (regions self ++ [(name, c)]) self)
    | Raise e => (Raise e, self)
    | OutOfFuel => (OutOfFuel, self)
    end.
Proof.
  intros Ho. unfold add_region. run_method.
  destruct (mem name (regions self)) eqn:Hm; simpl; [reflexivity|].
  destruct (mem name (io_regions self)); simpl; [reflexivity|].
  rewrite Ho.
  destruct (alloc_region _ _ _ _ _ _); try reflexivity.
  now rewrite setitem_fresh.
Qed.

(** [add_region] on a region with an origin: the region is stored before
    the overlap check runs. *)
Lemma add_region_explicit fuel name r o self :
  origin r = Some o ->
  add_region Interface fuel name (IsSoCRegion r) self =
  if mem name (regions self) || mem name (io_regions self) then
    (Raise (SoCError (AlreadyDeclaredAsRegion name)), self)
  else
    match (if io_regions_check self
           then check_io_rule Interface self name r else Ok tt) with
    | Ok _ =>
        let self' :=
          set_regions Interface (regions self ++ [(name, r)]) self in
        match check_regions_overlap (regions self') false with
        | Ok (Some (n0, n1)) => (Raise (SoCError (RegionOverlap n0 n1)), self')
        | Ok None => (Ok tt, self')
        | Raise e => (Raise e, self')
        | OutOfFuel => (OutOfFuel, self')
        end
    | Raise e => (Raise e, self)
    | OutOfFuel => (OutOfFuel, self)
    end.
Proof.
  intros Ho. unfold add_region. run_method.
  destruct (mem name (regions self)) eqn:Hm; simpl; [reflexivity|].
  destruct (mem name (io_regions self)); simpl; [reflexivity|].
  rewrite Ho.
  destruct (io_regions_check self); simpl.
  - destruct (check_io_rule _ _ _ _); try reflexivity.
    rewrite (setitem_fresh _ _ _ Hm).
    destruct (check_regions_overlap _ _) as [[[n0 n1]|]|e|]; reflexivity.
  - rewrite (setitem_fresh _ _ _ Hm).
    destruct (check_regions_overlap _ _) as [[[n0 n1]|]|e|]; reflexivity.
Qed.

(** An I/O region goes to [io_regions]; [regions] is not touched. *)
Lemma add_region_io_regions fuel name r self :
  regions (snd (add_region Interface fuel name (IsSoCIORegion r) self))
  = regions self.
Proof.
  unfold add_region. run_method.
  destruct (_ || _); simpl; [reflexivity|].
  destruct (check_regions_overlap _ _) as [[[n0 n1]|]|e|]; reflexivity.
Qed.

(** The invariant behind the non-overlap property: the overlap check
    finds nothing in [regions]. *)
Lemma region_call_keeps_check b b' :
  region_call b b' ->
  check_regions_overlap (regions b) false = Ok None ->
  check_regions_overlap (regions b') false = Ok None.
Proof.
  intros [fuel name region b1 Hadd | fuel name sz cached r _]; [|auto].
  intros Hinv. destruct region as [r|r|].
  - pose proof (add_region_io_regions fuel name r b) as H.
    rewrite Hadd in H. simpl in H. now rewrite H.
  - destruct (origin r) as [o|] eqn:Ho.
    + rewrite (add_region_explicit _ _ _ _ _ Ho) in Hadd.
      destruct (_ || _); [discriminate|].
      destruct (if io_regions_check b then _ else _); try discriminate.
      cbv zeta in Hadd.
      destruct (check_regions_overlap _ _) as [[[n0 n1]|]|e|] eqn:Hc;
        try discriminate.
      injection Hadd as <-. exact Hc.
    + rewrite (add_region_allocated _ _ _ _ Ho) in Hadd.
      destruct (_ || _); [discriminate|].
      destruct (alloc_region _ _ _ _ _ _) as [c|e|] eqn:Ha;
        try discriminate.
      injection Hadd as <-. simpl.
      apply alloc_region_ok in Ha as [o [_ [_ Hov]]].
      apply check_none_app; [exact Hinv|].
      apply candidate_overlaps_false, Hov.
  - unfold add_region in Hadd. run_method.
    destruct (_ || _); discriminate.
Qed.

Lemma reachable_check b :
  reachable b -> check_regions_overlap (regions b) false = Ok None.
Proof.
  induction 1 as [b Hr _ | b b' _ IH Hcall].
  - now rewrite Hr.
  - eapply region_call_keeps_check; eassumption.
Qed.

(** [C1] After any sequence of successful [add_region] and
    [alloc_region] calls on a bus handler, any two regions of its
    [regions] dictionary that are stored under different names and are
    not linker regions have footprints [[origin, origin + size_pow2)]
    with no address in common. *)
Theorem regions_never_overlap b name0 name1 r0 r1 :
  reachable b ->
  get (regions b) name0 = Some r0 ->
  get (regions b) name1 = Some r1 ->
  name0 <> name1 ->
  linker r0 = false -> linker r1 = false ->
  disjoint_footprints r0 r1.
Proof.
  intros Hreach H0 H1 Hne L0 L1.
  destruct (check_none_pairs _ _ (reachable_check b Hreach)
              _ _ _ _ H0 H1 Hne) as [H|H].
  - apply pair_overlaps_false_disjoint; assumption.
  - apply disjoint_footprints_sym, pair_overlaps_false_disjoint; assumption.
Qed.

(** [C5] A region returned by [alloc_region], which is what [add_region]
    stores for a region given without origin, has an origin that is a
    multiple of its [size_pow2]. *)
Theorem alloc_region_aligned fuel self name sz cached c :
  alloc_region Interface fuel self name sz cached = Ok c ->
  aligned c.
Proof.
  intros H. apply alloc_region_ok in H as [o [Hc [Hmod _]]].
  exists o. split; [now rewrite Hc | exact Hmod].
Qed.

(** [C9] When [add_region] with an explicit origin fails on an overlap,
    the region is already in [regions]: the handler left behind holds
    the offending region under its name, after the regions that were
    there. *)
Theorem add_region_overlap_leaves_region fuel name r o self n0 n1 self' :
  origin r = Some o ->
  add_region Interface fuel name (IsSoCRegion r) self =
    (Raise (SoCError (RegionOverlap n0 n1)), self') ->
  mem name (regions self) = false /\
  regions self' = regions self ++ [(name, r)] /\
  get (regions self') name = Some r.
Proof.
  intros Ho H. rewrite (add_region_explicit _ _ _ _ _ Ho) in H.
  destruct (mem name (regions self)) eqn:Hm; simpl in H; [discriminate|].
  destruct (mem name (io_regions self)); simpl in H; [discriminate|].
  assert (Hstored : regions self' = regions self ++ [(name, r)]).
  { destruct (if io_regions_check self then _ else _) as [[]|e|] eqn:Eio.
    - cbv zeta in H.
      destruct (check_regions_overlap _ _) as [[[m0 m1]|]|e|];
        try discriminate;
        apply (f_equal snd) in H; simpl in H; now subst self'.
    - exfalso. destruct (io_regions_check self); [|discriminate].
      apply check_io_rule_raises in Eio.
      injection H as -> _. destruct Eio as [[=]|[[=]|[=]]].
    - discriminate. }
  repeat split; [exact Hstored|].
  rewrite Hstored. apply get_app_fresh, Hm.
Qed.
End BusFacts.

(** ** Finalize *)

Section FinalizeFacts.
Variable Interface : Type.
Variable add_remapper :
  string -> Interface -> option Z -> Z -> result Interface.
Variable add_offset :
  string -> Interface -> option Z -> result Interface.
Variable add_adapter :
  string -> Z -> Z -> string -> string -> Interface -> string ->
  result Interface.

#[local] Abbreviation Bus := (SoCBusHandler Interface).
#[local] Abbreviation add_master' :=
  (add_master Interface add_remapper add_adapter).
#[local] Abbreviation add_slave' :=
  (add_slave Interface add_offset add_adapter).

Implicit Types (self b : Bus).

(** [do_finalize] in direct style. *)
Lemma do_finalize_eq self :
  do_finalize Interface self =
  if negb (in_strings (standard self) supported_standard) then
    (Raise KeyError, self)
  else
    let cleared := set__interconnect Interface None self in
    let built i := (Ok tt, set__interconnect Interface (Some i) self) in
    if negb (len (masters self) =? 0) && negb (len (slaves self) =? 0) then
      match point_to_point_test Interface self with
      | Ok true =>
          match first_value (masters self), first_value (slaves self) with
          | Ok m, Ok s => built (InterconnectPointToPoint m s)
          | Ok _, Raise e => (Raise e, cleared)
          | Ok _, OutOfFuel => (OutOfFuel, cleared)
          | Raise e, _ => (Raise e, cleared)
          | OutOfFuel, _ => (OutOfFuel, cleared)
          end
      | Ok false =>
          match check_region_decoder_use Interface self with
          | Ok _ =>
              if String.eqb (interconnect self) "shared" then
                match slave_decoders Interface self (slaves self) with
                | Ok ds =>
                    built (InterconnectShared (values (masters self)) ds
                             (interconnect_register self) (timeout self))
                | Raise e => (Raise e, cleared)
                | OutOfFuel => (OutOfFuel, cleared)
                end
              else if String.eqb (interconnect self) "crossbar" then
                match slave_decoders Interface self (slaves self) with
                | Ok ds =>
                    built (Crossbar (values (masters self)) ds
                             (interconnect_register self) (timeout self))
                | Raise e => (Raise e, cleared)
                | OutOfFuel => (OutOfFuel, cleared)
                end
              else (Raise KeyError, cleared)
          | Raise e => (Raise e, cleared)
          | OutOfFuel => (OutOfFuel, cleared)
          end
      | Raise e => (Raise e, cleared)
      | OutOfFuel => (OutOfFuel, cleared)
      end
    else (Ok tt, cleared).
Proof.
  cbv beta iota zeta delta
    [do_finalize bind get_self raise ret modify lift].
  destruct (negb (in_strings (standard self) supported_standard));
    [reflexivity|].
  destruct (negb (len (masters self) =? 0) && negb (len (slaves self) =? 0));
    [|reflexivity].
  destruct (point_to_point_test Interface self) as [[|]|e|];
    try reflexivity.
  destruct (check_region_decoder_use Interface self); try reflexivity.
  destruct (String.eqb (interconnect self) "shared"); [reflexivity|].
  destruct (String.eqb (interconnect self) "crossbar"); reflexivity.
Qed.

(** [do_finalize] writes nothing but [_interconnect]. *)
Lemma do_finalize_writes self :
  exists i,
    snd (do_finalize Interface self) = set__interconnect Interface i self.
Proof.
  rewrite do_finalize_eq. cbv zeta.
  destruct (negb (in_strings (standard self) supported_standard)).
  { exists (_interconnect self). now destruct self. }
  destruct (negb (len (masters self) =? 0) && negb (len (slaves self) =? 0));
    [|now exists None].
  destruct (point_to_point_test Interface self) as [[|]|e|];
    try (now exists None).
  - destruct (first_value (masters self)); try (now exists None).
    destruct (first_value (slaves self)); try (now exists None).
    eexists. reflexivity.
  - destruct (check_region_decoder_use Interface self);
      try (now exists None).
    destruct (String.eqb (interconnect self) "shared").
    + destruct (slave_decoders Interface self (slaves self));
        try (now exists None).
      eexists. reflexivity.
    + destruct (String.eqb (interconnect self) "crossbar");
        [|now exists None].
      destruct (slave_decoders Interface self (slaves self));
        try (now exists None).
      eexists. reflexivity.
Qed.

(** [finalize] writes nothing but the flag and [_interconnect], and the
    flag is raised afterwards, whether [do_finalize] returned or not. *)
Lemma finalize_writes self :
  exists i, snd (finalize Interface self) = finalize_marks true i self.
Proof.
  unfold finalize. run_method.
  destruct (finalized self) eqn:Hf; simpl.
  - exists (_interconnect self). destruct self. simpl in Hf.
    now subst.
  - destruct (do_finalize_writes (set_finalized Interface true self))
      as [i Hi].
    exists i.
    destruct (do_finalize Interface (set_finalized Interface true self))
      as [[[]|e|] s]; simpl in *; subst s; reflexivity.
Qed.

(** None of the three adding methods reads the flag or the
    interconnect. *)
Lemma add_region_ignores_marks f i fuel name region self :
  add_region Interface fuel name region (finalize_marks f i self) =
  after (finalize_marks f i) (add_region Interface fuel name region self).
Proof.
  unfold add_region, after. run_method.
  destruct (_ || _); simpl; [reflexivity|].
  destruct region as [r|r|]; simpl; [| |reflexivity].
  - destruct (check_regions_overlap _ _) as [[[n0 n1]|]|e|]; reflexivity.
  - destruct (origin r); simpl.
    + destruct (io_regions_check self); simpl.
      * change (check_io_rule Interface (finalize_marks f i self) name r)
          with (check_io_rule Interface self name r).
        destruct (check_io_rule _ _ _ _); simpl; try reflexivity.
        destruct (check_regions_overlap _ _) as [[[n0 n1]|]|e|];
          reflexivity.
      * destruct (check_regions_overlap _ _) as [[[n0 n1]|]|e|];
          reflexivity.
    + change (alloc_region Interface fuel (finalize_marks f i self) name
                (size r) (cached r))
        with (alloc_region Interface fuel self name (size r) (cached r)).
      destruct (alloc_region _ _ _ _ _ _); reflexivity.
Qed.

Lemma add_master_ignores_marks f i name master region self :
  add_master' name master region (finalize_marks f i self) =
  after (finalize_marks f i) (add_master' name master region self).
Proof.
  unfold add_master, adapt, after. run_method.
  destruct (mem _ (masters self)); simpl; [reflexivity|].
  destruct region as [r|]; simpl.
  - destruct (add_remapper _ _ _ _); simpl; try reflexivity.
    destruct (add_adapter _ _ _ _ _ _ _); reflexivity.
  - destruct (add_adapter _ _ _ _ _ _ _); reflexivity.
Qed.

Lemma slave_region_ignores_marks f i fuel name region self :
  slave_region Interface fuel name region (finalize_marks f i self) =
  after (finalize_marks f i) (slave_region Interface fuel name region self).
Proof.
  destruct region as [region|]; simpl.
  - apply add_region_ignores_marks.
  - unfold after. run_method. now destruct (get (regions self) name).
Qed.

Lemma register_slave_ignores_marks f i name slave strip self :
  register_slave Interface add_offset add_adapter name slave strip
    (finalize_marks f i self) =
  after (finalize_marks f i)
    (register_slave Interface add_offset add_adapter name slave strip self).
Proof.
  unfold register_slave, adapt, after. run_method.
  destruct (mem name (slaves self)); simpl; [reflexivity|].
  destruct strip; simpl.
  - unfold rbind. destruct (getitem (regions self) name); simpl;
      try reflexivity.
    destruct (add_offset _ _ _); simpl; try reflexivity.
    destruct (add_adapter _ _ _ _ _ _ _); reflexivity.
  - destruct (add_adapter _ _ _ _ _ _ _); reflexivity.
Qed.

Lemma add_slave_ignores_marks f i fuel name slave region strip self :
  add_slave' fuel name slave region strip (finalize_marks f i self) =
  after (finalize_marks f i)
    (add_slave' fuel name slave region strip self).
Proof.
  unfold add_slave. rewrite !bind_get_self.
  change (slaves (finalize_marks f i self)) with (slaves self).
  destruct name as [nm|]; destruct region as [region|];
    try reflexivity;
    (apply bind_commutes;
     [intros s; apply slave_region_ignores_marks
     |intros [] s; apply register_slave_ignores_marks]).
Qed.
Lemma same_collections_marks f i self :
  same_collections (finalize_marks f i self) self.
Proof. repeat split. Qed.

(** ** Choice of the interconnect *)

Lemma check_region_decoder_use_cases self :
  (1 < len (regions self) /\
   exists n r, In (n, r) (regions self) /\ decode r = false) /\
  check_region_decoder_use Interface self =
    Raise (SoCError OnlyOneRegionWhenDisablingDecoder)
  \/
  ~ (1 < len (regions self) /\
     exists n r, In (n, r) (regions self) /\ decode r = false) /\
  check_region_decoder_use Interface self = Ok tt.
Proof.
  unfold check_region_decoder_use.
  destruct (1 <? len (regions self)) eqn:Elen.
  - apply Z.ltb_lt in Elen.
    destruct (existsb _ _) eqn:Eex.
    + left. split; [split; [exact Elen|] | reflexivity].
      apply existsb_exists in Eex as [r [Hin Hdec]].
      unfold values in Hin. apply in_map_iff in Hin as [[n r'] [Heq Hin]].
      simpl in Heq. subst r'. exists n, r. split; [exact Hin|].
      now destruct (decode r).
    + right. split; [|reflexivity]. intros [_ [n [r [Hin Hdec]]]].
      apply not_true_iff_false in Eex. apply Eex.
      apply existsb_exists. exists r. split.
      * unfold values. apply in_map_iff. now exists (n, r).
      * now rewrite Hdec.
  - apply Z.ltb_ge in Elen. right. split; [|reflexivity].
    intros [Hlen _]. lia.
Qed.

(** Building the decoders never reports a disabled decoder. *)
Lemma slave_decoders_raises self ss e :
  slave_decoders Interface self ss = Raise e ->
  e <> SoCError OnlyOneRegionWhenDisablingDecoder.
Proof.
  revert e. induction ss as [|[n s] ss IH]; simpl; intros e.
  - discriminate.
  - unfold rbind, getitem.
    destruct (get (regions self) n) as [r|]; [|intros [= <-]; discriminate].
    destruct (decoder r (address_width self) (data_width self))
      as [d|e'|] eqn:Ed.
    + destruct (slave_decoders Interface self ss) as [ds|e'|];
        try discriminate.
      intros [= <-]. now apply IH.
    + intros [= <-]. unfold decoder, rbind, int_math_log2 in Ed.
      destruct (origin r); [|injection Ed as <-; discriminate].
      destruct (negb _); [injection Ed as <-; discriminate|].
      destruct (_ || _); [discriminate|].
      destruct (_ <=? _); [injection Ed as <-|]; discriminate.
    + discriminate.
Qed.

(** [C4] (as amended) When [do_finalize] goes for the shared or crossbar
    interconnect, it fails on the decoder check exactly when the bus has
    more than one region and at least one region disables decoding; a
    bus with a single region, or with no region that disables decoding,
    passes the check. *)
Theorem decoder_check_fails_iff self :
  in_strings (standard self) supported_standard = true ->
  len (masters self) <> 0 ->
  len (slaves self) <> 0 ->
  point_to_point_test Interface self = Ok false ->
  (fst (do_finalize Interface self) =
     Raise (SoCError OnlyOneRegionWhenDisablingDecoder) <->
   1 < len (regions self) /\
   exists n r, In (n, r) (regions self) /\ decode r = false).
Proof.
  intros Hstd Hm Hs Hp2p. rewrite do_finalize_eq, Hstd, Hp2p. cbv zeta.
  apply Z.eqb_neq in Hm, Hs. rewrite Hm, Hs. simpl negb. cbv iota.
  simpl andb. cbv iota.
  destruct (check_region_decoder_use_cases self) as [[H ->]|[H ->]].
  - simpl. tauto.
  - split; [|intros H'; contradiction]. intros Hraise. exfalso.
    destruct (String.eqb (interconnect self) "shared").
    + destruct (slave_decoders Interface self (slaves self)) eqn:Ed;
        simpl in Hraise; try discriminate.
      injection Hraise as ->. now apply slave_decoders_raises in Ed.
    + destruct (String.eqb (interconnect self) "crossbar");
        [|discriminate].
      destruct (slave_decoders Interface self (slaves self)) eqn:Ed;
        simpl in Hraise; try discriminate.
      injection Hraise as ->. now apply slave_decoders_raises in Ed.
Qed.

(** What [do_finalize] tests before wiring point to point: one master,
    one slave, and origin [0] for the first region of [regions]. *)
Lemma do_finalize_point_to_point_iff self :
  in_strings (standard self) supported_standard = true ->
  ((exists m s,
      _interconnect (snd (do_finalize Interface self)) =
      Some (InterconnectPointToPoint m s)) <->
   len (masters self) = 1 /\ len (slaves self) = 1 /\
   exists r, first_value (regions self) = Ok r /\ origin r = Some 0).
Proof.
  intros Hstd. rewrite do_finalize_eq, Hstd. cbv zeta. simpl negb.
  cbv iota. unfold point_to_point_test. split.
  - intros [m [s H]].
    destruct (negb (len (masters self) =? 0) && negb (len (slaves self) =? 0));
      [|discriminate].
    destruct (len (masters self) =? 1) eqn:Em; simpl in H.
    + destruct (len (slaves self) =? 1) eqn:Es; simpl in H.
      * apply Z.eqb_eq in Em, Es. repeat split; try assumption.
        destruct (first_value (regions self)) as [r|e|]; simpl in H;
          try discriminate.
        exists r. split; [reflexivity|].
        destruct (origin r) as [o|].
        -- destruct (o =? 0) eqn:Eo; [apply Z.eqb_eq in Eo; now subst|].
           exfalso.
           destruct (check_region_decoder_use Interface self);
             try discriminate.
           destruct (String.eqb (interconnect self) "shared").
           ++ destruct (slave_decoders Interface self (slaves self));
                discriminate.
           ++ destruct (String.eqb (interconnect self) "crossbar");
                [|discriminate].
              destruct (slave_decoders Interface self (slaves self));
                discriminate.
        -- exfalso.
           destruct (check_region_decoder_use Interface self);
             try discriminate.
           destruct (String.eqb (interconnect self) "shared").
           ++ destruct (slave_decoders Interface self (slaves self));
                discriminate.
           ++ destruct (String.eqb (interconnect self) "crossbar");
                [|discriminate].
              destruct (slave_decoders Interface self (slaves self));
                discriminate.
      * exfalso.
        destruct (check_region_decoder_use Interface self);
          try discriminate.
        destruct (String.eqb (interconnect self) "shared").
        -- destruct (slave_decoders Interface self (slaves self));
             discriminate.
        -- destruct (String.eqb (interconnect self) "crossbar");
             [|discriminate].
           destruct (slave_decoders Interface self (slaves self));
             discriminate.
    + exfalso.
      destruct (check_region_decoder_use Interface self);
        try discriminate.
      destruct (String.eqb (interconnect self) "shared").
      * destruct (slave_decoders Interface self (slaves self));
          discriminate.
      * destruct (String.eqb (interconnect self) "crossbar");
          [|discriminate].
        destruct (slave_decoders Interface self (slaves self));
          discriminate.
  - intros [Hm [Hs [r [Hr Ho]]]]. rewrite Hm, Hs, Hr. simpl. rewrite Ho.
    simpl. unfold len in Hm, Hs.
    destruct (masters self) as [|[km m] ms]; [discriminate|].
    destruct (slaves self) as [|[ks s] ss]; [discriminate|].
    simpl. now exists m, s.
Qed.
End FinalizeFacts.

(** ** Adding after finalize *)

Lemma bind_ext {St A B} (c : M St A) (k k' : A -> M St B) (s : St) :
  (forall a s', k a s' = k' a s') -> bind c k s = bind c k' s.
Proof.
  intros Hk. unfold bind. destruct (c s) as [[a|e|] s']; auto.
Qed.

Section AfterFinalize.
Variable Interface : Type.
Variable add_remapper :
  bool -> string -> Interface -> option Z -> Z -> result Interface.
Variable add_offset :
  bool -> string -> Interface -> option Z -> result Interface.
Variable add_adapter :
  bool -> string -> Z -> Z -> string -> string -> Interface -> string ->
  result Interface.

#[local] Abbreviation Bus := (SoCBusHandler Interface).

Implicit Types (self : Bus).

(** [add_master] and [add_slave] depend on the adapters through what
    these return, and in no other way. *)
Lemma add_master_ext
    (r r' : string -> Interface -> option Z -> Z -> result Interface)
    (a a' : string -> Z -> Z -> string -> string -> Interface -> string ->
            result Interface)
    name master region self :
  (forall n i o sz, r n i o sz = r' n i o sz) ->
  (forall std dw aw ad n i d, a std dw aw ad n i d = a' std dw aw ad n i d) ->
  add_master Interface r a name master region self =
  add_master Interface r' a' name master region self.
Proof.
  intros Hr Ha. unfold add_master, adapt. rewrite !bind_get_self.
  destruct (mem _ (masters self)); [reflexivity|].
  destruct region as [reg|].
  - rewrite Hr. apply bind_ext. intros i s'. now rewrite Ha.
  - apply bind_ext. intros i s'. now rewrite Ha.
Qed.

Lemma register_slave_ext
    (o o' : string -> Interface -> option Z -> result Interface)
    (a a' : string -> Z -> Z -> string -> string -> Interface -> string ->
            result Interface)
    name slave strip self :
  (forall n i off, o n i off = o' n i off) ->
  (forall std dw aw ad n i d, a std dw aw ad n i d = a' std dw aw ad n i d) ->
  register_slave Interface o a name slave strip self =
  register_slave Interface o' a' name slave strip self.
Proof.
  intros Ho Ha. unfold register_slave, adapt. rewrite !bind_get_self.
  destruct (mem name (slaves self)); [reflexivity|].
  destruct strip.
  - unfold rbind. destruct (getitem (regions self) name) as [reg|e|].
    + rewrite Ho. apply bind_ext. intros i s'. now rewrite Ha.
    + reflexivity.
    + reflexivity.
  - apply bind_ext. intros i s'. now rewrite Ha.
Qed.

Lemma add_slave_ext
    (o o' : string -> Interface -> option Z -> result Interface)
    (a a' : string -> Z -> Z -> string -> string -> Interface -> string ->
            result Interface)
    fuel name slave region strip self :
  (forall n i off, o n i off = o' n i off) ->
  (forall std dw aw ad n i d, a std dw aw ad n i d = a' std dw aw ad n i d) ->
  add_slave Interface o a fuel name slave region strip self =
  add_slave Interface o' a' fuel name slave region strip self.
Proof.
  intros Ho Ha. unfold add_slave. rewrite !bind_get_self.
  destruct name as [nm|]; destruct region as [region|];
    try reflexivity;
    (apply bind_ext; intros [] s'; now apply register_slave_ext).
Qed.

(** What [finalize] leaves of a location handler. *)
Lemma loc_finalize_writes (m : LocModule.t) :
  snd (LocModule.finalize m) = LocModule.mk (LocModule.handler m) true.
Proof.
  unfold LocModule.finalize. run_method.
  destruct m as [h [|]]; reflexivity.
Qed.

(** [C3] (as amended) No adding method looks at whether [finalize] has
    run.  On the handlers that [finalize] leaves, which are marked
    finalized, [add_region] has the same outcome and leaves the same
    regions, I/O regions, masters and slaves as on the bus handler before
    [finalize]; the [add] of a location handler has the same outcome and
    leaves the same locations as before [finalize]; [add_master] and
    [add_slave] behave as [add_region] does whenever the adapters hand
    back on a finalized handler what they hand back on one that is
    not. *)
Theorem add_after_finalize_unchecked self res self'
    (m : LocModule.t) resm m' :
  finalize Interface self = (res, self') ->
  LocModule.finalize m = (resm, m') ->
  (finalized self' = true /\ LocModule.finalized m' = true) /\
  (forall fuel name region,
     fst (add_region Interface fuel name region self') =
     fst (add_region Interface fuel name region self) /\
     same_collections
       (snd (add_region Interface fuel name region self'))
       (snd (add_region Interface fuel name region self))) /\
  (forall name n use_loc_if_exists,
     fst (LocModule.add name n use_loc_if_exists m') =
     fst (LocModule.add name n use_loc_if_exists m) /\
     LocModule.handler (snd (LocModule.add name n use_loc_if_exists m')) =
     LocModule.handler (snd (LocModule.add name n use_loc_if_exists m))) /\
  (BusModule.adapters_ignore_finalized Interface add_remapper add_offset
     add_adapter ->
   (forall name master region,
      fst (BusModule.add_master Interface add_remapper add_adapter
             name master region self') =
      fst (BusModule.add_master Interface add_remapper add_adapter
             name master region self) /\
      same_collections
        (snd (BusModule.add_master Interface add_remapper add_adapter
                name master region self'))
        (snd (BusModule.add_master Interface add_remapper add_adapter
                name master region self))) /\
   (forall fuel name slave region strip_origin,
      fst (BusModule.add_slave Interface add_offset add_adapter
             fuel name slave region strip_origin self') =
      fst (BusModule.add_slave Interface add_offset add_adapter
             fuel name slave region strip_origin self) /\
      same_collections
        (snd (BusModule.add_slave Interface add_offset add_adapter
                fuel name slave region strip_origin self'))
        (snd (BusModule.add_slave Interface add_offset add_adapter
                fuel name slave region strip_origin self)))).
Proof.
  intros Hfin Hlfin.
  destruct (finalize_writes Interface self) as [i Hw].
  rewrite Hfin in Hw. simpl in Hw. subst self'.
  pose proof (loc_finalize_writes m) as Hm.
  rewrite Hlfin in Hm. simpl in Hm. subst m'.
  split; [split; reflexivity|].
  split; [|split].
  - intros. rewrite add_region_ignores_marks.
    split; [reflexivity | apply same_collections_marks].
  - intros. unfold LocModule.add. simpl.
    destruct (add name n use_loc_if_exists (LocModule.handler m)).
    split; reflexivity.
  - intros (Hr & Ho & Ha).
    assert (Hr' : forall f n i o sz,
              add_remapper true n i o sz = add_remapper f n i o sz)
      by (intros [|]; intros; [reflexivity | apply Hr]).
    assert (Ho' : forall f n i o,
              add_offset true n i o = add_offset f n i o)
      by (intros [|]; intros; [reflexivity | apply Ho]).
    assert (Ha' : forall f std dw aw ad n i d,
              add_adapter true std dw aw ad n i d =
              add_adapter f std dw aw ad n i d)
      by (intros [|]; intros; [reflexivity | apply Ha]).
    split; intros.
    + unfold BusModule.add_master.
      change (finalized (finalize_marks true i self)) with true.
      rewrite add_master_ignores_marks.
      rewrite (add_master_ext (add_remapper true) (add_remapper (finalized self))
                 (add_adapter true) (add_adapter (finalized self)))
        by (intros; first [apply Hr' | apply Ha']).
      split; [reflexivity | apply same_collections_marks].
    + unfold BusModule.add_slave.
      change (finalized (finalize_marks true i self)) with true.
      rewrite add_slave_ignores_marks.
      rewrite (add_slave_ext (add_offset true) (add_offset (finalized self))
                 (add_adapter true) (add_adapter (finalized self)))
        by (intros; first [apply Ho' | apply Ha']).
      split; [reflexivity | apply same_collections_marks].
Qed.
End AfterFinalize.

(** ** Scenarios *)

Import Examples.

Lemma regions_never_overlap_witness :
  disjoint_footprints (region_at 0 0x2000)
    (SoCRegion_init (Some 0x10000) 0x10000 "rw" true false true).
Proof.
  apply (regions_never_overlap string bus_rom_ram "rom" "ram").
  - apply (reach_call string bus_rom).
    + apply (reach_call string fresh_bus).
      * apply reach_fresh; reflexivity.
      * apply (call_add_region string fresh_bus 4 "rom"
                 (IsSoCRegion (region_at 0 0x2000))).
        reflexivity.
    + apply (call_add_region string bus_rom 4 "ram"
               (IsSoCRegion (region_of_size 0x10000))).
      reflexivity.
  - reflexivity.
  - reflexivity.
  - discriminate.
  - reflexivity.
  - reflexivity.
Defined.

Lemma alloc_region_aligned_witness :
  aligned (SoCRegion_init (Some 0x10000) 0x10000 "rw" true false true).
Proof.
  apply (alloc_region_aligned string 4 bus_rom "ram" 0x10000 true).
  reflexivity.
Defined.

Lemma add_region_overlap_leaves_region_witness :
  mem "boot" (regions bus_rom) = false /\
  regions (snd (add_region string 4 "boot"
                  (IsSoCRegion (region_at 0x1000 0x1000)) bus_rom))
  = regions bus_rom ++ [("boot", region_at 0x1000 0x1000)] /\
  get (regions (snd (add_region string 4 "boot"
                       (IsSoCRegion (region_at 0x1000 0x1000)) bus_rom)))
    "boot" = Some (region_at 0x1000 0x1000).
Proof.
  apply (add_region_overlap_leaves_region string 4 "boot"
           (region_at 0x1000 0x1000) 0x1000 bus_rom "rom" "boot").
  - reflexivity.
  - reflexivity.
Defined.

(** [C3] (as stated) fails: on a finalized bus [add_region] returns
    normally and the region is in [regions] afterwards; on a finalized
    location handler [add] returns normally and the name holds a
    location afterwards. *)
Lemma add_region_succeeds_after_finalize :
  finalize_s bus_two_slaves = (Ok tt, bus_two_slaves_finalized) /\
  finalized bus_two_slaves_finalized = true /\
  get (regions bus_two_slaves_finalized) "sram" = None /\
  fst (add_region string 4 "sram"
         (IsSoCRegion (region_at 0x20000000 0x1000))
         bus_two_slaves_finalized) = Ok tt /\
  get (regions (snd (add_region string 4 "sram"
                       (IsSoCRegion (region_at 0x20000000 0x1000))
                       bus_two_slaves_finalized))) "sram"
  = Some (region_at 0x20000000 0x1000) /\
  LocModule.finalize loc_module = (Ok tt, loc_module_finalized) /\
  LocModule.finalized loc_module_finalized = true /\
  get (locs (LocModule.handler loc_module_finalized)) "timer" = None /\
  fst (LocModule.add "timer" None false loc_module_finalized) = Ok tt /\
  get (locs (LocModule.handler
               (snd (LocModule.add "timer" None false
                       loc_module_finalized)))) "timer"
  = Some 1.
Proof. repeat split. Qed.

Lemma add_after_finalize_unchecked_witness :
  (finalize_s bus_two_slaves = (Ok tt, bus_two_slaves_finalized) /\
   LocModule.finalize loc_module = (Ok tt, loc_module_finalized)) /\
  (fst (add_region string 4 "sram"
          (IsSoCRegion (region_at 0x20000000 0x1000))
          bus_two_slaves_finalized) =
   fst (add_region string 4 "sram"
          (IsSoCRegion (region_at 0x20000000 0x1000)) bus_two_slaves) /\
   same_collections
     (snd (add_region string 4 "sram"
             (IsSoCRegion (region_at 0x20000000 0x1000))
             bus_two_slaves_finalized))
     (snd (add_region string 4 "sram"
             (IsSoCRegion (region_at 0x20000000 0x1000)) bus_two_slaves))) /\
  (fst (LocModule.add "timer" None false loc_module_finalized) =
   fst (LocModule.add "timer" None false loc_module) /\
   LocModule.handler
     (snd (LocModule.add "timer" None false loc_module_finalized)) =
   LocModule.handler (snd (LocModule.add "timer" None false loc_module))) /\
  (fst (BusModule.add_master string (fun _ => plain_remapper)
          (fun _ => plain_adapter) (Some "dma") "dma_port" None
          bus_two_slaves_finalized) =
   fst (BusModule.add_master string (fun _ => plain_remapper)
          (fun _ => plain_adapter) (Some "dma") "dma_port" None
          bus_two_slaves) /\
   same_collections
     (snd (BusModule.add_master string (fun _ => plain_remapper)
             (fun _ => plain_adapter) (Some "dma") "dma_port" None
             bus_two_slaves_finalized))
     (snd (BusModule.add_master string (fun _ => plain_remapper)
             (fun _ => plain_adapter) (Some "dma") "dma_port" None
             bus_two_slaves))).
Proof.
  destruct (add_after_finalize_unchecked string (fun _ => plain_remapper)
              (fun _ => plain_offset) (fun _ => plain_adapter)
              bus_two_slaves (Ok tt) bus_two_slaves_finalized
              loc_module (Ok tt) loc_module_finalized eq_refl eq_refl)
    as [_ [Hregion [Hloc Hadapted]]].
  split; [split; reflexivity|].
  split; [apply Hregion|].
  split; [apply Hloc|].
  apply Hadapted. repeat split.
Defined.

(** [C4] (as stated) fails: a bus with exactly one region that disables
    decoding, next to a second region, does not pass the check. *)
Lemma one_undecoded_region_fails_check :
  run_all calls_one_undecoded fresh_bus = (Ok tt, bus_one_undecoded) /\
  List.length (filter (fun r => negb (decode r))
                 (values (regions bus_one_undecoded))) = 1%nat /\
  point_to_point_test string bus_one_undecoded = Ok false /\
  fst (do_finalize_s bus_one_undecoded) =
    Raise (SoCError OnlyOneRegionWhenDisablingDecoder).
Proof. repeat split. Qed.

Lemma decoder_check_fails_iff_witness :
  fst (do_finalize string bus_two_slaves) =
    Raise (SoCError OnlyOneRegionWhenDisablingDecoder) <->
  1 < len (regions bus_two_slaves) /\
  exists n r, In (n, r) (regions bus_two_slaves) /\ decode r = false.
Proof.
  apply (decoder_check_fails_iff string bus_two_slaves).
  - reflexivity.
  - vm_compute. discriminate.
  - vm_compute. discriminate.
  - reflexivity.
Defined.

(** [C2] The claim against the code, at two buses built by successful
    calls.  With a region [rom] at [0] added first and the only slave
    [ram] at [0x1000_0000], [do_finalize] wires master and slave point to
    point although the region of the slave is not at origin [0].  With a
    region [io] at [0x8000_0000] added first and the only slave [rom] at
    [0], it builds the shared interconnect with a decoder although the
    region of the slave is at origin [0].  The test reads the first region
    of [regions], not the region of the slave. *)
Theorem point_to_point_reads_first_region :
  (run_all calls_rom_then_ram_slave fresh_bus
     = (Ok tt, bus_rom_then_ram_slave) /\
   keys (masters bus_rom_then_ram_slave) = ["cpu"] /\
   keys (slaves bus_rom_then_ram_slave) = ["ram"] /\
   get (regions bus_rom_then_ram_slave) "ram"
     = Some (region_at 0x10000000 0x1000) /\
   do_finalize_s bus_rom_then_ram_slave =
     (Ok tt,
      set__interconnect string
        (Some (InterconnectPointToPoint "cpu_port" "ram_port"))
        bus_rom_then_ram_slave)) /\
  (run_all calls_io_then_rom_slave fresh_bus
     = (Ok tt, bus_io_then_rom_slave) /\
   keys (masters bus_io_then_rom_slave) = ["cpu"] /\
   keys (slaves bus_io_then_rom_slave) = ["rom"] /\
   get (regions bus_io_then_rom_slave) "rom" = Some (region_at 0 0x2000) /\
   do_finalize_s bus_io_then_rom_slave =
     (Ok tt,
      set__interconnect string
        (Some (InterconnectShared ["cpu_port"]
                 [(DecodeField 0 0x800, "rom_port")] true None))
        bus_io_then_rom_slave)).
Proof. repeat split. Qed.

(** * Further properties *)

(** ** Rounding of sizes *)

Lemma log2_int_nonneg n : 0 <= log2_int n.
Proof.
  unfold log2_int, bit_length.
  destruct (n =? 0); [lia|]. destruct (Z.abs (n - 1) =? 0); [lia|].
  pose proof (Z.log2_nonneg (Z.abs (n - 1))). lia.
Qed.

Lemma log2_int_bounds n : 0 < n -> n <= 2 ^ log2_int n < 2 * n.
Proof.
  intros Hn. unfold log2_int, bit_length.
  destruct (n =? 0) eqn:E0; [apply Z.eqb_eq in E0; lia|].
  destruct (Z.abs (n - 1) =? 0) eqn:E1.
  - apply Z.eqb_eq in E1. assert (n = 1) as -> by lia. simpl. lia.
  - apply Z.eqb_neq in E1. rewrite Z.abs_eq in * by lia.
    pose proof (Z.log2_spec (n - 1) ltac:(lia)) as [Hlo Hhi].
    pose proof (Z.log2_nonneg (n - 1)) as Hnn.
    rewrite Z.pow_succ_r in Hhi by exact Hnn.
    rewrite Z.pow_add_r, Z.pow_1_r by lia. lia.
Qed.

Lemma log2_int_pow2_exact j : 0 <= j -> log2_int (2 ^ j) = j.
Proof.
  intros Hj. unfold log2_int, bit_length.
  assert (Hpos : 0 < 2 ^ j) by (apply Z.pow_pos_nonneg; lia).
  destruct (2 ^ j =? 0) eqn:E0; [apply Z.eqb_eq in E0; lia|].
  destruct (Z.eq_dec j 0) as [->|Hne]; [reflexivity|].
  assert (Hge : 2 <= 2 ^ j).
  { replace j with (Z.succ (j - 1)) by lia.
    rewrite Z.pow_succ_r by lia.
    pose proof (Z.pow_pos_nonneg 2 (j - 1) ltac:(lia) ltac:(lia)). lia. }
  rewrite Z.abs_eq by lia.
  destruct (2 ^ j - 1 =? 0) eqn:E1; [apply Z.eqb_eq in E1; lia|].
  assert (Hj2 : 2 ^ j = 2 * 2 ^ (j - 1)).
  { replace j with (Z.succ (j - 1)) at 1 by lia.
    apply Z.pow_succ_r. lia. }
  pose proof (Z.pow_pos_nonneg 2 (j - 1) ltac:(lia) ltac:(lia)) as Hp.
  rewrite (Z.log2_unique (2 ^ j - 1) (j - 1)); [lia|lia|].
  rewrite Z.pow_succ_r by lia. lia.
Qed.

Lemma constructed_pos r : constructed r -> 0 < size_pow2 r.
Proof.
  unfold constructed. intros ->.
  apply Z.pow_pos_nonneg; [lia | apply log2_int_nonneg].
Qed.

Lemma SoCRegion_init_constructed o sz m c l d :
  constructed (SoCRegion_init o sz m c l d).
Proof. reflexivity. Qed.

(** [X1] The rounded size that [SoCRegion.__init__] stores is a power of
    two, at least the requested size and less than twice it; the requested
    size is kept as given. *)
Theorem size_pow2_rounds_up origin0 sz mode0 cached0 linker0 decode0 :
  0 < sz ->
  let r := SoCRegion_init origin0 sz mode0 cached0 linker0 decode0 in
  size r = sz /\
  sz <= size_pow2 r < 2 * sz /\
  exists k, 0 <= k /\ size_pow2 r = 2 ^ k.
Proof.
  intros Hsz. simpl. split; [reflexivity|]. split.
  - apply log2_int_bounds, Hsz.
  - exists (log2_int sz). split; [apply log2_int_nonneg | reflexivity].
Qed.

Lemma size_pow2_rounds_up_witness :
  let r := SoCRegion_init (Some 0) 0x1800 "rw" true false true in
  size r = 0x1800 /\
  0x1800 <= size_pow2 r < 2 * 0x1800 /\
  exists k, 0 <= k /\ size_pow2 r = 2 ^ k.
Proof.
  apply (size_pow2_rounds_up (Some 0) 0x1800 "rw" true false true).
  reflexivity.
Defined.

(** ** Decoders *)

Lemma land_pow2_minus_1 o k : 0 <= k -> Z.land o (2 ^ k - 1) = o mod 2 ^ k.
Proof.
  intros Hk. rewrite <- Z.land_ones by exact Hk.
  now rewrite Z.ones_equiv, <- Z.sub_1_r.
Qed.

Lemma decoder_aligned_test r o :
  constructed r ->
  (Z.land o (size_pow2 r - 1) =? 0) = (o mod size_pow2 r =? 0).
Proof.
  unfold constructed. intros ->.
  now rewrite land_pow2_minus_1 by apply log2_int_nonneg.
Qed.

(** [X2] For a region as the constructor builds it, placed at [o],
    [decoder] raises the alignment error exactly when [o] is not a multiple
    of the rounded size. *)
Theorem decoder_raises_iff_misaligned r o bus_address_width bus_data_width :
  constructed r ->
  origin r = Some o ->
  (decoder r bus_address_width bus_data_width =
     Raise (SoCError OriginNotAligned) <->
   o mod size_pow2 r <> 0).
Proof.
  intros Hc Ho. unfold decoder. rewrite Ho, (decoder_aligned_test _ _ Hc).
  destruct (o mod size_pow2 r =? 0) eqn:E; simpl.
  - apply Z.eqb_eq in E. split; [|intros H; contradiction].
    destruct (negb (decode r) || _); [discriminate|].
    unfold rbind, int_math_log2.
    destruct (bus_data_width / 8 <=? 0); discriminate.
  - apply Z.eqb_neq in E. split; [intros _; exact E | reflexivity].
Qed.

Lemma decoder_raises_iff_misaligned_witness :
  decoder (Examples.region_at 0x1000 0x2000) 32 32 =
    Raise (SoCError OriginNotAligned).
Proof.
  apply (proj2 (decoder_raises_iff_misaligned
                  (Examples.region_at 0x1000 0x2000) 0x1000 32 32
                  (SoCRegion_init_constructed _ _ _ _ _ _) eq_refl)).
  vm_compute. discriminate.
Defined.

Lemma log2_int_pow2_of_pow2 j : 0 <= j -> log2_int_pow2 (2 ^ j) = Ok j.
Proof.
  intros Hj. unfold log2_int_pow2.
  assert (Hpos : 0 < 2 ^ j) by (apply Z.pow_pos_nonneg; lia).
  destruct (2 ^ j =? 0) eqn:E0; [apply Z.eqb_eq in E0; lia|].
  pose proof (log2_int_pow2_exact j Hj) as Hl. unfold log2_int in Hl.
  rewrite E0 in Hl. rewrite Hl, Z.shiftl_1_l, Z.eqb_refl. reflexivity.
Qed.

Lemma supported_data_width_words dw :
  In dw (supported_data_width) ->
  exists sh, 0 <= sh /\ dw / 8 = 2 ^ sh.
Proof.
  simpl. intros [<-|[<-|[<-|[<-|[<-|[]]]]]].
  - now exists 2.
  - now exists 3.
  - now exists 4.
  - now exists 5.
  - now exists 6.
Qed.

(** A quotient by a power of two is [m] exactly on the [m]-th block. *)
Lemma div_eqb_block a m p :
  0 < p -> (a / p =? m) = (m * p <=? a) && (a <? (m + 1) * p).
Proof.
  intros Hp.
  pose proof (Z.div_mod a p ltac:(lia)) as Hdm.
  pose proof (Z.mod_pos_bound a p Hp) as Hmb.
  destruct (a / p =? m) eqn:E.
  - apply Z.eqb_eq in E. symmetry. apply andb_true_iff. split.
    + apply Z.leb_le. nia.
    + apply Z.ltb_lt. nia.
  - apply Z.eqb_neq in E. symmetry. apply andb_false_iff.
    destruct (Z.lt_ge_cases (a / p) m) as [Hlt|Hge].
    + left. apply Z.leb_gt. nia.
    + right. apply Z.ltb_ge. nia.
Qed.

(** [X3] For a bus of a supported data width and a region as the
    constructor builds it, aligned, at least one bus word long, with
    decoding enabled and not covering the whole address space, [decoder]
    returns a predicate that holds of a word address exactly when the byte
    address of that word lies in [[origin, origin + size_pow2)]. *)
Theorem decoder_selects_footprint r o bus_address_width bus_data_width :
  constructed r ->
  origin r = Some o ->
  o mod size_pow2 r = 0 ->
  decode r = true ->
  ~ (o = 0 /\ size_pow2 r = 2 ^ bus_address_width) ->
  In bus_data_width supported_data_width ->
  bus_data_width / 8 <= size_pow2 r ->
  exists d,
    decoder r bus_address_width bus_data_width = Ok d /\
    forall a,
      decoder_matches d a =
      Ok ((o <=? a * (bus_data_width / 8)) &&
          (a * (bus_data_width / 8) <? o + size_pow2 r)).
Proof.
  intros Hc Ho Hal Hdec Hfull Hdw Hword.
  destruct (supported_data_width_words _ Hdw) as [sh [Hsh Hw]].
  pose proof (log2_int_nonneg (size r)) as Hk.
  unfold constructed in Hc. set (k := log2_int (size r)) in *.
  rewrite Hw in *. rewrite Hc in *.
  assert (Hshk : sh <= k).
  { apply (Z.pow_le_mono_r_iff 2); [lia | exact Hk | exact Hword]. }
  assert (Hsplit : 2 ^ k = 2 ^ (k - sh) * 2 ^ sh).
  { rewrite <- Z.pow_add_r by lia. f_equal. lia. }
  assert (Hpj : 0 < 2 ^ (k - sh)) by (apply Z.pow_pos_nonneg; lia).
  assert (Hpsh : 0 < 2 ^ sh) by (apply Z.pow_pos_nonneg; lia).
  assert (Hpk : 0 < 2 ^ k) by (apply Z.pow_pos_nonneg; lia).
  apply Z.mod_divide in Hal; [|lia]. destruct Hal as [m Hm].
  unfold decoder. rewrite Ho, Hc, land_pow2_minus_1 by exact Hk.
  assert (Hmod0 : o mod 2 ^ k = 0).
  { subst o. apply Z.mod_mul. lia. }
  rewrite Hmod0. simpl negb. cbv iota. rewrite Hdec. simpl negb.
  assert (Hnotfull : (o =? 0) && (2 ^ k =? 2 ^ bus_address_width) = false).
  { apply andb_false_iff.
    destruct (Z.eq_dec o 0) as [Hz|Hnz].
    - right. apply Z.eqb_neq. intros Heq. apply Hfull. split; assumption.
    - left. apply Z.eqb_neq, Hnz. }
  rewrite Hnotfull. simpl orb. cbv iota.
  unfold int_math_log2, rbind.
  assert (Hle0 : (2 ^ sh <=? 0) = false) by (apply Z.leb_gt; lia).
  rewrite Hw, Hle0, Z.log2_pow2 by exact Hsh.
  eexists. split; [reflexivity|]. intros a.
  unfold decoder_matches, rbind.
  rewrite !Z.shiftr_div_pow2 by exact Hsh.
  assert (Hsw : 2 ^ k / 2 ^ sh = 2 ^ (k - sh)).
  { rewrite Hsplit. apply Z.div_mul. lia. }
  assert (How : o / 2 ^ sh = m * 2 ^ (k - sh)).
  { subst o. rewrite Hsplit, Z.mul_assoc. apply Z.div_mul. lia. }
  rewrite Hsw, How, log2_int_pow2_of_pow2 by lia.
  rewrite !Z.shiftr_div_pow2 by lia.
  rewrite Z.div_mul by lia. f_equal.
  rewrite (div_eqb_block a m (2 ^ (k - sh)) Hpj).
  f_equal.
  - apply eq_true_iff_eq. rewrite !Z.leb_le. subst o. nia.
  - apply eq_true_iff_eq. rewrite !Z.ltb_lt. subst o. nia.
Qed.

Lemma decoder_selects_footprint_witness :
  exists d,
    decoder (Examples.region_at 0x10000000 0x1000) 32 32 = Ok d /\
    forall a,
      decoder_matches d a =
      Ok ((0x10000000 <=? a * (32 / 8)) &&
          (a * (32 / 8) <? 0x10000000 + 0x1000)).
Proof.
  apply (decoder_selects_footprint
           (Examples.region_at 0x10000000 0x1000) 0x10000000 32 32).
  - reflexivity.
  - reflexivity.
  - reflexivity.
  - reflexivity.
  - intros [H _]. discriminate H.
  - simpl. auto.
  - vm_compute. discriminate.
Defined.

(** ** What the overlap check reports *)

(** A pair that the test reports has two placed regions with an address
    in common, when both rounded sizes are positive. *)
Lemma pair_overlaps_true_common cl r0 r1 :
  pair_overlaps cl r0 r1 = Ok true ->
  0 < size_pow2 r0 -> 0 < size_pow2 r1 ->
  (cl = false -> linker r0 = false /\ linker r1 = false) /\
  exists o0 o1 a,
    origin r0 = Some o0 /\ origin r1 = Some o1 /\
    o0 <= a < o0 + size_pow2 r0 /\ o1 <= a < o1 + size_pow2 r1.
Proof.
  unfold pair_overlaps, py_add, py_ge, rbind. intros H Hs0 Hs1.
  destruct ((linker r0 || linker r1) && negb cl) eqn:El; [discriminate|].
  split.
  { intros ->. rewrite andb_true_r in El.
    apply orb_false_iff in El. exact El. }
  destruct (origin r1) as [o1|]; [|discriminate].
  destruct (origin r0) as [o0|]; [|discriminate].
  destruct (o1 + size_pow2 r1 <=? o0) eqn:E0; [discriminate|].
  destruct (o0 + size_pow2 r0 <=? o1) eqn:E1; [discriminate|].
  apply Z.leb_gt in E0, E1.
  exists o0, o1, (Z.max o0 o1). repeat split; lia.
Qed.

(** Two placed regions of positive rounded sizes that the test lets
    through, tested because no linker flag hides them, share no address;
    and conversely. *)
Lemma pair_overlaps_false_iff r0 r1 o0 o1 :
  origin r0 = Some o0 -> origin r1 = Some o1 ->
  0 < size_pow2 r0 -> 0 < size_pow2 r1 ->
  (pair_overlaps false r0 r1 = Ok false <->
   (linker r0 = false -> linker r1 = false -> disjoint_footprints r0 r1)).
Proof.
  intros H0 H1 Hs0 Hs1. split.
  - intros H L0 L1. now apply pair_overlaps_false_disjoint.
  - intros H. unfold pair_overlaps, py_add, py_ge, rbind.
    destruct (linker r0) eqn:L0; [reflexivity|].
    destruct (linker r1) eqn:L1; [reflexivity|]. simpl.
    rewrite H0, H1.
    destruct (o1 + size_pow2 r1 <=? o0) eqn:E0; [reflexivity|].
    destruct (o0 + size_pow2 r0 <=? o1) eqn:E1; [reflexivity|].
    exfalso. apply Z.leb_gt in E0, E1.
    destruct (H eq_refl eq_refl) as [p0 [p1 [Hp0 [Hp1 Hd]]]].
    rewrite H0 in Hp0. rewrite H1 in Hp1.
    injection Hp0 as <-. injection Hp1 as <-.
    apply (Hd (Z.max o0 o1)). lia.
Qed.

Lemma overlap_with_some cl n0 r0 rest p :
  overlap_with cl n0 r0 rest = Ok (Some p) ->
  exists n1 r1,
    p = (n0, n1) /\ In (n1, r1) rest /\ pair_overlaps cl r0 r1 = Ok true.
Proof.
  induction rest as [|[n r] rest IH]; simpl; [discriminate|].
  unfold rbind. destruct (pair_overlaps cl r0 r) as [[|]|e|] eqn:E;
    try discriminate.
  - intros [= <-]. exists n, r. auto.
  - intros H. destruct (IH H) as [n1 [r1 [Hp [Hin Hov]]]].
    exists n1, r1. auto.
Qed.

Lemma check_some_pair cl l n0 n1 :
  check_regions_overlap l cl = Ok (Some (n0, n1)) ->
  exists r0 r1,
    In (n0, r0) l /\ In (n1, r1) l /\ pair_overlaps cl r0 r1 = Ok true.
Proof.
  induction l as [|[k v] l IH]; simpl; [discriminate|].
  unfold rbind. destruct (overlap_with cl k v l) as [[p|]|e|] eqn:E;
    try discriminate.
  - intros [= ->].
    apply overlap_with_some in E as [m1 [r1 [[= <- <-] [Hin Hov]]]].
    exists v, r1. auto.
  - intros H. destruct (IH H) as [r0 [r1 [H0 [H1 Hov]]]].
    exists r0, r1. auto.
Qed.

(** [X4] When [check_regions_overlap] reports a pair of names, both are
    in the dictionary, with regions that have an address of their
    footprints in common; and unless linker regions are checked too,
    neither of the two is a linker region. *)
Theorem check_regions_overlap_reports_overlap regions0 check_linker n0 n1 :
  (forall n r, In (n, r) regions0 -> constructed r) ->
  check_regions_overlap regions0 check_linker = Ok (Some (n0, n1)) ->
  exists r0 r1,
    In (n0, r0) regions0 /\ In (n1, r1) regions0 /\
    (check_linker = false -> linker r0 = false /\ linker r1 = false) /\
    exists o0 o1 a,
      origin r0 = Some o0 /\ origin r1 = Some o1 /\
      o0 <= a < o0 + size_pow2 r0 /\ o1 <= a < o1 + size_pow2 r1.
Proof.
  intros Hc H. apply check_some_pair in H as [r0 [r1 [H0 [H1 Hov]]]].
  exists r0, r1. split; [exact H0|]. split; [exact H1|].
  apply (pair_overlaps_true_common _ _ _ Hov).
  - apply constructed_pos, (Hc _ _ H0).
  - apply constructed_pos, (Hc _ _ H1).
Qed.

Lemma check_regions_overlap_reports_overlap_witness :
  exists r0 r1,
    In ("rom", r0) [("rom", Examples.region_at 0 0x2000);
                    ("boot", Examples.region_at 0x1000 0x1000)] /\
    In ("boot", r1) [("rom", Examples.region_at 0 0x2000);
                     ("boot", Examples.region_at 0x1000 0x1000)] /\
    (false = false -> linker r0 = false /\ linker r1 = false) /\
    exists o0 o1 a,
      origin r0 = Some o0 /\ origin r1 = Some o1 /\
      o0 <= a < o0 + size_pow2 r0 /\ o1 <= a < o1 + size_pow2 r1.
Proof.
  apply (check_regions_overlap_reports_overlap
           [("rom", Examples.region_at 0 0x2000);
            ("boot", Examples.region_at 0x1000 0x1000)] false "rom" "boot").
  - intros n r [[= <- <-]|[[= <- <-]|[]]]; reflexivity.
  - reflexivity.
Defined.

(** [X5] On a dictionary of placed regions as the constructor builds
    them, [check_regions_overlap] returns [None] exactly when every two
    entries that are not linker regions have disjoint footprints. *)
Theorem check_regions_overlap_none_iff (regions0 : dict SoCRegion) :
  (forall n r, In (n, r) regions0 -> constructed r /\ origin r <> None) ->
  (check_regions_overlap regions0 false = Ok None <->
   pairwise_clear regions0).
Proof.
  unfold pairwise_clear.
  induction regions0 as [|[n0 r0] l IH]; intros Hwf.
  - split; [intros _; constructor | reflexivity].
  - assert (Hwf' : forall n r, In (n, r) l -> constructed r /\ origin r <> None).
    { intros n r Hin. apply (Hwf n r). now right. }
    destruct (Hwf n0 r0 (or_introl eq_refl)) as [Hc0 Ho0].
    destruct (origin r0) as [o0|] eqn:Eo0; [|contradiction].
    assert (Hpair : forall n1 r1, In (n1, r1) l ->
              (pair_overlaps false r0 r1 = Ok false <->
               (linker r0 = false -> linker r1 = false ->
                disjoint_footprints r0 r1))).
    { intros n1 r1 Hin. destruct (Hwf' _ _ Hin) as [Hc1 Ho1].
      destruct (origin r1) as [o1|] eqn:Eo1; [|contradiction].
      apply (pair_overlaps_false_iff r0 r1 o0 o1); auto using constructed_pos. }
    rewrite check_none_cons, overlap_with_none, (IH Hwf'). split.
    + intros [Hfirst Hrest]. constructor; [|exact Hrest].
      apply Forall_forall. intros [n1 r1] Hin. simpl.
      apply (Hpair n1 r1 Hin), (Hfirst n1 r1 Hin).
    + intros H. inversion H as [|x l' Hfirst Hrest]; subst.
      split; [|exact Hrest]. intros n1 r1 Hin.
      apply (Hpair n1 r1 Hin).
      rewrite Forall_forall in Hfirst. apply (Hfirst (n1, r1) Hin).
Qed.

Lemma check_regions_overlap_none_iff_witness :
  pairwise_clear [("rom", Examples.region_at 0 0x2000);
                  ("ram", Examples.region_at 0x10000 0x10000)].
Proof.
  apply (proj1 (check_regions_overlap_none_iff
                  [("rom", Examples.region_at 0 0x2000);
                   ("ram", Examples.region_at 0x10000 0x10000)]
                  ltac:(intros n r [[= <- <-]|[[= <- <-]|[]]];
                        (split; [reflexivity|discriminate])))).
  reflexivity.
Defined.

(** ** Regions: I/O windows, classification, placement *)

Lemma check_region_is_io_loop_true r ios : forall acc,
  check_region_is_io_loop r ios acc = Ok true ->
  acc = true \/ exists n io, In (n, io) ios /\ lies_in r io.
Proof.
  induction ios as [|[k io] ios IH]; simpl; intros acc.
  - intros [= ->]. now left.
  - unfold rbind, check_region_is_in.
    destruct (origin r) as [ro|] eqn:Er; [|discriminate].
    destruct (origin io) as [co|] eqn:Ec; [|discriminate].
    intros H. apply IH in H as [H|[n [io' [Hin Hl]]]].
    + destruct (negb (co <=? ro)) eqn:E1;
        [destruct (negb (ro + size r <=? co + size io)); simpl in H;
         now left|].
      destruct (negb (ro + size r <=? co + size io)) eqn:E2; simpl in H;
        [now left|].
      apply negb_false_iff in E1, E2. apply Z.leb_le in E1, E2.
      right. exists k, io. split; [now left|].
      exists ro, co. auto.
    + right. exists n, io'. split; [now right | exact Hl].
Qed.

Lemma check_region_is_io_loop_false r ios : forall acc,
  check_region_is_io_loop r ios acc = Ok false ->
  acc = false /\ forall n io, In (n, io) ios -> ~ lies_in r io.
Proof.
  induction ios as [|[k io] ios IH]; simpl; intros acc.
  - intros [= ->]. split; [reflexivity | intros ? ? []].
  - unfold rbind, check_region_is_in.
    destruct (origin r) as [ro|] eqn:Er; [|discriminate].
    destruct (origin io) as [co|] eqn:Ec; [|discriminate].
    intros H. apply IH in H as [Hacc Hrest].
    destruct (negb (co <=? ro)) eqn:E1.
    + simpl in Hacc.
      assert (Hacc' : acc = false).
      { destruct (negb (ro + size r <=? co + size io)); exact Hacc. }
      split; [exact Hacc'|]. intros n io' [[= <- <-]|Hin]; [|exact (Hrest n io' Hin)].
      intros [ro' [co' [H1 [H2 [H3 H4]]]]].
      rewrite Er in H1. rewrite Ec in H2.
      injection H1 as <-. injection H2 as <-.
      apply negb_true_iff, Z.leb_gt in E1. lia.
    + destruct (negb (ro + size r <=? co + size io)) eqn:E2;
        simpl in Hacc; [|discriminate].
      split; [exact Hacc|]. intros n io' [[= <- <-]|Hin]; [|exact (Hrest n io' Hin)].
      intros [ro' [co' [H1 [H2 [H3 H4]]]]].
      rewrite Er in H1. rewrite Ec in H2.
      injection H1 as <-. injection H2 as <-.
      apply negb_true_iff, Z.leb_gt in E2. lia.
Qed.

Section RegionFacts.
Variable Interface : Type.

#[local] Abbreviation Bus := (SoCBusHandler Interface).

Implicit Types (self b : Bus) (name : string) (r c : SoCRegion).

(** [add_region] on an I/O region: the region is stored before the
    overlap check runs. *)
Lemma add_region_io fuel name r self :
  add_region Interface fuel name (IsSoCIORegion r) self =
  if mem name (regions self) || mem name (io_regions self) then
    (Raise (SoCError (AlreadyDeclaredAsRegion name)), self)
  else
    let self' :=
      set_io_regions Interface (io_regions self ++ [(name, r)]) self in
    match check_regions_overlap (io_regions self') false with
    | Ok (Some (n0, n1)) => (Raise (SoCError (IORegionOverlap n0 n1)), self')
    | Ok None => (Ok tt, self')
    | Raise e => (Raise e, self')
    | OutOfFuel => (OutOfFuel, self')
    end.
Proof.
  unfold add_region. run_method.
  destruct (mem name (regions self)) eqn:Hm; simpl; [reflexivity|].
  destruct (mem name (io_regions self)) eqn:Hio; simpl; [reflexivity|].
  rewrite (setitem_fresh _ _ _ Hio).
  destruct (check_regions_overlap _ _) as [[[n0 n1]|]|e|]; reflexivity.
Qed.

Lemma add_region_not_a_region fuel name self :
  add_region Interface fuel name NotARegion self =
  if mem name (regions self) || mem name (io_regions self) then
    (Raise (SoCError (AlreadyDeclaredAsRegion name)), self)
  else (Raise (SoCError (NotASupportedRegion name)), self).
Proof.
  unfold add_region. run_method. now destruct (_ || _).
Qed.

Lemma region_call_keeps_io_check b b' :
  region_call b b' ->
  check_regions_overlap (io_regions b) false = Ok None ->
  check_regions_overlap (io_regions b') false = Ok None.
Proof.
  intros [fuel name region b1 Hadd | fuel name sz cached r _]; [|auto].
  intros Hinv. destruct region as [r|r|].
  - rewrite add_region_io in Hadd.
    destruct (_ || _); [discriminate|]. cbv zeta in Hadd.
    destruct (check_regions_overlap _ _) as [[[n0 n1]|]|e|] eqn:Hc;
      try discriminate.
    injection Hadd as <-. exact Hc.
  - destruct (origin r) as [o|] eqn:Ho.
    + rewrite (add_region_explicit _ _ _ _ _ _ Ho) in Hadd.
      destruct (_ || _); [discriminate|].
      destruct (if io_regions_check b then _ else _); try discriminate.
      cbv zeta in Hadd.
      destruct (check_regions_overlap _ _) as [[[n0 n1]|]|e|];
        try discriminate.
      injection Hadd as <-. exact Hinv.
    + rewrite (add_region_allocated _ _ _ _ _ Ho) in Hadd.
      destruct (_ || _); [discriminate|].
      destruct (alloc_region _ _ _ _ _ _); try discriminate.
      injection Hadd as <-. exact Hinv.
  - rewrite add_region_not_a_region in Hadd.
    destruct (_ || _); discriminate.
Qed.

Lemma reachable_io_check b :
  reachable b -> check_regions_overlap (io_regions b) false = Ok None.
Proof.
  induction 1 as [b Hr Hio | b b' _ IH Hcall].
  - now rewrite Hio.
  - apply (region_call_keeps_io_check _ _ Hcall), IH.
Qed.

(** [X6] After any sequence of successful [add_region] and [alloc_region]
    calls, any two I/O regions stored under different names that are not
    linker regions have footprints with no address in common. *)
Theorem io_regions_never_overlap b name0 name1 r0 r1 :
  reachable b ->
  get (io_regions b) name0 = Some r0 ->
  get (io_regions b) name1 = Some r1 ->
  name0 <> name1 ->
  linker r0 = false -> linker r1 = false ->
  disjoint_footprints r0 r1.
Proof.
  intros Hreach H0 H1 Hne L0 L1.
  destruct (check_none_pairs _ _ (reachable_io_check b Hreach)
              _ _ _ _ H0 H1 Hne) as [H|H].
  - apply pair_overlaps_false_disjoint; assumption.
  - apply disjoint_footprints_sym, pair_overlaps_false_disjoint; assumption.
Qed.

(** [X7] With the I/O check on, a region given with an origin is only
    accepted by [add_region] if its cached flag agrees with where it
    lies: an uncached region lies inside one of the I/O regions, and a
    cached region lies inside none of them. *)
Theorem add_region_classifies fuel name r o self self' :
  io_regions_check self = true ->
  origin r = Some o ->
  add_region Interface fuel name (IsSoCRegion r) self = (Ok tt, self') ->
  (cached r = false ->
   exists n io, In (n, io) (io_regions self) /\ lies_in r io) /\
  (cached r = true ->
   forall n io, In (n, io) (io_regions self) -> ~ lies_in r io).
Proof.
  intros Hcheck Ho H. rewrite (add_region_explicit _ _ _ _ _ _ Ho) in H.
  destruct (_ || _); [discriminate|]. rewrite Hcheck in H.
  unfold check_io_rule, check_region_is_io, rbind in H.
  destruct (check_region_is_io_loop r (io_regions self) false)
    as [[|]|e|] eqn:E; try discriminate.
  - destruct (cached r); [discriminate|]. split; [|discriminate].
    intros _. apply check_region_is_io_loop_true in E as [E|E];
      [discriminate | exact E].
  - destruct (cached r); simpl in H; [|discriminate].
    split; [discriminate|]. intros _.
    apply check_region_is_io_loop_false in E as [_ E]. exact E.
Qed.

(** [X8] The region that [alloc_region] returns has the requested size
    and cached flag, is not a linker region, and its footprint shares no
    address with that of any region of [regions] that is not a linker
    region. *)
Theorem alloc_region_clears_regions fuel self name sz cached0 c :
  alloc_region Interface fuel self name sz cached0 = Ok c ->
  (exists o, c = candidate_at o sz cached0) /\
  forall n r,
    In (n, r) (regions self) -> linker r = false ->
    disjoint_footprints r c.
Proof.
  intros H. apply alloc_region_ok in H as [o [Hc [_ Hov]]]. split.
  - exists o. exact Hc.
  - intros n r Hin Hl. apply pair_overlaps_false_disjoint.
    + apply (candidate_overlaps_false _ _ Hov n r Hin).
    + exact Hl.
    + now rewrite Hc.
Qed.
End RegionFacts.

Lemma io_regions_never_overlap_witness :
  disjoint_footprints (Examples.region_at 0x80000000 0x10000000)
    (Examples.region_at 0xf0000000 0x10000).
Proof.
  apply (io_regions_never_overlap string MoreExamples.bus_io2 "io" "io2").
  - apply (reach_call string MoreExamples.bus_io).
    + apply (reach_call string Examples.fresh_bus).
      * apply reach_fresh; reflexivity.
      * apply (call_add_region string Examples.fresh_bus 4 "io"
                 (IsSoCIORegion (Examples.region_at 0x80000000 0x10000000))).
        reflexivity.
    + apply (call_add_region string MoreExamples.bus_io 4 "io2"
               (IsSoCIORegion (Examples.region_at 0xf0000000 0x10000))).
      reflexivity.
  - reflexivity.
  - reflexivity.
  - discriminate.
  - reflexivity.
  - reflexivity.
Defined.

Lemma add_region_classifies_witness :
  (cached (MoreExamples.uncached_at 0x82000000 0x1000) = false ->
   exists n io,
     In (n, io) (io_regions MoreExamples.bus_io) /\
     lies_in (MoreExamples.uncached_at 0x82000000 0x1000) io) /\
  (cached (MoreExamples.uncached_at 0x82000000 0x1000) = true ->
   forall n io,
     In (n, io) (io_regions MoreExamples.bus_io) ->
     ~ lies_in (MoreExamples.uncached_at 0x82000000 0x1000) io).
Proof.
  apply (add_region_classifies string 4 "uart"
           (MoreExamples.uncached_at 0x82000000 0x1000) 0x82000000
           MoreExamples.bus_io
           (snd (add_region string 4 "uart"
                   (IsSoCRegion (MoreExamples.uncached_at 0x82000000 0x1000))
                   MoreExamples.bus_io))).
  - reflexivity.
  - reflexivity.
  - reflexivity.
Defined.

Lemma alloc_region_clears_regions_witness :
  (exists o,
     SoCRegion_init (Some 0x10000) 0x10000 "rw" true false true
     = candidate_at o 0x10000 true) /\
  forall n r,
    In (n, r) (regions Examples.bus_rom) -> linker r = false ->
    disjoint_footprints r
      (SoCRegion_init (Some 0x10000) 0x10000 "rw" true false true).
Proof.
  apply (alloc_region_clears_regions string 4 Examples.bus_rom "ram"
           0x10000 true).
  reflexivity.
Defined.

(** ** Placement: first fit, bounds, fuel *)

Lemma candidate_overlaps_true l c :
  candidate_overlaps l c = Ok true ->
  exists n a, In (n, a) l /\ pair_overlaps false a c = Ok true.
Proof.
  induction l as [|[k v] l IH]; simpl; [discriminate|].
  unfold rbind.
  destruct (pair_overlaps false v c) as [[|]|e|] eqn:E; simpl;
    try discriminate.
  - intros _. exists k, v. auto.
  - intros H. destruct (IH H) as [n [a [Hin Hov]]]. exists n, a. auto.
Qed.

(** Between an origin and the next multiple of [p] there is no multiple
    of [p]. *)
Lemma no_multiple_before_next o o' p :
  0 < p -> o mod p <> 0 ->
  o <= o' < o + (p - o mod p) -> o' mod p = 0 -> False.
Proof.
  intros Hp Hm Hr Ho'.
  pose proof (Z.div_mod o p ltac:(lia)) as Hd.
  pose proof (Z.mod_pos_bound o p Hp) as Hb.
  pose proof (Z.div_mod o' p ltac:(lia)) as Hd'.
  rewrite Ho' in Hd'.
  set (q := o / p) in *. set (k := o' / p) in *.
  assert (q < k) by (apply (Z.mul_lt_mono_pos_l p); lia).
  assert (k < q + 1) by (apply (Z.mul_lt_mono_pos_l p); lia).
  lia.
Qed.

Lemma no_multiple_within o o' p :
  0 < p -> o mod p = 0 -> o < o' < o + p -> o' mod p = 0 -> False.
Proof.
  intros Hp Hm Hr Ho'.
  pose proof (Z.div_mod o p ltac:(lia)) as Hd.
  pose proof (Z.div_mod o' p ltac:(lia)) as Hd'.
  rewrite Hm in Hd. rewrite Ho' in Hd'.
  set (q := o / p) in *. set (k := o' / p) in *.
  assert (q < k) by (apply (Z.mul_lt_mono_pos_l p); lia).
  assert (k < q + 1) by (apply (Z.mul_lt_mono_pos_l p); lia).
  lia.
Qed.

(** The placement loop tries every multiple of the rounded size from the
    origin of the search region upwards, and stops at the first one that
    clears the allocated regions. *)
Lemma alloc_scan_first_fit fuel l sz p cached0 limit :
  0 < sz -> sz <= p ->
  forall o c,
    alloc_scan fuel l sz p cached0 limit o = Found c ->
    exists o1,
      c = candidate_at o1 sz cached0 /\ o <= o1 /\ o1 + sz < limit /\
      forall o',
        o <= o' < o1 -> o' mod p = 0 ->
        candidate_overlaps l (candidate_at o' sz cached0) = Ok true.
Proof.
  intros Hsz Hp.
  induction fuel as [|fuel IH]; intros o c; simpl; [discriminate|].
  destruct (o + sz <? limit) eqn:Elim; [|discriminate].
  apply Z.ltb_lt in Elim.
  destruct (o mod p =? 0) eqn:Emod; simpl.
  - apply Z.eqb_eq in Emod.
    fold (candidate_at o sz cached0).
    destruct (candidate_overlaps l (candidate_at o sz cached0))
      as [[|]|e|] eqn:Eov; try discriminate.
    + intros H. apply IH in H as [o1 [Hc [Hle [Hlim Hbelow]]]].
      exists o1. repeat split; try assumption; try lia.
      intros o' Hr Ho'.
      destruct (Z.eq_dec o' o) as [->|Hne]; [exact Eov|].
      destruct (Z.lt_ge_cases o' (o + sz)) as [Hlt|Hge].
      * exfalso. apply (no_multiple_within o o' p); try assumption; lia.
      * apply Hbelow; [lia | exact Ho'].
    + intros [= <-]. exists o. repeat split; lia.
  - apply Z.eqb_neq in Emod.
    intros H. apply IH in H as [o1 [Hc [Hle [Hlim Hbelow]]]].
    pose proof (Z.mod_pos_bound o p ltac:(lia)) as Hb.
    exists o1. repeat split; try assumption; try lia.
    intros o' Hr Ho'.
    destruct (Z.lt_ge_cases o' (o + (p - o mod p))) as [Hlt|Hge].
    + exfalso. apply (no_multiple_before_next o o' p); try assumption; lia.
    + apply Hbelow; [lia | exact Ho'].
Qed.

(** More fuel does not change what the loop has already returned. *)
Lemma alloc_scan_more_fuel l sz p cached0 limit : forall fuel fuel' o,
  (fuel <= fuel')%nat ->
  alloc_scan fuel l sz p cached0 limit o <> ScanOutOfFuel ->
  alloc_scan fuel' l sz p cached0 limit o =
  alloc_scan fuel l sz p cached0 limit o.
Proof.
  induction fuel as [|fuel IH]; intros fuel' o Hle H.
  - now contradiction H.
  - destruct fuel' as [|fuel']; [lia|]. simpl in *.
    destruct (o + sz <? limit); [|reflexivity].
    destruct (negb (o mod p =? 0)).
    + apply IH; [lia | exact H].
    + destruct (candidate_overlaps l _) as [[|]|e|]; try reflexivity.
      apply IH; [lia | exact H].
Qed.

Lemma alloc_search_more_fuel l sz p cached0 search : forall fuel fuel',
  (fuel <= fuel')%nat ->
  alloc_search fuel l sz p cached0 search <> OutOfFuel ->
  alloc_search fuel' l sz p cached0 search =
  alloc_search fuel l sz p cached0 search.
Proof.
  induction search as [|[k s] search IH]; intros fuel fuel' Hle H; simpl in *;
    [reflexivity|].
  destruct (origin s) as [o|]; [|reflexivity].
  rewrite (alloc_scan_more_fuel l sz p cached0 (o + size_pow2 s) fuel fuel' o
             Hle).
  - destruct (alloc_scan fuel l sz p cached0 (o + size_pow2 s) o);
      try reflexivity.
    apply IH; assumption.
  - intros E. rewrite E in H. now apply H.
Qed.

Lemma alloc_search_within fuel l sz p cached0 search c :
  0 < sz -> sz <= p ->
  alloc_search fuel l sz p cached0 search = Ok c ->
  exists n s os o,
    In (n, s) search /\ origin s = Some os /\
    c = candidate_at o sz cached0 /\
    os <= o /\ o + sz < os + size_pow2 s.
Proof.
  intros Hsz Hp.
  induction search as [|[k s] search IH]; simpl; [discriminate|].
  destruct (origin s) as [os|] eqn:Eo; [|discriminate].
  destruct (alloc_scan fuel l sz p cached0 (os + size_pow2 s) os)
    as [c'| |e|] eqn:E; try discriminate.
  - intros [= <-].
    apply (alloc_scan_first_fit _ _ _ _ _ _ Hsz Hp) in E
      as [o [Hc [Hle [Hlim _]]]].
    exists k, s, os, o. repeat split; auto.
  - intros H. destruct (IH H) as [n [s' [os' [o [Hin Hrest]]]]].
    exists n, s', os', o. split; [now right | exact Hrest].
Qed.

Lemma main_search_limit aw :
  In aw supported_address_width -> 2 ^ log2_int (2 ^ aw - 1) = 2 ^ aw.
Proof. simpl. intros [<-|[<-|[]]]; reflexivity. Qed.

Section PlacementFacts.
Variable Interface : Type.

#[local] Abbreviation Bus := (SoCBusHandler Interface).

Implicit Types (self : Bus) (name : string) (c : SoCRegion).

(** [X9] A cached allocation of a positive size is placed first-fit: the
    region returned sits at a multiple of its rounded size, and at every
    lower multiple of the rounded size, from [0] on, the candidate meets
    the overlap test against some allocated region. *)
Theorem alloc_region_first_fit fuel self name sz c :
  0 < sz ->
  alloc_region Interface fuel self name sz true = Ok c ->
  exists o,
    c = candidate_at o sz true /\ 0 <= o /\ o mod size_pow2 c = 0 /\
    forall o',
      0 <= o' < o -> o' mod size_pow2 c = 0 ->
      exists n a,
        In (n, a) (regions self) /\
        pair_overlaps false a (candidate_at o' sz true) = Ok true.
Proof.
  intros Hsz H.
  destruct (alloc_region_ok _ _ _ _ _ _ _ H) as [o0 [Hc0 [Hmod0 _]]].
  unfold alloc_region in H. simpl in H.
  destruct (alloc_scan fuel (regions self) sz (2 ^ log2_int sz) true _ 0)
    as [c'| |e|] eqn:E; try discriminate.
  injection H as <-.
  apply alloc_scan_first_fit in E as [o [Hc [Hle [_ Hbelow]]]];
    [|exact Hsz | apply log2_int_bounds, Hsz].
  exists o. split; [exact Hc|]. split; [exact Hle|].
  assert (Ho : o0 = o) by (rewrite Hc0 in Hc; now injection Hc).
  subst o0. split; [exact Hmod0|].
  intros o' Hr Ho'. apply candidate_overlaps_true, Hbelow; [exact Hr|].
  rewrite Hc in Ho'. exact Ho'.
Qed.

(** [X10] An uncached allocation of a positive size is placed inside one
    of the I/O regions, between its origin and its origin plus its
    rounded size; with no I/O region there is nowhere to place it. *)
Theorem alloc_region_uncached_in_io fuel self name sz :
  0 < sz ->
  (forall c,
     alloc_region Interface fuel self name sz false = Ok c ->
     exists n io oi o,
       In (n, io) (io_regions self) /\ origin io = Some oi /\
       c = candidate_at o sz false /\
       oi <= o /\ o + sz < oi + size_pow2 io) /\
  (io_regions self = [] ->
   alloc_region Interface fuel self name sz false =
   Raise (SoCError NotEnoughAddressSpace)).
Proof.
  intros Hsz. split.
  - intros c H. unfold alloc_region in H. simpl in H.
    apply alloc_search_within in H;
      [exact H | exact Hsz | apply log2_int_bounds, Hsz].
  - intros Hio. unfold alloc_region. simpl. now rewrite Hio.
Qed.

(** [X11] On a bus of a supported address width, a cached allocation as
    large as the address space, or larger, fails whatever the regions;
    with no region allocated, any smaller one is placed at origin [0]. *)
Theorem alloc_region_address_space fuel self name sz :
  In (address_width self) supported_address_width ->
  (2 ^ address_width self <= sz ->
   alloc_region Interface (S fuel) self name sz true =
   Raise (SoCError NotEnoughAddressSpace)) /\
  (regions self = [] -> sz < 2 ^ address_width self ->
   alloc_region Interface (S fuel) self name sz true =
   Ok (candidate_at 0 sz true)).
Proof.
  intros Haw. split.
  - intros Hbig. unfold alloc_region.
    cbn [negb alloc_search origin size_pow2 SoCRegion_init].
    rewrite (main_search_limit _ Haw). cbn [alloc_scan].
    replace (0 + sz <? 0 + 2 ^ address_width self) with false;
      [reflexivity|].
    symmetry. apply Z.ltb_ge. lia.
  - intros Hnone Hsmall. unfold alloc_region.
    cbn [negb alloc_search origin size_pow2 SoCRegion_init].
    rewrite (main_search_limit _ Haw), Hnone. cbn [alloc_scan].
    replace (0 + sz <? 0 + 2 ^ address_width self) with true
      by (symmetry; apply Z.ltb_lt; lia).
    rewrite Z.mod_0_l; [reflexivity|].
    pose proof (log2_int_nonneg sz).
    pose proof (Z.pow_pos_nonneg 2 (log2_int sz) ltac:(lia) ltac:(lia)). lia.
Qed.

(** [X12] A cached allocation of a positive size always ends: with more
    steps than the rounded address space has addresses the loop is never
    cut short, and any larger number of steps gives the same outcome. *)
Theorem alloc_region_enough_fuel fuel self name sz :
  0 < sz ->
  2 ^ log2_int (2 ^ address_width self - 1) < Z.of_nat fuel ->
  alloc_region Interface fuel self name sz true <> OutOfFuel /\
  forall fuel',
    (fuel <= fuel')%nat ->
    alloc_region Interface fuel' self name sz true =
    alloc_region Interface fuel self name sz true.
Proof.
  intros Hsz Hfuel.
  assert (Hend : alloc_region Interface fuel self name sz true <> OutOfFuel).
  { apply alloc_region_terminates; [exact Hsz | lia]. }
  split; [exact Hend|]. intros fuel' Hle.
  unfold alloc_region in *. apply alloc_search_more_fuel; assumption.
Qed.

(** [X13] A region placed by [alloc_region] passes the alignment test of
    [decoder]: on a bus of at least 8 data bits, [decoder] returns a
    predicate for it. *)
Theorem alloc_region_decodes fuel self name sz cached0 c
    bus_address_width bus_data_width :
  alloc_region Interface fuel self name sz cached0 = Ok c ->
  8 <= bus_data_width ->
  exists d, decoder c bus_address_width bus_data_width = Ok d.
Proof.
  intros H Hdw. apply alloc_region_ok in H as [o [Hc [Hmod _]]].
  unfold decoder.
  assert (Ho : origin c = Some o) by now rewrite Hc.
  assert (Hcons : constructed c) by now rewrite Hc.
  rewrite Ho, (decoder_aligned_test _ _ Hcons), Hmod. simpl.
  destruct (negb (decode c) || _); [now eexists|].
  unfold rbind, int_math_log2.
  assert (Hw : (bus_data_width / 8 <=? 0) = false).
  { apply Z.leb_gt.
    pose proof (Z.div_le_mono 8 bus_data_width 8 ltac:(lia) Hdw) as Hq.
    rewrite Z.div_same in Hq by lia. lia. }
  rewrite Hw. now eexists.
Qed.
End PlacementFacts.

Lemma alloc_region_first_fit_witness :
  exists o,
    SoCRegion_init (Some 0x10000) 0x10000 "rw" true false true
    = candidate_at o 0x10000 true /\ 0 <= o /\
    o mod size_pow2
            (SoCRegion_init (Some 0x10000) 0x10000 "rw" true false true) = 0 /\
    forall o',
      0 <= o' < o ->
      o' mod size_pow2
              (SoCRegion_init (Some 0x10000) 0x10000 "rw" true false true)
      = 0 ->
      exists n a,
        In (n, a) (regions Examples.bus_rom) /\
        pair_overlaps false a (candidate_at o' 0x10000 true) = Ok true.
Proof.
  apply (alloc_region_first_fit string 4 Examples.bus_rom "ram" 0x10000).
  - reflexivity.
  - reflexivity.
Defined.

Lemma alloc_region_uncached_in_io_witness :
  exists n io oi o,
    In (n, io) (io_regions MoreExamples.bus_io) /\ origin io = Some oi /\
    candidate_at 0x80000000 0x1000 false = candidate_at o 0x1000 false /\
    oi <= o /\ o + 0x1000 < oi + size_pow2 io.
Proof.
  apply (proj1 (alloc_region_uncached_in_io string 4 MoreExamples.bus_io
                  "uart" 0x1000 eq_refl)).
  reflexivity.
Defined.

Lemma alloc_region_address_space_witness :
  alloc_region string 1 Examples.fresh_bus "ram" (2 ^ 32) true =
  Raise (SoCError NotEnoughAddressSpace).
Proof.
  apply (proj1 (alloc_region_address_space string 0 Examples.fresh_bus "ram"
                  (2 ^ 32) ltac:(simpl; auto))).
  simpl. lia.
Defined.

Lemma alloc_region_enough_fuel_witness :
  alloc_region string (Z.to_nat 4294967297) Examples.bus_rom "ram" 0x10000
    true <> OutOfFuel /\
  forall fuel',
    (Z.to_nat 4294967297 <= fuel')%nat ->
    alloc_region string fuel' Examples.bus_rom "ram" 0x10000 true =
    alloc_region string (Z.to_nat 4294967297) Examples.bus_rom "ram" 0x10000
      true.
Proof.
  apply (alloc_region_enough_fuel string (Z.to_nat 4294967297)
           Examples.bus_rom "ram" 0x10000).
  - reflexivity.
  - rewrite Z2Nat.id by lia. reflexivity.
Defined.

Lemma alloc_region_decodes_witness :
  exists d,
    decoder (SoCRegion_init (Some 0x10000) 0x10000 "rw" true false true)
      32 32 = Ok d.
Proof.
  apply (alloc_region_decodes string 4 Examples.bus_rom "ram" 0x10000 true
           (SoCRegion_init (Some 0x10000) 0x10000 "rw" true false true)
           32 32).
  - reflexivity.
  - lia.
Defined.

(** ** Names of regions and slaves *)

Lemma NoDup_add_name (A B : list string) (n : string) :
  NoDup (A ++ B) -> ~ In n A -> ~ In n B ->
  NoDup ((A ++ [n]) ++ B) /\ NoDup (A ++ (B ++ [n])).
Proof.
  intros Hnd HA HB.
  assert (Hcons : NoDup (n :: A ++ B)).
  { constructor; [|exact Hnd]. rewrite in_app_iff. tauto. }
  split.
  - apply (Permutation_NoDup (l := n :: A ++ B)); [|exact Hcons].
    rewrite <- app_assoc. simpl. apply Permutation_middle.
  - apply (Permutation_NoDup (l := n :: A ++ B)); [|exact Hcons].
    rewrite app_assoc. apply Permutation_cons_append.
Qed.

Lemma keys_setitem_in {V} (d : dict V) k v n :
  In n (keys (setitem d k v)) <-> n = k \/ In n (keys d).
Proof.
  induction d as [|[k' v'] d IH]; simpl.
  - intuition congruence.
  - destruct (String.eqb k k') eqn:E; simpl.
    + apply String.eqb_eq in E. subst k'. intuition congruence.
    + rewrite IH. intuition congruence.
Qed.

Lemma mem_true_in {V} (d : dict V) k : mem k d = true <-> In k (keys d).
Proof.
  unfold mem. rewrite existsb_exists. split.
  - intros [x [Hin Heq]]. apply String.eqb_eq in Heq. now subst.
  - intros Hin. exists k. split; [exact Hin | apply String.eqb_refl].
Qed.

Section NameFacts.
Variable Interface : Type.
Variable add_remapper :
  string -> Interface -> option Z -> Z -> result Interface.
Variable add_offset :
  string -> Interface -> option Z -> result Interface.
Variable add_adapter :
  string -> Z -> Z -> string -> string -> Interface -> string ->
  result Interface.

#[local] Abbreviation Bus := (SoCBusHandler Interface).
#[local] Abbreviation add_master' :=
  (add_master Interface add_remapper add_adapter).
#[local] Abbreviation add_slave' :=
  (add_slave Interface add_offset add_adapter).
#[local] Abbreviation register_slave' :=
  (register_slave Interface add_offset add_adapter).
#[local] Abbreviation built' :=
  (built Interface add_remapper add_offset add_adapter).

Implicit Types (self b : Bus) (name : string).

(** What [add_region] may have written when it is left, by return or by
    exception: nothing, or one region under a name new to both
    dictionaries, at the end of one of them. *)
Lemma add_region_writes fuel name region self :
  snd (add_region Interface fuel name region self) = self \/
  mem name (regions self) = false /\ mem name (io_regions self) = false /\
  exists r,
    snd (add_region Interface fuel name region self) =
      set_regions Interface (regions self ++ [(name, r)]) self \/
    snd (add_region Interface fuel name region self) =
      set_io_regions Interface (io_regions self ++ [(name, r)]) self.
Proof.
  destruct region as [r|r|].
  - rewrite add_region_io.
    destruct (mem name (regions self)) eqn:Hm; [now left|].
    destruct (mem name (io_regions self)) eqn:Hio; [now left|].
    right. split; [reflexivity|]. split; [reflexivity|]. exists r. right.
    simpl. destruct (check_regions_overlap _ _) as [[[n0 n1]|]|e|];
      reflexivity.
  - destruct (origin r) as [o|] eqn:Ho.
    + rewrite (add_region_explicit _ _ _ _ _ _ Ho).
      destruct (mem name (regions self)) eqn:Hm; [now left|].
      destruct (mem name (io_regions self)) eqn:Hio; [now left|]. simpl.
      destruct (if io_regions_check self then _ else _); try (now left).
      right. split; [reflexivity|]. split; [reflexivity|]. exists r. left.
      cbv zeta.
      destruct (check_regions_overlap _ _) as [[[n0 n1]|]|e|]; reflexivity.
    + rewrite (add_region_allocated _ _ _ _ _ Ho).
      destruct (mem name (regions self)) eqn:Hm; [now left|].
      destruct (mem name (io_regions self)) eqn:Hio; [now left|]. simpl.
      destruct (alloc_region _ _ _ _ _ _) as [c|e|]; try (now left).
      right. split; [reflexivity|]. split; [reflexivity|]. exists c. now left.
  - rewrite add_region_not_a_region. left. now destruct (_ || _).
Qed.

(** When [add_region] returns, the name is in one of the two
    dictionaries. *)
Lemma add_region_ok_in fuel name region self self' :
  add_region Interface fuel name region self = (Ok tt, self') ->
  In name (keys (regions self')) \/ In name (keys (io_regions self')).
Proof.
  intros H. destruct region as [r|r|].
  - rewrite add_region_io in H. destruct (_ || _); [discriminate|].
    cbv zeta in H.
    destruct (check_regions_overlap _ _) as [[[n0 n1]|]|e|];
      try discriminate.
    injection H as <-. right. simpl. rewrite keys_app, in_app_iff.
    right. now left.
  - assert (Hin : regions self' = regions self ++ [(name, r)] \/
                  exists c, regions self' = regions self ++ [(name, c)]).
    { destruct (origin r) as [o|] eqn:Ho.
      - rewrite (add_region_explicit _ _ _ _ _ _ Ho) in H.
        destruct (_ || _); [discriminate|].
        destruct (if io_regions_check self then _ else _);
          try discriminate.
        cbv zeta in H.
        destruct (check_regions_overlap _ _) as [[[n0 n1]|]|e|];
          try discriminate.
        injection H as <-. now left.
      - rewrite (add_region_allocated _ _ _ _ _ Ho) in H.
        destruct (_ || _); [discriminate|].
        destruct (alloc_region _ _ _ _ _ _) as [c|e|]; try discriminate.
        injection H as <-. right. now exists c. }
    left. destruct Hin as [->|[c ->]]; rewrite keys_app, in_app_iff;
      right; now left.
  - rewrite add_region_not_a_region in H. destruct (_ || _); discriminate.
Qed.

Lemma add_master_writes (name : option string) master region self :
  snd (add_master' name master region self) = self \/
  exists ms, snd (add_master' name master region self) =
             set_masters Interface ms self.
Proof.
  unfold add_master, adapt. run_method.
  destruct (mem _ (masters self)); simpl; [now left|].
  destruct region as [r|]; simpl.
  - destruct (add_remapper _ _ _ _); simpl; try (now left).
    destruct (add_adapter _ _ _ _ _ _ _); simpl; try (now left).
    right. now eexists.
  - destruct (add_adapter _ _ _ _ _ _ _); simpl; try (now left).
    right. now eexists.
Qed.

Lemma register_slave_writes name slave strip self :
  snd (register_slave' name slave strip self) = self \/
  exists s, snd (register_slave' name slave strip self) =
            set_slaves Interface (setitem (slaves self) name s) self.
Proof.
  unfold register_slave, adapt. run_method.
  destruct (mem name (slaves self)); simpl; [now left|].
  destruct strip; simpl.
  - unfold rbind. destruct (getitem (regions self) name); simpl;
      try (now left).
    destruct (add_offset _ _ _); simpl; try (now left).
    destruct (add_adapter _ _ _ _ _ _ _); simpl; try (now left).
    right. now eexists.
  - destruct (add_adapter _ _ _ _ _ _ _); simpl; try (now left).
    right. now eexists.
Qed.

(** The two halves of [add_slave], and the resolved name. *)
Lemma add_slave_halves fuel (name : option string) slave region strip self :
  add_slave' fuel name slave region strip self =
    (Raise (SoCError SpecifyNameOrRegion), self) /\
    name = None /\ region = None
  \/
  exists nm,
    (name = Some nm \/
     name = None /\ nm = format_d "slave" (List.length (slaves self))) /\
    add_slave' fuel name slave region strip self =
    bind (slave_region Interface fuel nm region)
      (fun _ => register_slave' nm slave strip) self.
Proof.
  unfold add_slave. rewrite bind_get_self.
  destruct name as [nm|]; destruct region as [region|].
  - right. exists nm. split; [now left | reflexivity].
  - right. exists nm. split; [now left | reflexivity].
  - right. eexists. split; [right; split; reflexivity | reflexivity].
  - left. auto.
Qed.

Lemma slave_region_writes fuel nm region self :
  snd (slave_region Interface fuel nm region self) = self \/
  mem nm (regions self) = false /\ mem nm (io_regions self) = false /\
  exists r,
    snd (slave_region Interface fuel nm region self) =
      set_regions Interface (regions self ++ [(nm, r)]) self \/
    snd (slave_region Interface fuel nm region self) =
      set_io_regions Interface (io_regions self ++ [(nm, r)]) self.
Proof.
  destruct region as [region|]; simpl.
  - apply add_region_writes.
  - left. run_method. now destruct (get (regions self) nm).
Qed.

Lemma slave_region_ok_in fuel nm region self self' :
  slave_region Interface fuel nm region self = (Ok tt, self') ->
  In nm (keys (regions self')) \/ In nm (keys (io_regions self')).
Proof.
  destruct region as [region|]; simpl.
  - apply add_region_ok_in.
  - run_method. destruct (get (regions self) nm) as [r|] eqn:E;
      [|discriminate].
    intros [= <-]. left. apply get_in in E.
    unfold keys. apply in_map_iff. now exists (nm, r).
Qed.

(** Every call leaves the names of the regions where they were, adds at
    most one name that neither dictionary had, and registers a slave only
    under a name that one of the dictionaries has. *)
Lemma run_op_names op self :
  let self' := snd (run_op Interface add_remapper add_offset add_adapter
                      op self) in
  (keys (regions self') = keys (regions self) /\
   keys (io_regions self') = keys (io_regions self)
   \/
   exists nm,
     ~ In nm (keys (regions self)) /\ ~ In nm (keys (io_regions self)) /\
     (keys (regions self') = keys (regions self) ++ [nm] /\
      keys (io_regions self') = keys (io_regions self)
      \/
      keys (regions self') = keys (regions self) /\
      keys (io_regions self') = keys (io_regions self) ++ [nm])) /\
  forall n,
    In n (keys (slaves self')) ->
    In n (keys (slaves self)) \/
    In n (keys (regions self')) \/ In n (keys (io_regions self')).
Proof.
  assert (Hregion : forall fuel nm region s,
    (snd (slave_region Interface fuel nm region s) = s \/
     mem nm (regions s) = false /\ mem nm (io_regions s) = false /\
     exists r,
       snd (slave_region Interface fuel nm region s) =
         set_regions Interface (regions s ++ [(nm, r)]) s \/
       snd (slave_region Interface fuel nm region s) =
         set_io_regions Interface (io_regions s ++ [(nm, r)]) s) ->
    let s' := snd (slave_region Interface fuel nm region s) in
    (keys (regions s') = keys (regions s) /\
     keys (io_regions s') = keys (io_regions s)
     \/
     exists nm0,
       ~ In nm0 (keys (regions s)) /\ ~ In nm0 (keys (io_regions s)) /\
       (keys (regions s') = keys (regions s) ++ [nm0] /\
        keys (io_regions s') = keys (io_regions s)
        \/
        keys (regions s') = keys (regions s) /\
        keys (io_regions s') = keys (io_regions s) ++ [nm0])) /\
    slaves s' = slaves s).
  { intros fuel nm region s [->|[Hm [Hio [r [->| ->]]]]]; simpl.
    - split; [now left | reflexivity].
    - split; [|reflexivity]. right. exists nm.
      apply mem_false_not_in in Hm, Hio.
      split; [exact Hm|]. split; [exact Hio|]. left.
      now rewrite keys_app.
    - split; [|reflexivity]. right. exists nm.
      apply mem_false_not_in in Hm, Hio.
      split; [exact Hm|]. split; [exact Hio|]. right.
      now rewrite keys_app. }
  destruct op as [fuel name region | name master region
                 | fuel name slave region strip]; simpl.
  - destruct (Hregion fuel name (Some region) self
                (add_region_writes fuel name region self)) as [Hk Hs].
    simpl in Hk, Hs. split; [exact Hk|]. intros n Hin. left.
    now rewrite Hs in Hin.
  - destruct (add_master_writes name master region self) as [->|[ms ->]];
      simpl; (split; [now left | intros n Hin; now left]).
  - destruct (add_slave_halves fuel name slave region strip self)
      as [[-> _]|[nm [_ ->]]]; simpl.
    { split; [now left | intros n Hin; now left]. }
    destruct (Hregion fuel nm region self
                (slave_region_writes fuel nm region self)) as [Hk Hs].
    cbv zeta in Hk, Hs. unfold bind.
    destruct (slave_region Interface fuel nm region self)
      as [[[]|e|] s1] eqn:E1; simpl in Hk, Hs |- *.
    + pose proof (slave_region_ok_in _ _ _ _ _ E1) as Hnm.
      destruct (register_slave_writes nm slave strip s1)
        as [->|[s ->]]; simpl.
      * split; [exact Hk|]. intros n Hin. left. now rewrite Hs in Hin.
      * split; [exact Hk|]. intros n Hin.
        apply keys_setitem_in in Hin as [->|Hin].
        -- right. exact Hnm.
        -- left. now rewrite Hs in Hin.
    + split; [exact Hk|]. intros n Hin. left. now rewrite Hs in Hin.
    + split; [exact Hk|]. intros n Hin. left. now rewrite Hs in Hin.
Qed.

(** [X14] Whatever calls of [add_region], [add_master] and [add_slave]
    were made on a fresh bus handler, and whether they returned or
    raised, no name is used twice among its regions and I/O regions. *)
Theorem region_names_unique b :
  built' b -> NoDup (keys (regions b) ++ keys (io_regions b)).
Proof.
  induction 1 as [b _ _ Hr Hio | b op _ IH].
  - rewrite Hr, Hio. constructor.
  - destruct (run_op_names op b) as [[[-> ->]|[nm [Hn [Hnio Hk]]]] _].
    + exact IH.
    + destruct (NoDup_add_name _ _ nm IH Hn Hnio) as [H1 H2].
      destruct Hk as [[-> ->]|[-> ->]]; assumption.
Qed.

(** [X15] Whatever calls of [add_region], [add_master] and [add_slave]
    were made on a fresh bus handler, every slave it holds is registered
    under the name of one of its regions or I/O regions. *)
Theorem slaves_have_regions b n :
  built' b ->
  In n (keys (slaves b)) ->
  In n (keys (regions b)) \/ In n (keys (io_regions b)).
Proof.
  intros Hb. revert n.
  induction Hb as [b _ Hs _ _ | b op _ IH]; intros n.
  - rewrite Hs. intros [].
  - destruct (run_op_names op b) as [Hk Hsl]. intros Hin.
    destruct (Hsl n Hin) as [Hold|Hnew]; [|exact Hnew].
    destruct (IH n Hold) as [Hr|Hio].
    + left. destruct Hk as [[-> _]|[nm [_ [_ [[-> _]|[-> _]]]]]];
        try exact Hr. rewrite in_app_iff. now left.
    + right. destruct Hk as [[_ ->]|[nm [_ [_ [[_ ->]|[_ ->]]]]]];
        try exact Hio. rewrite in_app_iff. now left.
Qed.
End NameFacts.

(** ** Slaves, the interconnect and the constructor *)

Section SlaveFacts.
Variable Interface : Type.
Variable add_remapper :
  string -> Interface -> option Z -> Z -> result Interface.
Variable add_offset :
  string -> Interface -> option Z -> result Interface.
Variable add_adapter :
  string -> Z -> Z -> string -> string -> Interface -> string ->
  result Interface.

#[local] Abbreviation Bus := (SoCBusHandler Interface).
#[local] Abbreviation add_slave' :=
  (add_slave Interface add_offset add_adapter).
#[local] Abbreviation register_slave' :=
  (register_slave Interface add_offset add_adapter).

Implicit Types (self b : Bus) (name : string).

Lemma add_region_duplicate fuel name region self :
  mem name (regions self) || mem name (io_regions self) = true ->
  add_region Interface fuel name region self =
  (Raise (SoCError (AlreadyDeclaredAsRegion name)), self).
Proof.
  intros H. unfold add_region. run_method. now rewrite H.
Qed.

Lemma add_slave_named_with_region fuel name slave region strip self :
  add_slave' fuel (Some name) slave (Some region) strip self =
  bind (add_region Interface fuel name region)
    (fun _ => register_slave' name slave strip) self.
Proof. reflexivity. Qed.

(** [X16] Once [add_slave] has registered a slave under a name together
    with its region, every later [add_slave] under that name that brings
    a region fails on the name of the region, and leaves the handler as
    it was. *)
Theorem add_slave_twice_fails fuel name slave region strip self self' :
  add_slave Interface add_offset add_adapter fuel (Some name) slave
    (Some region) strip self = (Ok tt, self') ->
  forall fuel' slave' region' strip',
    add_slave Interface add_offset add_adapter fuel' (Some name) slave'
      (Some region') strip' self' =
    (Raise (SoCError (AlreadyDeclaredAsRegion name)), self').
Proof.
  rewrite add_slave_named_with_region. unfold bind.
  destruct (add_region Interface fuel name region self)
    as [[[]|e|] s1] eqn:E1; try discriminate.
  intros H2 fuel' slave' region' strip'.
  pose proof (add_region_ok_in _ _ _ _ _ _ E1) as Hin.
  assert (Hsame : regions self' = regions s1 /\
                  io_regions self' = io_regions s1).
  { destruct (register_slave_writes Interface add_offset add_adapter
                name slave strip s1) as [Hw|[s Hw]];
      rewrite H2 in Hw; simpl in Hw; subst self'; split; reflexivity. }
  destruct Hsame as [Hr Hio].
  rewrite add_slave_named_with_region. unfold bind.
  rewrite add_region_duplicate; [reflexivity|].
  rewrite Hr, Hio. apply orb_true_iff.
  destruct Hin as [Hin|Hin]; [left|right]; apply mem_true_in, Hin.
Qed.

(** [X17] [add_slave] is not atomic: when the region it brings has been
    added and the adaptation of the interface then raises, the exception
    comes out with the region stored and no slave registered. *)
Theorem add_slave_keeps_region fuel name slave region self self1 e :
  add_region Interface fuel name region self = (Ok tt, self1) ->
  mem name (slaves self) = false ->
  add_adapter (standard self) (data_width self) (address_width self)
    (addressing self) name slave "s2m" = Raise e ->
  add_slave' fuel (Some name) slave (Some region) false self
    = (Raise e, self1) /\
  (In name (keys (regions self1)) \/ In name (keys (io_regions self1))) /\
  slaves self1 = slaves self.
Proof.
  intros Hadd Hfresh Hfail.
  pose proof (add_region_ok_in _ _ _ _ _ _ Hadd) as Hin.
  assert (Hcfg : standard self1 = standard self /\
                 data_width self1 = data_width self /\
                 address_width self1 = address_width self /\
                 addressing self1 = addressing self /\
                 slaves self1 = slaves self).
  { destruct (add_region_writes Interface fuel name region self)
      as [Hw|[_ [_ [r [Hw|Hw]]]]];
      rewrite Hadd in Hw; simpl in Hw; subst self1; repeat split. }
  destruct Hcfg as [Hs [Hd [Ha [Had Hsl]]]].
  split; [|split; [exact Hin | exact Hsl]].
  rewrite add_slave_named_with_region. unfold bind. rewrite Hadd.
  unfold register_slave, adapt. run_method.
  rewrite Hsl, Hfresh, Hs, Hd, Ha, Had, Hfail. reflexivity.
Qed.

Lemma slave_decoders_ok self ss ds :
  slave_decoders Interface self ss = Ok ds ->
  map snd ds = values ss /\
  Forall2
    (fun entry pair =>
       exists r,
         get (regions self) (fst entry) = Some r /\
         decoder r (address_width self) (data_width self) = Ok (fst pair))
    ss ds.
Proof.
  revert ds. induction ss as [|[n s] ss IH]; simpl; intros ds.
  - intros [= <-]. split; [reflexivity | constructor].
  - unfold rbind, getitem.
    destruct (get (regions self) n) as [r|] eqn:Er; [|discriminate].
    destruct (decoder r (address_width self) (data_width self))
      as [d|e|] eqn:Ed; try discriminate.
    destruct (slave_decoders Interface self ss) as [ds'|e|];
      try discriminate.
    intros [= <-]. destruct (IH ds' eq_refl) as [Hm Hf].
    split; [simpl; now rewrite Hm|].
    constructor; [|exact Hf]. exists r. auto.
Qed.

(** [X18] When [do_finalize] returns with a shared interconnect, the
    interconnect holds the masters in the order they were added, and one
    pair per slave in the order the slaves were added: the interface of
    the slave with the decoder of the region stored under the name of the
    slave. *)
Theorem do_finalize_shared_pairs self ms ds reg t :
  fst (do_finalize Interface self) = Ok tt ->
  _interconnect (snd (do_finalize Interface self)) =
    Some (InterconnectShared ms ds reg t) ->
  ms = values (masters self) /\
  map snd ds = values (slaves self) /\
  Forall2
    (fun entry pair =>
       exists r,
         get (regions self) (fst entry) = Some r /\
         decoder r (address_width self) (data_width self) = Ok (fst pair))
    (slaves self) ds.
Proof.
  rewrite do_finalize_eq. cbv zeta.
  destruct (negb (in_strings (standard self) supported_standard));
    [discriminate|].
  destruct (negb (len (masters self) =? 0) && negb (len (slaves self) =? 0));
    [|simpl; discriminate].
  destruct (point_to_point_test Interface self) as [[|]|e|];
    try discriminate.
  - destruct (first_value (masters self)); try discriminate.
    destruct (first_value (slaves self)); simpl; discriminate.
  - destruct (check_region_decoder_use Interface self); try discriminate.
    destruct (String.eqb (interconnect self) "shared").
    + destruct (slave_decoders Interface self (slaves self)) as [ds'|e|]
        eqn:Ed; try discriminate.
      simpl. intros _ [= <- <- <- <-].
      split; [reflexivity|]. apply slave_decoders_ok, Ed.
    + destruct (String.eqb (interconnect self) "crossbar");
        [|discriminate].
      destruct (slave_decoders Interface self (slaves self));
        simpl; discriminate.
Qed.

(** [X19] Without a master, or without a slave, [do_finalize] builds no
    interconnect and returns, whatever the regions are. *)
Theorem do_finalize_nothing_to_connect self :
  in_strings (standard self) supported_standard = true ->
  masters self = [] \/ slaves self = [] ->
  do_finalize Interface self =
  (Ok tt, set__interconnect Interface None self).
Proof.
  intros Hstd Hempty. rewrite do_finalize_eq, Hstd. cbv zeta. simpl negb.
  cbv iota.
  replace (negb (len (masters self) =? 0) && negb (len (slaves self) =? 0))
    with false; [reflexivity|].
  destruct Hempty as [-> | ->]; simpl; [reflexivity|].
  now rewrite andb_false_r.
Qed.

Lemma add_reserved_regions_reachable fuel reserved : forall b b',
  add_reserved_regions Interface fuel reserved b = (Ok tt, b') ->
  reachable b -> reachable b'.
Proof.
  induction reserved as [|[name v] rest IH]; intros b b'; simpl.
  - unfold ret. now intros [= <-].
  - unfold bind.
    destruct (add_region Interface fuel name (reserved_region v) b)
      as [[[]|e|] b1] eqn:E; try discriminate.
    intros H Hb. apply (IH _ _ H).
    apply (reach_call Interface b); [exact Hb|].
    apply (call_add_region Interface b fuel name (reserved_region v)).
    exact E.
Qed.

(** [X20] A bus handler that the constructor returns has a supported
    standard and supported widths, is word-addressed exactly when it is a
    Wishbone bus, has no master and no slave, and its regions are the
    outcome of successful [add_region] calls on the reserved regions, a
    reserved integer counting as the origin of a region of [0x1000000]
    bytes. *)
Theorem SoCBusHandler_init_valid fuel standard0 data_width0 address_width0
    timeout0 bursting0 interconnect0 interconnect_register0 reserved b :
  SoCBusHandler_init Interface fuel standard0 data_width0 address_width0
    timeout0 bursting0 interconnect0 interconnect_register0 reserved = Ok b ->
  In standard0 supported_standard /\
  In data_width0 supported_data_width /\
  In address_width0 supported_address_width /\
  standard b = standard0 /\ data_width b = data_width0 /\
  address_width b = address_width0 /\
  (addressing b = "word" <-> standard0 = "wishbone") /\
  masters b = [] /\ slaves b = [] /\ finalized b = false /\
  reachable b /\
  add_reserved_regions Interface fuel reserved
    (mkSoCBusHandler standard0 data_width0 address_width0
       (addressing b) bursting0 interconnect0 interconnect_register0
       [] [] [] [] true timeout0 false None) = (Ok tt, b).
Proof.
  unfold SoCBusHandler_init.
  destruct (in_strings standard0 supported_standard) eqn:Es;
    [|discriminate].
  destruct (in_ints data_width0 supported_data_width) eqn:Ed;
    [|discriminate].
  destruct (in_ints address_width0 supported_address_width) eqn:Ea;
    [|discriminate].
  simpl negb. cbv iota.
  set (b0 := mkSoCBusHandler standard0 data_width0 address_width0 _ _ _ _
               _ _ _ _ _ _ _ _).
  destruct (add_reserved_regions Interface fuel reserved b0)
    as [[[]|e|] b1] eqn:E; try discriminate.
  intros [= <-].
  assert (Hreach : reachable b1).
  { apply (add_reserved_regions_reachable _ _ _ _ E).
    apply reach_fresh; reflexivity. }
  assert (Hframe : forall l (x y : Bus),
            add_reserved_regions Interface fuel l x = (Ok tt, y) ->
            standard y = standard x /\ data_width y = data_width x /\
            address_width y = address_width x /\
            addressing y = addressing x /\ masters y = masters x /\
            slaves y = slaves x /\ finalized y = finalized x).
  { induction l as [|[nm v] l IHl]; intros x y; simpl.
    - unfold ret. intros [= <-]. repeat split.
    - unfold bind.
      destruct (add_region Interface fuel nm (reserved_region v) x)
        as [[[]|e|] x1] eqn:Ex; try discriminate.
      intros Hy. destruct (IHl _ _ Hy) as [H1 [H2 [H3 [H4 [H5 [H6 H7]]]]]].
      rewrite H1, H2, H3, H4, H5, H6, H7.
      destruct (add_region_writes Interface fuel nm (reserved_region v) x)
        as [Hw|[_ [_ [r [Hw|Hw]]]]];
        rewrite Ex in Hw; simpl in Hw; subst x1; repeat split. }
  destruct (Hframe _ _ _ E) as [H1 [H2 [H3 [H4 [H5 [H6 H7]]]]]].
  unfold in_strings, in_ints in *.
  apply existsb_exists in Es as [s [Hs Hse]]. apply String.eqb_eq in Hse.
  apply existsb_exists in Ed as [d [Hd Hde]]. apply Z.eqb_eq in Hde.
  apply existsb_exists in Ea as [a [Ha Hae]]. apply Z.eqb_eq in Hae.
  subst s d a.
  repeat split; try assumption.
  - rewrite H4. unfold b0. simpl.
    destruct (String.eqb standard0 "wishbone") eqn:Ew.
    + intros _. now apply String.eqb_eq.
    + discriminate.
  - intros ->. rewrite H4. reflexivity.
  - rewrite H4. exact E.
Qed.

End SlaveFacts.

Lemma region_names_unique_witness :
  NoDup (keys (regions MoreExamples.bus_after_ops) ++
         keys (io_regions MoreExamples.bus_after_ops)).
Proof.
  apply (region_names_unique string Examples.plain_remapper
           Examples.plain_offset Examples.plain_adapter
           MoreExamples.bus_after_ops).
  unfold MoreExamples.bus_after_ops, MoreExamples.run_op_s.
  repeat apply built_op. apply built_fresh; reflexivity.
Defined.

Lemma slaves_have_regions_witness :
  In "rom" (keys (regions MoreExamples.bus_after_ops)) \/
  In "rom" (keys (io_regions MoreExamples.bus_after_ops)).
Proof.
  apply (slaves_have_regions string Examples.plain_remapper
           Examples.plain_offset Examples.plain_adapter
           MoreExamples.bus_after_ops "rom").
  - unfold MoreExamples.bus_after_ops, MoreExamples.run_op_s.
    repeat apply built_op. apply built_fresh; reflexivity.
  - simpl. auto.
Defined.

Lemma add_slave_twice_fails_witness :
  Examples.add_slave_s 4 (Some "rom") "rom_port2"
    (Some (IsSoCRegion (Examples.region_at 0x4000 0x2000))) true
    MoreExamples.bus_rom_slave =
  (Raise (SoCError (AlreadyDeclaredAsRegion "rom")),
   MoreExamples.bus_rom_slave).
Proof.
  apply (add_slave_twice_fails string Examples.plain_offset
           Examples.plain_adapter 4 "rom" "rom_port"
           (IsSoCRegion (Examples.region_at 0 0x2000)) false
           Examples.fresh_bus MoreExamples.bus_rom_slave eq_refl).
Defined.

Lemma add_slave_keeps_region_witness :
  add_slave string Examples.plain_offset MoreExamples.failing_adapter 4
    (Some "rom") "rom_port"
    (Some (IsSoCRegion (Examples.region_at 0 0x2000))) false
    Examples.fresh_bus = (Raise KeyError, Examples.bus_rom) /\
  (In "rom" (keys (regions Examples.bus_rom)) \/
   In "rom" (keys (io_regions Examples.bus_rom))) /\
  slaves Examples.bus_rom = slaves Examples.fresh_bus.
Proof.
  apply (add_slave_keeps_region string Examples.plain_offset
           MoreExamples.failing_adapter 4 "rom" "rom_port"
           (IsSoCRegion (Examples.region_at 0 0x2000))
           Examples.fresh_bus Examples.bus_rom KeyError).
  - reflexivity.
  - reflexivity.
  - reflexivity.
Defined.

Lemma do_finalize_shared_pairs_witness :
  ["cpu_port"] = values (masters Examples.bus_two_slaves) /\
  map snd [(DecodeField 0 0x800, "rom_port");
           (DecodeField 0x4000000 0x400, "ram_port")]
  = values (slaves Examples.bus_two_slaves) /\
  Forall2
    (fun entry pair =>
       exists r,
         get (regions Examples.bus_two_slaves) (fst entry) = Some r /\
         decoder r (address_width Examples.bus_two_slaves)
           (data_width Examples.bus_two_slaves) = Ok (fst pair))
    (slaves Examples.bus_two_slaves)
    [(DecodeField 0 0x800, "rom_port");
     (DecodeField 0x4000000 0x400, "ram_port")].
Proof.
  apply (do_finalize_shared_pairs string Examples.bus_two_slaves
           ["cpu_port"]
           [(DecodeField 0 0x800, "rom_port");
            (DecodeField 0x4000000 0x400, "ram_port")] true None).
  - reflexivity.
  - reflexivity.
Defined.

Lemma do_finalize_nothing_to_connect_witness :
  do_finalize string Examples.bus_rom =
  (Ok tt, set__interconnect string None Examples.bus_rom).
Proof.
  apply (do_finalize_nothing_to_connect string Examples.bus_rom).
  - reflexivity.
  - left. reflexivity.
Defined.

Lemma SoCBusHandler_init_valid_witness :
  reachable MoreExamples.bus_constructed.
Proof.
  destruct (SoCBusHandler_init_valid string 4 "wishbone" 32 32 None false
              "shared" true [("reserved", inl 0xe0000000)]
              MoreExamples.bus_constructed eq_refl)
    as [_ [_ [_ [_ [_ [_ [_ [_ [_ [_ [H _]]]]]]]]]]].
  exact H.
Defined.


(** ** Locations *)

Lemma mem_true_get {V} (d : dict V) k :
  mem k d = true -> exists v, get d k = Some v.
Proof.
  induction d as [|[k' v'] d IH]; unfold mem; simpl; [discriminate|].
  destruct (String.eqb k k'); simpl; [now eexists | exact IH].
Qed.

Lemma mem_false_get {V} (d : dict V) k : mem k d = false -> get d k = None.
Proof.
  induction d as [|[k' v'] d IH]; unfold mem; simpl; [reflexivity|].
  destruct (String.eqb k k'); simpl; [discriminate | exact IH].
Qed.

Lemma get_app_other {V} (d : dict V) k v k' :
  k' <> k -> get (d ++ [(k, v)]) k' = get d k'.
Proof.
  intros Hne. induction d as [|[k0 v0] d IH]; simpl.
  - apply String.eqb_neq in Hne. now rewrite Hne.
  - destruct (String.eqb k' k0); [reflexivity | exact IH].
Qed.

(** [add] in direct style. *)
Lemma add_eq name n u self :
  add name n u self =
  if mem name (locs self) then
    if u then (Ok tt, self)
    else (Raise (SoCError (LocNameAlreadyUsed name)), self)
  else
    match n with
    | Some v =>
        if loc_used v (values (locs self)) then
          (Raise (SoCError (LocAlreadyUsed (Some v))), self)
        else if v <? 0 then (Raise (SoCError (LocShouldBePositive v)), self)
        else if n_locs self <? v then
          (Raise (SoCError (LocHigherThanMaximum v)), self)
        else (Ok tt, set_locs (locs self ++ [(name, v)]) self)
    | None =>
        match alloc self name with
        | Ok v => (Ok tt, set_locs (locs self ++ [(name, v)]) self)
        | Raise e => (Raise e, self)
        | OutOfFuel => (OutOfFuel, self)
        end
    end.
Proof.
  destruct (mem name (locs self)) eqn:Hm.
  - unfold add. run_method. rewrite Hm.
    destruct u; simpl; [|reflexivity].
    unfold getitem. destruct (mem_true_get _ _ Hm) as [v ->]. reflexivity.
  - destruct n as [v|].
    + destruct (loc_used v (values (locs self))) eqn:Hu.
      * unfold add. run_method. now rewrite Hm, andb_false_r, Hu.
      * now rewrite (add_pinned _ _ _ _ Hm Hu).
    + now rewrite (add_unpinned _ _ _ Hm).
Qed.

(** What [add] may have written: nothing, or one new name bound to a
    number that no name held, within the bounds. *)
Lemma add_writes name n u self :
  snd (add name n u self) = self \/
  exists v,
    snd (add name n u self) = set_locs (locs self ++ [(name, v)]) self /\
    fst (add name n u self) = Ok tt /\
    mem name (locs self) = false /\ ~ In v (values (locs self)) /\
    0 <= v <= n_locs self /\
    match n with
    | Some v' => v = v'
    | None => least_unused (n_locs self) (values (locs self)) v
    end.
Proof.
  rewrite add_eq. destruct (mem name (locs self)) eqn:Hm.
  - left. now destruct u.
  - destruct n as [v|].
    + destruct (loc_used v (values (locs self))) eqn:Hu; [now left|].
      destruct (v <? 0) eqn:E0; [now left|].
      destruct (n_locs self <? v) eqn:E1; [now left|].
      right. exists v. apply loc_used_false in Hu.
      apply Z.ltb_ge in E0, E1. simpl. repeat split; auto.
    + pose proof (alloc_cases self name) as Ha.
      destruct (alloc self name) as [v|e|]; [|now left|now left].
      right. exists v. destruct Ha as [Hr [Hnot Hlow]].
      simpl. repeat split; auto; lia.
Qed.

(** [X22] [add] is atomic: whenever it does not return normally, the
    handler is left exactly as it was. *)
Theorem add_fails_unchanged name n use_loc_if_exists self out self' :
  add name n use_loc_if_exists self = (out, self') ->
  out <> Ok tt ->
  self' = self.
Proof.
  intros H Hout.
  destruct (add_writes name n use_loc_if_exists self) as [Hw|[v [_ [Hok _]]]];
    rewrite H in *; simpl in *; [exact Hw | contradiction].
Qed.

Lemma add_fails_unchanged_witness :
  snd (add "uart" (Some 1) false
         (Examples.loc_handler [("timer0", 1)] 4))
  = Examples.loc_handler [("timer0", 1)] 4.
Proof.
  apply (add_fails_unchanged "uart" (Some 1) false
           (Examples.loc_handler [("timer0", 1)] 4)
           (Raise (SoCError (LocAlreadyUsed (Some 1))))).
  - reflexivity.
  - discriminate.
Defined.

(** [X23] For a name that already has a location, [add] with
    [use_loc_if_exists] returns and changes nothing, whatever number is
    passed along, be it another one, one in use or one out of bounds;
    without the flag it raises and changes nothing. *)
Theorem add_existing_name name n self :
  mem name (locs self) = true ->
  add name n true self = (Ok tt, self) /\
  add name n false self =
    (Raise (SoCError (LocNameAlreadyUsed name)), self).
Proof.
  intros Hm. rewrite !add_eq, Hm. split; reflexivity.
Qed.

Lemma add_existing_name_witness :
  add "timer0" (Some 99) true (Examples.loc_handler [("timer0", 1)] 4)
  = (Ok tt, Examples.loc_handler [("timer0", 1)] 4).
Proof.
  apply (proj1 (add_existing_name "timer0" (Some 99)
                  (Examples.loc_handler [("timer0", 1)] 4) eq_refl)).
Defined.

Lemma NoDup_snoc {A} (l : list A) (x : A) :
  NoDup l -> ~ In x l -> NoDup (l ++ [x]).
Proof.
  intros Hl Hx. apply (Permutation_NoDup (l := x :: l)).
  - apply Permutation_cons_append.
  - now constructor.
Qed.

Lemma loc_built_invariant self :
  loc_built self ->
  NoDup (keys (locs self)) /\ NoDup (values (locs self)) /\
  Forall (fun v => 0 <= v <= n_locs self) (values (locs self)).
Proof.
  induction 1 as [name n | self name n u _ [Hk [Hv Hb]]].
  - simpl. repeat split; constructor.
  - destruct (add_writes name n u self)
      as [->|[v [-> [_ [Hm [Hnot [Hr _]]]]]]]; [auto|].
    simpl. rewrite keys_app, values_app. simpl. repeat split.
    + apply NoDup_snoc; [exact Hk | now apply mem_false_not_in].
    + apply NoDup_snoc; assumption.
    + apply Forall_app. split; [exact Hb | now constructor].
Qed.

(** [X24] Whatever calls of [add] were made on a new location handler,
    and whether they returned or raised: every name has one location,
    no location is held by two names, and every location lies between
    [0] and [n_locs], both included. *)
Theorem locs_unique_and_bounded self name0 name1 v0 v1 :
  loc_built self ->
  get (locs self) name0 = Some v0 ->
  get (locs self) name1 = Some v1 ->
  (0 <= v0 <= n_locs self) /\ (v0 = v1 -> name0 = name1).
Proof.
  intros Hb H0 H1.
  destruct (loc_built_invariant self Hb) as [Hk [Hv Hbound]].
  apply get_in in H0, H1. split.
  - rewrite Forall_forall in Hbound. apply Hbound.
    unfold values. apply in_map_iff. now exists (name0, v0).
  - intros <-. clear Hbound Hk Hb.
    induction (locs self) as [|[k v] l IH]; [contradiction|].
    simpl in Hv. inversion Hv as [|? ? Hnot Hv']; subst.
    destruct H0 as [E0|H0]; destruct H1 as [E1|H1].
    + congruence.
    + injection E0 as -> ->. exfalso. apply Hnot. unfold values.
      apply in_map_iff. now exists (name1, v0).
    + injection E1 as -> ->. exfalso. apply Hnot. unfold values.
      apply in_map_iff. now exists (name0, v0).
    + now apply IH.
Qed.

Lemma locs_unique_and_bounded_witness :
  (0 <= 4 <= 4) /\ (4 = 4 -> "uart" = "uart").
Proof.
  apply (locs_unique_and_bounded
           (snd (add "uart" (Some 4) false
                   (snd (add "timer0" None false
                           (SoCLocHandler_init "CSR" 4)))))
           "uart" "uart" 4 4).
  - repeat apply loc_built_add. apply loc_built_init.
  - reflexivity.
  - reflexivity.
Defined.

Lemma length_range n : List.length (range n) = Z.to_nat n.
Proof. unfold range. now rewrite length_map, length_seq. Qed.

(** [X25] A location handler never holds more than [n_locs + 1] names:
    the upper bound of an explicit number is [n_locs] itself, one more
    than what [alloc] hands out. *)
Theorem locs_capacity self :
  loc_built self ->
  len (locs self) <= Z.max 0 (n_locs self + 1).
Proof.
  intros Hb. destruct (loc_built_invariant self Hb) as [_ [Hv Hbound]].
  assert (Hincl : incl (values (locs self)) (range (n_locs self + 1))).
  { intros v Hin. rewrite Forall_forall in Hbound.
    apply In_range. specialize (Hbound v Hin). lia. }
  pose proof (NoDup_incl_length Hv Hincl) as Hlen.
  rewrite length_range in Hlen. unfold len, values in *.
  rewrite length_map in Hlen. lia.
Qed.

Lemma locs_capacity_witness :
  len (locs (snd (add "uart" (Some 1) false
                    (snd (add "timer0" (Some 0) false
                            (SoCLocHandler_init "IRQ" 1))))))
  <= Z.max 0 (1 + 1).
Proof.
  apply (locs_capacity
           (snd (add "uart" (Some 1) false
                   (snd (add "timer0" (Some 0) false
                           (SoCLocHandler_init "IRQ" 1)))))).
  repeat apply loc_built_add. apply loc_built_init.
Defined.

(** [X26] After [add] has returned, the name has a location, and the
    locations of all other names are what they were; the location is the
    number given for a new name, the lowest free number of
    [[0, n_locs)] for a new name given without number, and the old
    location for a name that was there. *)
Theorem add_then_lookup name n use_loc_if_exists self self' :
  add name n use_loc_if_exists self = (Ok tt, self') ->
  (forall other, other <> name ->
     get (locs self') other = get (locs self) other) /\
  exists v,
    get (locs self') name = Some v /\
    match get (locs self) name, n with
    | Some old, _ => v = old
    | None, Some v' => v = v'
    | None, None => least_unused (n_locs self) (values (locs self)) v
    end.
Proof.
  intros H. pose proof (add_writes name n use_loc_if_exists self) as Hw.
  rewrite H in Hw. simpl in Hw.
  destruct Hw as [->|[v [-> [_ [Hm [_ [_ Hn]]]]]]].
  - split; [reflexivity|].
    rewrite add_eq in H. destruct (mem name (locs self)) eqn:Hm.
    + destruct (mem_true_get _ _ Hm) as [v Hv]. exists v. now rewrite Hv.
    + exfalso. destruct n as [v|].
      * destruct (loc_used v (values (locs self))); [discriminate|].
        destruct (v <? 0); [discriminate|].
        destruct (n_locs self <? v); [discriminate|].
        injection H as H. apply (f_equal locs) in H. simpl in H.
        apply (f_equal (@List.length _)) in H.
        rewrite length_app in H. simpl in H. lia.
      * destruct (alloc self name); try discriminate.
        injection H as H. apply (f_equal locs) in H. simpl in H.
        apply (f_equal (@List.length _)) in H.
        rewrite length_app in H. simpl in H. lia.
  - simpl. split.
    + intros other Hne. now apply get_app_other.
    + exists v. split; [now apply get_app_fresh|].
      rewrite (mem_false_get _ _ Hm). destruct n; exact Hn.
Qed.

Lemma add_then_lookup_witness :
  (forall other, other <> "uart" ->
     get [("timer0", 0); ("uart", 1)] other = get [("timer0", 0)] other) /\
  exists v,
    get [("timer0", 0); ("uart", 1)] "uart" = Some v /\
    least_unused 4 [0] v.
Proof.
  apply (add_then_lookup "uart" None false
           (Examples.loc_handler [("timer0", 0)] 4)
           (Examples.loc_handler [("timer0", 0); ("uart", 1)] 4)).
  reflexivity.
Defined.

(** ** The control-register and interrupt spaces, continued *)

Lemma csr_add_eq name n u self :
  csr_add name n u self =
  (fst (add name n u (csr_locs self)),
   mkSoCCSRHandler (snd (add name n u (csr_locs self)))
     (csr_data_width self) (csr_address_width self) (csr_alignment self)
     (csr_paging self) (csr_ordering self)).
Proof. unfold csr_add. now destruct (add name n u (csr_locs self)). Qed.

(** [address_map] in direct style. *)
Lemma address_map_eq name memory self :
  address_map name memory self =
  let nm := address_map_name name memory in
  match get (locs (csr_locs self)) nm with
  | Some v => (Ok v, self)
  | None =>
      match alloc (csr_locs self) nm with
      | Ok v =>
          (Ok v,
           mkSoCCSRHandler
             (set_locs (locs (csr_locs self) ++ [(nm, v)]) (csr_locs self))
             (csr_data_width self) (csr_address_width self)
             (csr_alignment self) (csr_paging self) (csr_ordering self))
      | Raise e => (Raise e, self)
      | OutOfFuel => (OutOfFuel, self)
      end
  end.
Proof.
  unfold address_map. fold (address_map_name name memory).
  set (nm := address_map_name name memory). cbv zeta.
  rewrite bind_get_self.
  destruct (get (locs (csr_locs self)) nm) as [v|] eqn:Eg.
  - unfold bind, ret, get_self, lift, getitem. now rewrite Eg.
  - unfold bind. rewrite csr_add_eq, add_eq.
    assert (Hm : mem nm (locs (csr_locs self)) = false).
    { destruct (mem nm (locs (csr_locs self))) eqn:Hm; [|reflexivity].
      destruct (mem_true_get _ _ Hm) as [v Hv]. congruence. }
    rewrite Hm.
    destruct (alloc (csr_locs self) nm) as [v|e|]; simpl.
    + unfold get_self, lift, getitem. simpl.
      now rewrite (get_app_fresh _ _ _ Hm).
    + now destruct self.
    + now destruct self.
Qed.

(** [X27] [address_map] gives a name its location: the one it has, or for
    a new name the lowest free number of [[0, n_locs)], which it then
    has; asking again returns the same number and changes nothing. *)
Theorem address_map_stable name memory self v self' :
  address_map name memory self = (Ok v, self') ->
  get (locs (csr_locs self')) (address_map_name name memory) = Some v /\
  address_map name memory self' = (Ok v, self') /\
  match get (locs (csr_locs self)) (address_map_name name memory) with
  | Some old => v = old /\ self' = self
  | None =>
      least_unused (n_locs (csr_locs self)) (values (locs (csr_locs self))) v
  end.
Proof.
  rewrite address_map_eq. cbv zeta.
  destruct (get (locs (csr_locs self)) (address_map_name name memory))
    as [old|] eqn:Eg.
  - intros [= <- <-]. rewrite address_map_eq. cbv zeta. rewrite Eg. auto.
  - pose proof (alloc_cases (csr_locs self) (address_map_name name memory))
      as Ha.
    destruct (alloc (csr_locs self) (address_map_name name memory))
      as [v'|e|]; try discriminate.
    intros [= <- <-].
    assert (Hm : mem (address_map_name name memory) (locs (csr_locs self))
                 = false).
    { destruct (mem _ (locs (csr_locs self))) eqn:Hm; [|reflexivity].
      destruct (mem_true_get _ _ Hm) as [x Hx]. congruence. }
    assert (Hg : get (locs (csr_locs self) ++
                      [(address_map_name name memory, v')])
                   (address_map_name name memory) = Some v')
      by now apply get_app_fresh.
    split; [exact Hg|]. split; [|exact Ha].
    rewrite address_map_eq. cbv zeta. simpl. now rewrite Hg.
Qed.

Lemma address_map_stable_witness :
  get (locs (csr_locs (snd (address_map "sram" (Some "mem")
                              MoreExamples.csr_handler))))
    (address_map_name "sram" (Some "mem")) = Some 1 /\
  address_map "sram" (Some "mem")
    (snd (address_map "sram" (Some "mem") MoreExamples.csr_handler))
  = (Ok 1, snd (address_map "sram" (Some "mem") MoreExamples.csr_handler)) /\
  match get (locs (csr_locs MoreExamples.csr_handler))
          (address_map_name "sram" (Some "mem")) with
  | Some old =>
      1 = old /\
      snd (address_map "sram" (Some "mem") MoreExamples.csr_handler)
      = MoreExamples.csr_handler
  | None =>
      least_unused (n_locs (csr_locs MoreExamples.csr_handler))
        (values (locs (csr_locs MoreExamples.csr_handler))) 1
  end.
Proof.
  apply (address_map_stable "sram" (Some "mem") MoreExamples.csr_handler 1).
  reflexivity.
Defined.

(** What [add] raises. *)
Lemma add_raises name n u self e :
  fst (add name n u self) = Raise e ->
  exists line,
    e = SoCError line /\
    (line = LocNameAlreadyUsed name \/ line = LocAlreadyUsed n \/
     (exists v, line = LocShouldBePositive v) \/
     (exists v, line = LocHigherThanMaximum v) \/
     line = NotEnoughLocations).
Proof.
  rewrite add_eq. destruct (mem name (locs self)).
  - destruct u; simpl; [discriminate|]. intros [= <-]. eexists. eauto.
  - destruct n as [v|].
    + destruct (loc_used v (values (locs self))); simpl.
      { intros [= <-]. eexists. eauto. }
      destruct (v <? 0); simpl.
      { intros [= <-]. eexists. eauto 6. }
      destruct (n_locs self <? v); simpl; [|discriminate].
      intros [= <-]. eexists. eauto 8.
    + pose proof (alloc_cases self name) as Ha.
      destruct (alloc self name) as [v|e'|]; simpl; try discriminate.
      intros [= <-]. destruct Ha as [-> _]. eexists. eauto 8.
Qed.

Lemma add_all_raises reserved : forall self e,
  fst (add_all (fun name n => add name n false) reserved self) = Raise e ->
  e <> SoCError AlignmentBelowDataWidth.
Proof.
  induction reserved as [|[name n] rest IH]; intros self e; simpl.
  - discriminate.
  - unfold bind.
    destruct (add name n false self) as [[[]|e'|] s] eqn:E; simpl.
    + apply IH.
    + intros [= <-].
      assert (Hf : fst (add name n false self) = Raise e') by now rewrite E.
      apply add_raises in Hf
        as [line [-> [->|[->|[[v ->]|[[v ->]| ->]]]]]]; discriminate.
    + discriminate.
Qed.

(** [X28] The constructor of the control-register space, given no
    reserved entry, succeeds exactly on the supported data widths,
    address widths, alignment, pagings and orderings, with
    [alignment//8 * 2**address_width // paging] locations; and whatever
    it is given, it never reports an alignment below the data width, the
    supported values leaving that check nothing to catch. *)
Theorem SoCCSRHandler_init_checks data_width0 address_width0 alignment0
    paging0 ordering0 :
  (forall reserved,
     SoCCSRHandler_init data_width0 address_width0 alignment0 paging0
       ordering0 reserved <> Raise (SoCError AlignmentBelowDataWidth)) /\
  (forall self,
     SoCCSRHandler_init data_width0 address_width0 alignment0 paging0
       ordering0 [] = Ok self <->
     In data_width0 csr_supported_data_width /\
     In address_width0 csr_supported_address_width /\
     In alignment0 csr_supported_alignment /\
     In paging0 csr_supported_paging /\
     In ordering0 csr_supported_ordering /\
     self =
       mkSoCCSRHandler
         (SoCLocHandler_init "CSR"
            (alignment0 / 8 * 2 ^ address_width0 / paging0))
         data_width0 address_width0 alignment0 paging0 ordering0).
Proof.
  assert (HZ : forall x l, existsb (Z.eqb x) l = true <-> In x l).
  { intros x l. rewrite existsb_exists. split.
    - intros [y [Hin Heq]]. apply Z.eqb_eq in Heq. now subst.
    - intros Hin. exists x. split; [exact Hin | apply Z.eqb_refl]. }
  assert (HS : forall x l, existsb (String.eqb x) l = true <-> In x l).
  { intros x l. rewrite existsb_exists. split.
    - intros [y [Hin Heq]]. apply String.eqb_eq in Heq. now subst.
    - intros Hin. exists x. split; [exact Hin | apply String.eqb_refl]. }
  assert (Halign : In data_width0 csr_supported_data_width ->
                   In alignment0 csr_supported_alignment ->
                   (alignment0 <? data_width0) = false).
  { simpl. intros [<-|[<-|[]]] [<-|[]]; reflexivity. }
  unfold SoCCSRHandler_init, csr_n_locs. split.
  - intros reserved.
    destruct (paging0 =? 0); [discriminate|].
    destruct (existsb (Z.eqb data_width0) csr_supported_data_width) eqn:Ed;
      [|discriminate].
    destruct (existsb (Z.eqb address_width0) csr_supported_address_width);
      [|discriminate].
    destruct (existsb (Z.eqb alignment0) csr_supported_alignment) eqn:Ea;
      [|discriminate].
    cbn [negb]. cbv iota.
    rewrite (Halign (proj1 (HZ _ _) Ed) (proj1 (HZ _ _) Ea)). cbv iota.
    destruct (existsb (Z.eqb paging0) csr_supported_paging);
      [|discriminate].
    destruct (existsb (String.eqb ordering0) csr_supported_ordering);
      [|discriminate].
    cbn [negb]. cbv iota. rewrite csr_add_all.
    match goal with
    | |- context [fst ?x] => destruct x as [[[]|e|] s] eqn:E
    end; simpl; try discriminate.
    intros [= ->].
    assert (Hf : fst (add_all (fun name n => add name n false) reserved
                        (SoCLocHandler_init "CSR"
                           (alignment0 / 8 * 2 ^ address_width0 / paging0)))
                 = Raise (SoCError AlignmentBelowDataWidth)).
    { simpl in E. now rewrite E. }
    now apply add_all_raises in Hf.
  - intros self. split.
    + destruct (paging0 =? 0); [discriminate|].
      destruct (existsb (Z.eqb data_width0) csr_supported_data_width) eqn:Ed;
        [|discriminate].
      destruct (existsb (Z.eqb address_width0) csr_supported_address_width)
        eqn:Ew; [|discriminate].
      destruct (existsb (Z.eqb alignment0) csr_supported_alignment) eqn:Ea;
        [|discriminate].
      cbn [negb]. cbv iota.
      destruct (alignment0 <? data_width0); [discriminate|].
      destruct (existsb (Z.eqb paging0) csr_supported_paging) eqn:Ep;
        [|discriminate].
      destruct (existsb (String.eqb ordering0) csr_supported_ordering) eqn:Eo;
        [|discriminate].
      simpl. unfold ret. intros [= <-].
      rewrite HZ in Ed, Ew, Ea, Ep. rewrite HS in Eo. auto 10.
    + intros [Hd [Hw [Ha [Hp [Ho ->]]]]].
      assert (Hp0 : (paging0 =? 0) = false).
      { apply Z.eqb_neq. simpl in Hp. intuition lia. }
      rewrite Hp0, (proj2 (HZ _ _) Hd), (proj2 (HZ _ _) Hw),
        (proj2 (HZ _ _) Ha), (proj2 (HZ _ _) Hp), (proj2 (HS _ _) Ho).
      cbn [negb]. cbv iota. rewrite (Halign Hd Ha). reflexivity.
Qed.

Lemma add_all_irq_disabled reserved self :
  enabled self = false ->
  add_all (fun name n => irq_add name n false) reserved self =
  match reserved with
  | [] => (Ok tt, self)
  | (name, _) :: _ => (Raise (SoCError (IRQsNotSupported name)), self)
  end.
Proof.
  intros Hoff. destruct reserved as [|[name n] rest]; simpl; [reflexivity|].
  unfold bind, irq_add. now rewrite Hoff.
Qed.

(** [X29] The constructor of the interrupt space succeeds exactly when at
    most 32 interrupts are asked for and no interrupt is reserved: the
    handler is created disabled, so the first reserved entry is refused
    by its own [add]. *)
Theorem SoCIRQHandler_init_iff n_irqs reserved_irqs self :
  SoCIRQHandler_init n_irqs reserved_irqs = Ok self <->
  n_irqs <= 32 /\ reserved_irqs = [] /\
  self = mkSoCIRQHandler (SoCLocHandler_init "IRQ" n_irqs) false.
Proof.
  unfold SoCIRQHandler_init.
  rewrite add_all_irq_disabled by reflexivity.
  destruct (32 <? n_irqs) eqn:E.
  - apply Z.ltb_lt in E. split; [discriminate | intros [H _]; lia].
  - apply Z.ltb_ge in E. destruct reserved_irqs as [|[name n] rest].
    + split; [intros [= <-]; auto | intros [_ [_ ->]]; reflexivity].
    + split; [discriminate | intros [_ [H _]]; discriminate].
Qed.

(** ** MAC address constants *)

Lemma mac_bytes_eq mac_address :
  map (mac_address_byte mac_address) (range 6) =
  [ (mac_address / 2 ^ 40) mod 256; (mac_address / 2 ^ 32) mod 256;
    (mac_address / 2 ^ 24) mod 256; (mac_address / 2 ^ 16) mod 256;
    (mac_address / 2 ^ 8) mod 256; (mac_address / 2 ^ 0) mod 256 ].
Proof.
  assert (H : forall k, 0 <= k ->
            Z.land (Z.shiftr mac_address k) 255 = (mac_address / 2 ^ k) mod 256).
  { intros k Hk. rewrite Z.shiftr_div_pow2 by exact Hk.
    change 255 with (Z.ones 8). rewrite Z.land_ones by lia. reflexivity. }
  change (range 6) with [0; 1; 2; 3; 4; 5]. unfold mac_address_byte.
  cbn [map]. cbn [Z.sub Z.mul Z.add Z.opp Z.pos_sub Pos.mul Pos.add
                   Pos.pred_double Pos.succ Z.double Z.succ_double
                   Z.pred_double].
  rewrite !H by lia. reflexivity.
Qed.

(** [X30] [add_mac_address_constants] runs exactly for addresses below
    [2**48]; for an address of 48 bits the six values it hands to
    [add_constant], in the order of the calls, are bytes, and read
    big-endian they are the address. *)
Theorem mac_address_bytes_round_trip (Soc : Type)
    (add_constant : string -> Z -> bool -> M Soc unit)
    (name : string) (mac_address : Z) (check_duplicate : bool) :
  (add_mac_address_constants Soc add_constant name mac_address
     check_duplicate <> None <-> mac_address < 2 ^ 48) /\
  (0 <= mac_address < 2 ^ 48 ->
   add_mac_address_constants Soc add_constant name mac_address
     check_duplicate =
   Some (add_mac_bytes Soc add_constant name mac_address check_duplicate
           (range 6)) /\
   Forall (fun b => 0 <= b < 256)
     (map (mac_address_byte mac_address) (range 6)) /\
   of_bytes (map (mac_address_byte mac_address) (range 6)) = mac_address).
Proof.
  unfold add_mac_address_constants. split.
  - destruct (mac_address <? 2 ^ 48) eqn:E.
    + apply Z.ltb_lt in E. split; [intros _; exact E | discriminate].
    + apply Z.ltb_ge in E. split; [intros H; now contradiction H | lia].
  - intros [Hlo Hhi].
    replace (mac_address <? 2 ^ 48) with true
      by (symmetry; apply Z.ltb_lt; exact Hhi).
    split; [reflexivity|]. rewrite mac_bytes_eq. split.
    + repeat constructor; apply Z.mod_pos_bound; lia.
    + unfold of_bytes. cbn [fold_left].
      assert (Hstep : forall k k', 0 <= k -> k' = k + 8 ->
                mac_address / 2 ^ k =
                256 * (mac_address / 2 ^ k') +
                (mac_address / 2 ^ k) mod 256).
      { intros k k' Hk ->. rewrite Z.pow_add_r by lia.
        rewrite <- Z.div_div by (try apply Z.pow_pos_nonneg; lia).
        apply Z.div_mod. lia. }
      pose proof (Hstep 0 8 ltac:(lia) eq_refl) as H0.
      pose proof (Hstep 8 16 ltac:(lia) eq_refl) as H8.
      pose proof (Hstep 16 24 ltac:(lia) eq_refl) as H16.
      pose proof (Hstep 24 32 ltac:(lia) eq_refl) as H24.
      pose proof (Hstep 32 40 ltac:(lia) eq_refl) as H32.
      pose proof (Hstep 40 48 ltac:(lia) eq_refl) as H40.
      assert (Htop : mac_address / 2 ^ 48 = 0) by (apply Z.div_small; lia).
      clear Hstep. rewrite Z.pow_0_r, Z.div_1_r in *. lia.
Qed.

Lemma mac_address_bytes_round_trip_witness :
  of_bytes (map (mac_address_byte 0x10e2d5000001) (range 6))
  = 0x10e2d5000001.
Proof.
  apply (proj2 (proj2 (proj2 (mac_address_bytes_round_trip unit
                         (fun _ _ _ => ret tt) "MACADDR" 0x10e2d5000001
                         true)
                       ltac:(lia)))).
Defined.
